(** * website-grammar-checker: the heuristic pipeline of [GrammarChecker]

    A shallow embedding of [src/grammarChecker.ts]: the noise predicates
    [isHeadingOrTitle], [shouldSkipText] and [isPrepositionInHeading], the
    content test [isContentSentence], the sentence pass
    [detectIncompleteWithCompromise], the whole-text pass
    [checkRegexPatterns], the final pass [deduplicateErrors] and [checkPage];
    and of the one method of [src/sentenceAnalyzer.ts] that the repository
    holds, [analyzeText].

    - Strings are Rocq [string]s read as sequences of Latin-1 code units
      (one [ascii] is one JavaScript code unit below 256).
    - Regular expressions are syntax trees, run by a backtracking matcher
      that follows the ECMAScript rules: leftmost start, first alternative
      first, greedy quantifiers.
    - The private field [processedFragments] is a [gset string] that every
      method takes and returns; an instance is a record of its options and
      that set.
    - [checkPage] is taken from the text that [extractText] returns for the
      page.  The sentence splitter of the compromise library is a parameter
      of the pipeline; the examples run it with the Segmenter of the
      specification ([segmenter]).

    The file has the embedding first, then the vocabulary of the
    statements, the lemmas, and the claims C1 to C10 in order. *)

From Stdlib Require Import Ascii String List ZArith Lia Bool.
From stdpp Require Import base decidable option list sets gmap strings.

Local Open Scope string_scope.
Local Open Scope list_scope.
Local Open Scope nat_scope.

(** ** Characters *)

Module Char.

Definition code (c : ascii) : nat := nat_of_ascii c.

Definition between (lo hi : nat) (c : ascii) : bool :=
  (lo <=? code c) && (code c <=? hi).

Definition is_upper : ascii -> bool := between 65 90.
Definition is_lower : ascii -> bool := between 97 122.
Definition is_digit : ascii -> bool := between 48 57.

(** [\w] of a non-unicode regular expression: [A-Za-z0-9_]. *)
Definition is_word (c : ascii) : bool :=
  is_upper c || is_lower c || is_digit c || (code c =? 95).

(** WhiteSpace and LineTerminator code units below 256: TAB, LF, VT, FF,
    CR, SP and NBSP.  This is the set of [\s] and of [String.prototype.trim]. *)
Definition is_space (c : ascii) : bool :=
  between 9 13 c || (code c =? 32) || (code c =? 160).

(** LineTerminator code units below 256: LF and CR. *)
Definition is_newline (c : ascii) : bool :=
  (code c =? 10) || (code c =? 13).

(** Latin-1 letters with a Latin-1 counterpart in the other case: A-Z and
    the range 0xC0-0xDE without the multiplication sign 0xD7. *)
Definition has_lower (c : ascii) : bool :=
  is_upper c || (between 192 222 c && negb (code c =? 215)).
Definition has_upper (c : ascii) : bool :=
  is_lower c || (between 224 254 c && negb (code c =? 247)).

Definition toLower (c : ascii) : ascii :=
  if has_lower c then ascii_of_nat (code c + 32) else c.
Definition toUpper (c : ascii) : ascii :=
  if has_upper c then ascii_of_nat (code c - 32) else c.

Definition eqb (a b : ascii) : bool := Ascii.eqb a b.

End Char.

(** ** Regular expressions *)

(** The members of a character class. *)
Inductive cset : Type :=
| COne (c : ascii)            (* a literal character *)
| CRange (lo hi : ascii)      (* a-z *)
| CSpace                      (* \s *)
| CDigit                      (* \d *)
| CNone.                      (* a code unit above 255: never met in a Latin-1 text *)

Inductive regex : Type :=
| Eps
| Lit (c : ascii)                         (* a pattern character *)
| Dot                                     (* . *)
| Class (neg : bool) (items : list cset)  (* [...] and [^...] *)
| Seq (a b : regex)
| Alt (a b : regex)
| Rep (lo : nat) (hi : option nat) (a : regex)   (* greedy a{lo,hi} *)
| Bol                                     (* ^ *)
| Eol                                     (* $ *)
| WordB.                                  (* \b *)

Record flags : Type := { ignoreCase : bool; multiline : bool }.

Definition no_flags : flags := {| ignoreCase := false; multiline := false |}.
Definition flag_i : flags := {| ignoreCase := true; multiline := false |}.
Definition flag_m : flags := {| ignoreCase := false; multiline := true |}.
Definition flag_im : flags := {| ignoreCase := true; multiline := true |}.

Definition star : regex -> regex := Rep 0 None.
Definition plus : regex -> regex := Rep 1 None.
Definition opt : regex -> regex := Rep 0 (Some 1).
Definition atLeast (n : nat) : regex -> regex := Rep n None.
Definition fromTo (n m : nat) : regex -> regex := Rep n (Some m).

Fixpoint seqs (rs : list regex) : regex :=
  match rs with
  | [] => Eps
  | [r] => r
  | r :: rs' => Seq r (seqs rs')
  end.

Fixpoint alts (rs : list regex) : regex :=
  match rs with
  | [] => Class false []
  | [r] => r
  | r :: rs' => Alt r (alts rs')
  end.

(** A run of pattern characters, as in [/please note/]. *)
Fixpoint word (s : string) : regex :=
  match s with
  | EmptyString => Eps
  | String c EmptyString => Lit c
  | String c s' => Seq (Lit c) (word s')
  end.

(** An alternation of words, as in [/(to|for|with)/]. *)
Definition words (ws : list string) : regex := alts (map word ws).

Definition cset_mem (i : cset) (c : ascii) : bool :=
  match i with
  | COne a => Char.eqb a c
  | CRange lo hi => Char.between (Char.code lo) (Char.code hi) c
  | CSpace => Char.is_space c
  | CDigit => Char.is_digit c
  | CNone => false
  end.

Definition class_mem (items : list cset) (c : ascii) : bool :=
  existsb (fun i => cset_mem i c) items.

(** Under the [i] flag a set contains [c] when it contains a character with
    the same canonical (upper case) form: [c] itself or its counterpart in
    the other case. *)
Definition class_has (fl : flags) (items : list cset) (c : ascii) : bool :=
  if ignoreCase fl
  then class_mem items c || class_mem items (Char.toUpper c)
       || class_mem items (Char.toLower c)
  else class_mem items c.

(** A position in the subject: the characters consumed, most recent first,
    and the characters ahead. *)
Record pos : Type := { before : list ascii; ahead : list ascii }.

Definition index (p : pos) : nat := length (before p).

Definition step (c : ascii) (p : pos) (rest : list ascii) : pos :=
  {| before := c :: before p; ahead := rest |}.

Definition at_bol (fl : flags) (p : pos) : bool :=
  match before p with
  | [] => true
  | c :: _ => multiline fl && Char.is_newline c
  end.

Definition at_eol (fl : flags) (p : pos) : bool :=
  match ahead p with
  | [] => true
  | c :: _ => multiline fl && Char.is_newline c
  end.

Definition at_wordb (p : pos) : bool :=
  let a := match before p with c :: _ => Char.is_word c | [] => false end in
  let b := match ahead p with c :: _ => Char.is_word c | [] => false end in
  xorb a b.

(** Does the atom [r] accept the character [c]? *)
Definition atom (fl : flags) (r : regex) (c : ascii) : bool :=
  match r with
  | Lit a => class_has fl [COne a] c
  | Dot => negb (Char.is_newline c)
  | Class neg items => xorb neg (class_has fl items c)
  | _ => false
  end.

Section Matcher.
Context {A : Type}.
Variable fl : flags.

(** RepeatMatcher: greedy [a{lo,hi}] where [body] matches [a].  An
    iteration past the minimum that consumes nothing is rejected.  Every
    iteration lowers [lo] or consumes a character, so the fuel
    [S (lo + length (ahead p))] given by [run] is never used up. *)
Fixpoint repeat (body : (pos -> option A) -> pos -> option A)
    (k : pos -> option A) (fuel lo : nat) (hi : option nat) (p : pos)
  : option A :=
  match fuel with
  | 0 => None
  | S fuel' =>
      if hi is Some 0 then k p
      else
        let again p' :=
          if (lo =? 0) && (length (ahead p) <=? length (ahead p'))
          then None
          else repeat body k fuel' (pred lo) (pred <$> hi) p' in
        match body again p with
        | Some x => Some x
        | None => if lo is 0 then k p else None
        end
  end.

(** The backtracking matcher, in continuation-passing style: [run r k p]
    matches [r] at [p] and hands every end position to [k], most
    preferred first, until [k] accepts one. *)
Fixpoint run (r : regex) (k : pos -> option A) (p : pos) : option A :=
  match r with
  | Eps => k p
  | Lit _ | Dot | Class _ _ =>
      match ahead p with
      | c :: rest => if atom fl r c then k (step c p rest) else None
      | [] => None
      end
  | Seq a b => run a (run b k) p
  | Alt a b =>
      match run a k p with
      | Some x => Some x
      | None => run b k p
      end
  | Rep lo hi a => repeat (run a) k (S (lo + length (ahead p))) lo hi p
  | Bol => if at_bol fl p then k p else None
  | Eol => if at_eol fl p then k p else None
  | WordB => if at_wordb p then k p else None
  end.
End Matcher.

(** The matched text between two positions of one subject. *)
Definition matched (p q : pos) : list ascii :=
  rev (take (index q - index p) (before q)).

(** [exec] from position [p]: the leftmost start at or after [p] where the
    pattern matches, with the end position the matcher prefers. *)
Fixpoint search_from (fl : flags) (r : regex) (bef : list ascii) (ah : list ascii)
  : option (pos * pos) :=
  let p := {| before := bef; ahead := ah |} in
  match run fl r Some p with
  | Some q => Some (p, q)
  | None =>
      match ah with
      | [] => None
      | c :: rest => search_from fl r (c :: bef) rest
      end
  end.

Definition chars (s : string) : list ascii := list_ascii_of_string s.
Definition text_of (l : list ascii) : string := string_of_list_ascii l.

(** [RegExp.prototype.test] of a regular expression without the [g] flag. *)
Definition test (fl : flags) (r : regex) (s : string) : bool :=
  match search_from fl r [] (chars s) with
  | Some _ => true
  | None => false
  end.

(** ** JavaScript string operations *)

Fixpoint trim_start (l : list ascii) : list ascii :=
  match l with
  | c :: l' => if Char.is_space c then trim_start l' else l
  | [] => []
  end.

Definition trim_chars (l : list ascii) : list ascii :=
  rev (trim_start (rev (trim_start l))).

(** [String.prototype.trim] *)
Definition trim (s : string) : string := text_of (trim_chars (chars s)).

(** [String.prototype.toLowerCase] *)
Definition toLowerCase (s : string) : string :=
  text_of (map Char.toLower (chars s)).

Fixpoint starts_with (sub l : list ascii) : bool :=
  match sub, l with
  | [], _ => true
  | a :: sub', b :: l' => Char.eqb a b && starts_with sub' l'
  | _ :: _, [] => false
  end.

(** [indexOf] over code units, from the front; [None] stands for -1. *)
Fixpoint find_sub (sub l : list ascii) (i : nat) : option nat :=
  if starts_with sub l then Some i
  else match l with
       | [] => None
       | _ :: l' => find_sub sub l' (S i)
       end.

(** [String.prototype.indexOf] *)
Definition indexOf (s sub : string) : Z :=
  match find_sub (chars sub) (chars s) 0 with
  | Some i => Z.of_nat i
  | None => (-1)%Z
  end.

(** [String.prototype.includes], with its optional start position. *)
Definition includes_from (s sub : string) (from : nat) : bool :=
  match find_sub (chars sub) (drop from (chars s)) 0 with
  | Some _ => true
  | None => false
  end.

Definition includes (s sub : string) : bool := includes_from s sub 0.

(** [s.split(/\s+/)]: the pieces between the maximal runs of white space;
    a subject that starts or ends with white space gives an empty first or
    last piece. *)
Fixpoint split_spaces (l : list ascii) (piece : list ascii) (in_gap : bool)
  : list string :=
  match l with
  | [] => [text_of (rev piece)]
  | c :: l' =>
      if Char.is_space c
      then if in_gap then split_spaces l' piece true
           else text_of (rev piece) :: split_spaces l' [] true
      else split_spaces l' (c :: piece) false
  end.

Definition split_ws (s : string) : list string := split_spaces (chars s) [] false.

Definition is_empty (s : string) : bool :=
  match s with EmptyString => true | _ => false end.

Definition string_eqb (a b : string) : bool := String.eqb a b.

(** ** The data model of [grammarChecker.ts] *)

Module position.
Record t : Type := { offset : Z; length : nat }.
End position.

Record GrammarError : Type := {
  message : string;
  context : string;
  suggestions : list string;
  ruleId : string;
  position : position.t
}.

Record CheckResult : Type := {
  url : string;
  totalErrors : nat;
  errors : list GrammarError;
  rawText : string
}.

(** The options object handed to the constructor; an absent property is
    [None]. *)
Record Options : Type := {
  language : option string;
  motherTongue : option string;
  disabledRules : option (list string);
  detectIncomplete : option bool
}.

(** An instance of the class: its options and its private set of processed
    fragments. *)
Record GrammarChecker : Type := {
  options : Options;
  processedFragments : gset string
}.

(** The constructor: [language] defaults to en-US, [detectIncomplete] is
    true unless it was given as false, and the fragment set starts empty. *)
Definition new_GrammarChecker (o : Options) : GrammarChecker :=
  {| options :=
       {| language := Some (match language o with
                            | Some l => if is_empty l then "en-US" else l
                            | None => "en-US"
                            end);
          motherTongue := motherTongue o;
          disabledRules := disabledRules o;
          detectIncomplete := Some (match detectIncomplete o with
                                    | Some false => false
                                    | _ => true
                                    end) |};
     processedFragments := ∅ |}.

Definition default_options : Options :=
  {| language := None; motherTongue := None;
     disabledRules := None; detectIncomplete := None |}.

(** ** Character classes of the patterns *)

Definition cls (items : list cset) : regex := Class false items.
Definition ncls (items : list cset) : regex := Class true items.

Definition AZ : cset := CRange "A" "Z".
Definition az : cset := CRange "a" "z".
Definition d09 : cset := CRange "0" "9".

Definition sp : regex := cls [CSpace].                 (* \s *)
Definition sps : regex := plus sp.                     (* \s+ *)
Definition Cap : regex := cls [AZ].                    (* [A-Z] *)
Definition CapWord : regex := Seq Cap (plus (cls [az])).   (* [A-Z][a-z]+ *)
Definition notEnd : regex := ncls [COne "."; COne "!"; COne "?"].  (* [^.!?] *)

Definition prepositions : list string :=
  ["of"; "to"; "for"; "with"; "by"; "from"; "in"; "on"; "at"; "about"].

(** ** The noise predicates *)

(** The tail of a numbered heading, TAIL+ where TAIL is
    [\s+[A-Z][a-zA-Z0-9\s]*]. *)
Definition heading_tail : regex :=
  plus (seqs [sps; Cap; star (cls [az; AZ; d09; CSpace])]).

(** [/^([A-Z]|[0-9]+)\.(TAIL)+$/] *)
Definition re_numbered : regex :=
  seqs [Bol; Alt Cap (plus (cls [d09])); Lit "."; heading_tail; Eol].

(** [/^(I|II|III|IV|V|VI|VII|VIII|IX|X|XI|XII)\.(TAIL)+$/] *)
Definition re_roman : regex :=
  seqs [Bol;
        words ["I"; "II"; "III"; "IV"; "V"; "VI"; "VII"; "VIII"; "IX"; "X"; "XI"; "XII"];
        Lit "."; heading_tail; Eol].

(** [/^([A-Z][a-z0-9]*\s+){1,7}[A-Z][a-z0-9]*$/] *)
Definition re_title_case : regex :=
  seqs [Bol; fromTo 1 7 (seqs [Cap; star (cls [az; d09]); sps]);
        Cap; star (cls [az; d09]); Eol].

(** [/^([A-Z][a-z]+\s+){0,2}of(\s+[A-Z][a-z]+){1,3}$/] *)
Definition re_x_of_y : regex :=
  seqs [Bol; fromTo 0 2 (Seq CapWord sps); word "of";
        fromTo 1 3 (Seq sps CapWord); Eol].

(** [/^The\s+Right\s+to\s+[A-Z][a-zA-Z\s]*$/] *)
Definition re_the_right_to : regex :=
  seqs [Bol; word "The"; sps; word "Right"; sps; word "to"; sps;
        Cap; star (cls [az; AZ; CSpace]); Eol].

(** [/^How\s+(to|We)\s+[A-Z][a-zA-Z\s]*$/] *)
Definition re_how_to : regex :=
  seqs [Bol; word "How"; sps; words ["to"; "We"]; sps;
        Cap; star (cls [az; AZ; CSpace]); Eol].

Definition dquote : ascii := ascii_of_nat 34.

(** A document title followed by a quoted name in parentheses: a
    capitalised word, further capitalised words, a colon, anything, and at
    the end an opening parenthesis, a double quote, characters other than
    the closing parenthesis, a double quote and the closing parenthesis
    (each quote is a class that holds the double quote twice). *)
Definition re_doc_title : regex :=
  seqs [Bol; CapWord; star (Seq sps CapWord); Lit ":"; star Dot; Lit "(";
        cls [COne dquote; COne dquote]; plus (ncls [COne ")"]);
        cls [COne dquote; COne dquote]; Lit ")"; Eol].

Definition commonTitles : list string :=
  ["introduction"; "purpose"; "scope"; "definitions";
   "privacy policy"; "terms of service"; "disclaimer";
   "collection of information"; "use of information";
   "information sharing"; "data protection"; "security measures";
   "your rights"; "contact us"; "effective date"].

Definition isHeadingOrTitle (text : string) : bool :=
  let trimmedText := trim text in
  if is_empty trimmedText then false
  else if test no_flags re_numbered trimmedText then true
  else if test no_flags re_roman trimmedText then true
  else if test no_flags re_title_case trimmedText
          && (String.length trimmedText <? 60)
          && negb (includes trimmedText ",") then true
  else if test no_flags re_x_of_y trimmedText then true
  else if test no_flags re_the_right_to trimmedText then true
  else if test no_flags re_how_to trimmedText then true
  else if test no_flags re_doc_title trimmedText then true
  else existsb (fun title => string_eqb (toLowerCase trimmedText) title) commonTitles.

(** [/^[A-Z][A-Za-z\s]{3,}:$/] *)
Definition re_colon_heading : regex :=
  seqs [Bol; Cap; atLeast 3 (cls [AZ; az; CSpace]); Lit ":"; Eol].

(** [/^[A-Za-z\s]+(include|are|following|include but are not limited to):$/] *)
Definition re_list_intro : regex :=
  seqs [Bol; plus (cls [AZ; az; CSpace]);
        words ["include"; "are"; "following"; "include but are not limited to"];
        Lit ":"; Eol].

(** [/^(\d+\.|\*|\-|\U+2022)\s+[A-Za-z]/]; the last alternative is the
    bullet U+2022, which no Latin-1 subject contains. *)
Definition re_list_item : regex :=
  seqs [Bol;
        alts [Seq (plus (cls [CDigit])) (Lit "."); Lit "*"; Lit "-"; cls [CNone]];
        sps; cls [AZ; az]].

Definition anchored (ws : list string) : regex := seqs [Bol; words ws; Eol].

Definition uiPatterns : list regex :=
  [anchored ["Home"; "About"; "Contact"; "Login"; "Signup"; "Videos"; "Menu"];
   anchored ["Accept"; "Decline"; "Submit"; "Cancel"; "Next"; "Previous"];
   anchored ["Terms and Conditions"; "Privacy Policy"];
   anchored ["Skip to content"; "Log In"; "Sign Up"]].

(** [/cookie|consent|accept|decline|privacy/i] and
    [/website|experience|browse|uses/i] *)
Definition re_consent : regex :=
  words ["cookie"; "consent"; "accept"; "decline"; "privacy"].
Definition re_site_usage : regex :=
  words ["website"; "experience"; "browse"; "uses"].

(** [/^Version\s+Date:|^Last\s+Updated:|^Effective\s+Date:/i] *)
Definition re_metadata : regex :=
  alts [seqs [Bol; word "Version"; sps; word "Date:"];
        seqs [Bol; word "Last"; sps; word "Updated:"];
        seqs [Bol; word "Effective"; sps; word "Date:"]].

Definition shouldSkipText (text : string) : bool :=
  let trimmedText := trim text in
  if is_empty trimmedText then true
  else if isHeadingOrTitle trimmedText then true
  else if test no_flags re_colon_heading trimmedText then true
  else if test no_flags re_list_intro trimmedText then true
  else if test no_flags re_list_item trimmedText
          && negb (includes_from trimmedText "." 2) then true
  else if existsb (fun pattern => test flag_i pattern trimmedText) uiPatterns then true
  else if test flag_i re_consent trimmedText
          && test flag_i re_site_usage trimmedText then true
  else if test flag_i re_metadata trimmedText then true
  else false.

Definition headingWithPrepositionPatterns : list regex :=
  [ (* /^([A-Z][a-z]+\s+){0,2}(of|to|...|about)(\s+[A-Z][a-z]+){1,3}$/ *)
    seqs [Bol; fromTo 0 2 (Seq CapWord sps); words prepositions;
          fromTo 1 3 (Seq sps CapWord); Eol];
    (* /^The\s+[A-Z][a-z]+\s+(of|to|...|about)\s+[A-Z][a-z]+/ *)
    seqs [Bol; word "The"; sps; CapWord; sps; words prepositions; sps; CapWord];
    (* /^How\s+to\s+[A-Z][a-z]+/ *)
    seqs [Bol; word "How"; sps; word "to"; sps; CapWord] ].

Definition isPrepositionInHeading (text : string) : bool :=
  existsb (fun pattern => test no_flags pattern (trim text))
          headingWithPrepositionPatterns.

(** ** The content test *)

(** [/\b(the|a|...|I)\b.*\b(am|is|...|must)\b/i] *)
Definition re_subject_verb : regex :=
  seqs [WordB;
        words ["the"; "a"; "an"; "this"; "that"; "these"; "those"; "we"; "you";
               "they"; "he"; "she"; "it"; "I"];
        WordB; star Dot; WordB;
        words ["am"; "is"; "are"; "was"; "were"; "have"; "has"; "had"; "do";
               "does"; "did"; "will"; "shall"; "may"; "might"; "can"; "could";
               "would"; "should"; "must"];
        WordB].

Definition codeWords : list string :=
  ["width"; "height"; "margin"; "padding"; "color"; "font"; "grid"; "flex";
   "style"; "class"; "display"; "position"].

(** The class of [/[{}\[\]()=<>:;$&#%~`^\\|]/g]. *)
Definition specialClass : list cset :=
  map COne (chars "{}[]()=<>:;$&#%~`^\|").

(** [(text.match(/[...]/g) || []).length]: every match of a one-character
    class is one character of the text. *)
Definition count_special (text : string) : nat :=
  length (filter (fun c => class_mem specialClass c = true) (chars text)).

(** [/:[^.]?$/] *)
Definition re_colon_end : regex := seqs [Lit ":"; opt (ncls [COne "."]); Eol].

(** Minimum length, token counts and the density bound of the content test.
    The density [specialChars / text.length < 0.05] is compared exactly, as
    [specialChars * 20 < text.length]: for lengths below 2^53 the rounded
    quotient is below the double 0.05 exactly when the fraction is below
    one twentieth. *)
Definition MIN_LENGTH : nat := 15.
Definition MIN_WORDS : nat := 4.
Definition MIN_WORDS_PLAIN : nat := 7.

Definition density_below_5_percent (specialChars len : nat) : bool :=
  specialChars * 20 <? len.

Definition token_count (text : string) : nat :=
  length (filter (fun word => (0 <? String.length word) = true) (split_ws text)).

Definition hasSubjectVerb (text : string) : bool := test flag_i re_subject_verb text.

Definition hasCodeWords (text : string) : bool :=
  existsb (fun word => includes (toLowerCase text) word) codeWords.

Definition isContentSentence (text : string) : bool :=
  if String.length text <? MIN_LENGTH then false
  else if token_count text <? MIN_WORDS then false
  else if test no_flags re_colon_end (trim text) then false
  else hasSubjectVerb text
       || ((MIN_WORDS_PLAIN <=? token_count text)
           && negb (hasCodeWords text)
           && density_below_5_percent (count_special text) (String.length text)).

(** ** Loops over a global regular expression *)

(** [while ((match = regex.exec(text)) !== null)] for a regular expression
    with the [g] flag: the matches in order, each with its index and its
    text.  Every [exec] resumes at [lastIndex], the end of the last match;
    an empty match leaves [lastIndex] in place, so the loop never ends: that
    is [None].  With non-empty matches the fuel is never used up
    ([exec_loop_total]). *)
Fixpoint exec_loop (fl : flags) (r : regex) (fuel : nat) (bef ah : list ascii)
  : option (list (nat * string)) :=
  match fuel with
  | 0 => None
  | S fuel' =>
      match search_from fl r bef ah with
      | None => Some []
      | Some (p, q) =>
          if index q <=? index p then None
          else cons (index p, text_of (matched p q))
                 <$> exec_loop fl r fuel' (before q) (ahead q)
      end
  end.

Definition exec_all (fl : flags) (r : regex) (text : string)
  : option (list (nat * string)) :=
  exec_loop fl r (S (String.length text)) [] (chars text).

(** ** The detectors *)

(** The body of a [for] loop that may push errors and add to the set of
    processed fragments, run over a list of items in order. *)
Fixpoint for_each {X : Type}
    (body : X -> gset string -> list GrammarError * gset string)
    (items : list X) (seen : gset string) : list GrammarError * gset string :=
  match items with
  | [] => ([], seen)
  | x :: rest =>
      let '(pushed, seen1) := body x seen in
      let '(later, seen2) := for_each body rest seen1 in
      (pushed ++ later, seen2)
  end.

Definition MISSING_END_PUNCTUATION : string := "MISSING_END_PUNCTUATION".
Definition INCOMPLETE_TRANSITIVE_VERB : string := "INCOMPLETE_TRANSITIVE_VERB".
Definition HANGING_PREPOSITION : string := "HANGING_PREPOSITION".
Definition INCOMPLETE_BROWSER_INITIATED : string := "INCOMPLETE_BROWSER_INITIATED".

(** [/[.!?]$/] *)
Definition re_end_punctuation : regex :=
  Seq (cls [COne "."; COne "!"; COne "?"]) Eol.

Definition ends_with_punctuation (s : string) : bool :=
  test no_flags re_end_punctuation s.

Definition missing_punctuation_error (text sentenceText : string) : GrammarError :=
  {| message := "Sentence does not end with proper punctuation";
     context := trim sentenceText;
     suggestions :=
       ["Add appropriate ending punctuation (period, exclamation mark, or question mark)"];
     ruleId := MISSING_END_PUNCTUATION;
     position := {| position.offset := indexOf text sentenceText;
                    position.length := String.length sentenceText |} |}.

(** The body of the loop of [detectIncompleteWithCompromise]. *)
Definition check_sentence (text sentenceText : string) (seen : gset string)
  : list GrammarError * gset string :=
  if is_empty (trim sentenceText) || (String.length (trim sentenceText) <? 10)
  then ([], seen)
  else if decide (trim sentenceText ∈ seen) then ([], seen)
  else
    let seen := {[trim sentenceText]} ∪ seen in
    if shouldSkipText sentenceText then ([], seen)
    else if isHeadingOrTitle (trim sentenceText) then ([], seen)
    else if negb (ends_with_punctuation (trim sentenceText))
            && isContentSentence sentenceText
    then ([missing_punctuation_error text sentenceText], seen)
    else ([], seen).

Module pattern.
Record t : Type := {
  regex : regex;
  flags : flags;
  message : string;
  ruleId : string;
  suggestion : string
}.
End pattern.

(** [/\b(please note|it is important to note).*\b(do not|does not|will not|cannot)\b.*\b(recognize|respond|reply|acknowledge)\b[^.!?]*$/gim] *)
Definition re_transitive_verb : regex :=
  seqs [WordB; words ["please note"; "it is important to note"]; star Dot;
        WordB; words ["do not"; "does not"; "will not"; "cannot"]; WordB;
        star Dot; WordB; words ["recognize"; "respond"; "reply"; "acknowledge"];
        WordB; star notEnd; Eol].

(** [/\b[A-Z][^.!?]{10,}(to|for|with|by|from|in|on|at|about|upon)[^.!?]*$/gm] *)
Definition re_hanging_preposition : regex :=
  seqs [WordB; Cap; atLeast 10 notEnd;
        words ["to"; "for"; "with"; "by"; "from"; "in"; "on"; "at"; "about"; "upon"];
        star notEnd; Eol].

(** [/[^.!?]*\bbrowser-initiated\b[^.!?]*$/gm] *)
Definition re_browser_initiated : regex :=
  seqs [star notEnd; WordB; word "browser-initiated"; WordB; star notEnd; Eol].

Definition patterns : list pattern.t :=
  [ {| pattern.regex := re_transitive_verb;
       pattern.flags := flag_im;
       pattern.message := "Incomplete sentence missing object after transitive verb";
       pattern.ruleId := INCOMPLETE_TRANSITIVE_VERB;
       pattern.suggestion :=
         "Complete the sentence by specifying what is recognized or responded to" |};
    {| pattern.regex := re_hanging_preposition;
       pattern.flags := flag_m;
       pattern.message := "Sentence ends with a preposition";
       pattern.ruleId := HANGING_PREPOSITION;
       pattern.suggestion := "Complete the prepositional phrase with an object" |};
    {| pattern.regex := re_browser_initiated;
       pattern.flags := flag_m;
       pattern.message := "Incomplete sentence with " +:+ String dquote "browser-initiated"
                          +:+ String dquote EmptyString;
       pattern.ruleId := INCOMPLETE_BROWSER_INITIATED;
       pattern.suggestion :=
         "Complete the sentence with what happens with browser-initiated requests/actions" |} ].

(** The body of the [while] loop of [checkRegexPatterns], for one match
    [m] (its index and [match[0]]) of [pattern]. *)
Definition check_match (pat : pattern.t) (m : nat * string) (seen : gset string)
  : list GrammarError * gset string :=
  let context := trim (snd m) in
  if decide (context ∈ seen) then ([], seen)
  else
    let seen := {[context]} ∪ seen in
    if isHeadingOrTitle context then ([], seen)
    else if string_eqb (pattern.ruleId pat) HANGING_PREPOSITION
            && isPrepositionInHeading context then ([], seen)
    else ([ {| message := pattern.message pat;
               context := context;
               suggestions := [pattern.suggestion pat; "Add proper punctuation"];
               ruleId := pattern.ruleId pat;
               position := {| position.offset := Z.of_nat (fst m);
                              position.length := String.length (snd m) |} |} ],
          seen).

(** All matches of every pattern, or [None] when some [while] loop would
    never end. *)
Fixpoint all_matches (ps : list pattern.t) (text : string)
  : option (list (pattern.t * (nat * string))) :=
  match ps with
  | [] => Some []
  | pat :: rest =>
      ms ← exec_all (pattern.flags pat) (pattern.regex pat) text;
      later ← all_matches rest text;
      Some ((pair pat <$> ms) ++ later)
  end.

Definition with_processed (this : GrammarChecker) (seen : gset string) : GrammarChecker :=
  {| options := options this; processedFragments := seen |}.

Definition checkRegexPatterns (this : GrammarChecker) (text : string)
  : option (list GrammarError * GrammarChecker) :=
  ms ← all_matches patterns text;
  let '(errors, seen) :=
    for_each (fun pm => check_match (fst pm) (snd pm)) ms (processedFragments this) in
  Some (errors, with_processed this seen).

(** [!this.options.detectIncomplete] is true for false and for an absent
    property. *)
Definition detecting (o : Options) : bool :=
  match detectIncomplete o with Some true => true | _ => false end.

Section Pipeline.

(** [nlp(text).sentences().out('array')]: the sentence splitter of the
    compromise library. *)
Variable sentences : string -> list string.

Definition detectIncompleteWithCompromise (this : GrammarChecker) (text : string)
  : list GrammarError * GrammarChecker :=
  if negb (detecting (options this)) then ([], this)
  else
    let '(errors, seen) :=
      for_each (check_sentence text) (sentences text) (processedFragments this) in
    (errors, with_processed this seen).

Definition dedup_key (error : GrammarError) : string :=
  trim (context error) +:+ "|" +:+ ruleId error.

Fixpoint dedup_loop (errors : list GrammarError) (seenContexts : gset string)
  : list GrammarError :=
  match errors with
  | [] => []
  | error :: rest =>
      let key := dedup_key error in
      if decide (key ∈ seenContexts) then dedup_loop rest seenContexts
      else error :: dedup_loop rest ({[key]} ∪ seenContexts)
  end.

Definition deduplicateErrors (errors : list GrammarError) : list GrammarError :=
  dedup_loop errors ∅.

(** [checkPage] on the text that [extractText] returned for the page: the
    result and the checker afterwards, or [None] when the run never ends. *)
Definition checkPage (this : GrammarChecker) (url text : string)
  : option (CheckResult * GrammarChecker) :=
  let '(nlpErrors, this1) := detectIncompleteWithCompromise this text in
  '(regexErrors, this2) ← checkRegexPatterns this1 text;
  let errors := nlpErrors ++ regexErrors in
  let uniqueErrors := deduplicateErrors errors in
  Some ({| url := url;
           totalErrors := length uniqueErrors;
           errors := uniqueErrors;
           rawText := text |}, this2).

End Pipeline.

(** ** The sentence splitter of the specification *)

Definition is_terminator (c : ascii) : bool :=
  class_mem [COne "."; COne "!"; COne "?"] c.

Definition is_lf (c : ascii) : bool := Char.code c =? 10.

(** [text.split(/\n\n+/)]: the pieces between runs of two or more line
    feeds. *)
Fixpoint split_blank_lines (l : list ascii) (piece : list ascii) (in_gap : bool)
  : list string :=
  match l with
  | [] => [text_of (rev piece)]
  | c :: l' =>
      if in_gap && is_lf c then split_blank_lines l' piece true
      else if is_lf c && (if l' is c' :: _ then is_lf c' else false)
      then text_of (rev piece) :: split_blank_lines l' [] true
      else split_blank_lines l' (c :: piece) false
  end.

Definition paragraphs_of (text : string) : list string :=
  split_blank_lines (chars text) [] false.

(** The spans of a paragraph that end with a terminator, then the residue
    that has none. *)
Fixpoint spans (l : list ascii) (piece : list ascii) : list string :=
  match l with
  | [] => if piece is [] then [] else [text_of (rev piece)]
  | c :: l' =>
      if is_terminator c then text_of (rev (c :: piece)) :: spans l' []
      else spans l' (c :: piece)
  end.

(** Modelled from the spec: the sentence splitter is the external
    compromise library, so the runs below use the Segmenter of section 4.1
    in its place.  The text is split on blank lines into paragraphs, the
    paragraphs that are empty after trimming are discarded, and each
    paragraph gives its spans terminated by a full stop, an exclamation mark
    or a question mark, plus the trailing residue without terminator as a
    unit of its own. *)
Definition segmenter (text : string) : list string :=
  flat_map (fun paragraph => spans (chars paragraph) [])
    (filter (fun paragraph => is_empty (trim paragraph) = false) (paragraphs_of text)).

Definition nl : string := String (ascii_of_nat 10) EmptyString.
Definition scenario1 : string :=
  "Contact Us" +:+ nl +:+ nl +:+ "We appreciate your business. Please visit our site to".
Definition scenario3 : string :=
  "1. Introduction" +:+ nl +:+ nl +:+ "This policy explains how we collect data".

(** * [analyzeText] of [sentenceAnalyzer.ts] *)

Definition POSSIBLE_INCOMPLETE_SENTENCE : string := "POSSIBLE_INCOMPLETE_SENTENCE".

(** [/[a-zA-Z]{5,}/] *)
Definition re_five_letters : regex := atLeast 5 (cls [az; AZ]).

(** [/\b(do not|does not|cannot|will not)\b.*\b(recognize|respond|reply|acknowledge)\b/i] *)
Definition re_negated_verb : regex :=
  seqs [WordB; words ["do not"; "does not"; "cannot"; "will not"]; WordB; star Dot;
        WordB; words ["recognize"; "respond"; "reply"; "acknowledge"]; WordB].

(** [/\b(initiated|completed|started|begun|processed|respond|recognize)\s*$/i] *)
Definition re_dangling_verb : regex :=
  seqs [WordB;
        words ["initiated"; "completed"; "started"; "begun"; "processed"; "respond";
               "recognize"];
        star sp; Eol].

(** [/^(please|kindly)\s+note\b/i] *)
Definition re_please_note : regex :=
  seqs [Bol; words ["please"; "kindly"]; sps; word "note"; WordB].

(** [/\b(to|for|with|by|from|in|on|at|about|upon)\s*$/i] *)
Definition re_trailing_preposition : regex :=
  seqs [WordB;
        words ["to"; "for"; "with"; "by"; "from"; "in"; "on"; "at"; "about"; "upon"];
        star sp; Eol].

Definition choose_suggestion (trimmedSentence : string) : string :=
  if test flag_i re_negated_verb trimmedSentence
  then "Complete the sentence by specifying what is recognized or responded to"
  else if test flag_i re_dangling_verb trimmedSentence
  then "Complete the sentence by adding an object"
  else if test flag_i re_please_note trimmedSentence
  then "Complete the sentence after noting important information"
  else if test flag_i re_trailing_preposition trimmedSentence
  then "Add the object of the preposition"
  else "Complete the sentence with a main clause".

Section SentenceAnalyzer.

(** The members of the class that [analyzeText] calls and that are not in
    the repository's sources: five predicates on a text, two tables of
    patterns (each entry stands for the [test] of one pattern) and the
    splitter of a paragraph. *)
Variables isCookieConsent looksLikeCodeOrCSS looksLikeNavigation
          isLikelyUIElement isLikelySentence : string -> bool.
Variables ignorePatterns incompletePatterns : list (string -> bool).
Variable extractSentences : string -> list string.

Definition some_pattern (ps : list (string -> bool)) (s : string) : bool :=
  existsb (fun pattern => pattern s) ps.

(** [for (const fragment of reportedFragments)] with the test of a
    sentence: does the sentence contain a reported fragment, or a reported
    fragment the sentence? *)
Definition overlaps_reported (reportedFragments : gset string) (trimmedSentence : string)
  : bool :=
  existsb (fun fragment => includes trimmedSentence fragment
                           || includes fragment trimmedSentence)
          (elements reportedFragments).

Definition contains_reported (reportedFragments : gset string) (paragraph : string)
  : bool :=
  existsb (fun fragment => includes paragraph fragment) (elements reportedFragments).

Definition analyzer_error (paragraph trimmedSentence : string)
    (msg rule : string) (sugg : list string) : GrammarError :=
  {| message := msg;
     context := trimmedSentence;
     suggestions := sugg;
     ruleId := rule;
     position := {| position.offset := indexOf paragraph trimmedSentence;
                    position.length := String.length trimmedSentence |} |}.

(** The body of the loop over the sentences of a paragraph. *)
Definition analyze_sentence (paragraph sentence : string) (reportedFragments : gset string)
  : list GrammarError * gset string :=
  let trimmedSentence := trim sentence in
  if is_empty trimmedSentence || (String.length trimmedSentence <? 10)
  then ([], reportedFragments)
  else if isCookieConsent trimmedSentence then ([], reportedFragments)
  else if some_pattern ignorePatterns trimmedSentence then ([], reportedFragments)
  else if looksLikeCodeOrCSS trimmedSentence then ([], reportedFragments)
  else if looksLikeNavigation trimmedSentence then ([], reportedFragments)
  else if isLikelyUIElement trimmedSentence then ([], reportedFragments)
  else if overlaps_reported reportedFragments trimmedSentence then ([], reportedFragments)
  else if negb (ends_with_punctuation trimmedSentence)
          && test no_flags re_five_letters trimmedSentence
  then
    if isLikelySentence trimmedSentence
    then ([analyzer_error paragraph trimmedSentence
             "Sentence does not end with proper punctuation" MISSING_END_PUNCTUATION
             ["Add appropriate ending punctuation (period, exclamation mark, or question mark)"]],
          {[trimmedSentence]} ∪ reportedFragments)
    else ([], reportedFragments)
  else if some_pattern incompletePatterns trimmedSentence
  then
    if isLikelySentence trimmedSentence
    then ([analyzer_error paragraph trimmedSentence
             "Possible incomplete sentence or sentence fragment" POSSIBLE_INCOMPLETE_SENTENCE
             [choose_suggestion trimmedSentence; "Add proper punctuation"]],
          {[trimmedSentence]} ∪ reportedFragments)
    else ([], reportedFragments)
  else ([], reportedFragments).

(** The body of the loop over the paragraphs. *)
Definition analyze_paragraph (paragraph : string) (reportedFragments : gset string)
  : list GrammarError * gset string :=
  if is_empty (trim paragraph) then ([], reportedFragments)
  else if isCookieConsent paragraph then ([], reportedFragments)
  else if some_pattern ignorePatterns (trim paragraph) then ([], reportedFragments)
  else if looksLikeCodeOrCSS paragraph then ([], reportedFragments)
  else if looksLikeNavigation paragraph then ([], reportedFragments)
  else if contains_reported reportedFragments paragraph then ([], reportedFragments)
  else for_each (analyze_sentence paragraph) (extractSentences paragraph) reportedFragments.

Definition analyzeText (text : string) : list GrammarError :=
  (for_each analyze_paragraph (paragraphs_of text) ∅).1.

End SentenceAnalyzer.

(** * The command line: [cli.ts] and the entry of [index.ts] *)

(** [CheckerOptions] of [index.ts]; an absent property is [None]. *)
Module checker_options.
Record t : Type := {
  url : option string;
  language : option string;
  motherTongue : option string;
  disabledRules : option (list string);
  outputFormat : option string;
  outputPath : option string;
  includeRawText : option bool;
  headless : option bool;
  detectIncomplete : option bool
}.
End checker_options.

(** [CliArgs] of [cli.ts]. *)
Module cli_args.
Record t : Type := {
  url : option string;
  language : option string;
  outputFormat : option string;
  outputPath : option string;
  includeRawText : option bool;
  headless : option bool;
  detectIncomplete : option bool
}.
End cli_args.

(** A [CliArgs] object passed where [CheckerOptions] is expected. *)
Definition as_checker_options (o : cli_args.t) : checker_options.t :=
  {| checker_options.url := cli_args.url o;
     checker_options.language := cli_args.language o;
     checker_options.motherTongue := None;
     checker_options.disabledRules := None;
     checker_options.outputFormat := cli_args.outputFormat o;
     checker_options.outputPath := cli_args.outputPath o;
     checker_options.includeRawText := cli_args.includeRawText o;
     checker_options.headless := cli_args.headless o;
     checker_options.detectIncomplete := cli_args.detectIncomplete o |}.

Definition is_one_of (arg long short : string) : bool :=
  string_eqb arg long || string_eqb arg short.

(** Assignments to the properties of a [CliArgs] object. *)
Definition cli_set_language (o : cli_args.t) (v : option string) : cli_args.t :=
  {| cli_args.url := cli_args.url o;
     cli_args.language := v;
     cli_args.outputFormat := cli_args.outputFormat o;
     cli_args.outputPath := cli_args.outputPath o;
     cli_args.includeRawText := cli_args.includeRawText o;
     cli_args.headless := cli_args.headless o;
     cli_args.detectIncomplete := cli_args.detectIncomplete o |}.

Definition cli_set_outputFormat (o : cli_args.t) (v : option string) : cli_args.t :=
  {| cli_args.url := cli_args.url o;
     cli_args.language := cli_args.language o;
     cli_args.outputFormat := v;
     cli_args.outputPath := cli_args.outputPath o;
     cli_args.includeRawText := cli_args.includeRawText o;
     cli_args.headless := cli_args.headless o;
     cli_args.detectIncomplete := cli_args.detectIncomplete o |}.

Definition cli_set_outputPath (o : cli_args.t) (v : option string) : cli_args.t :=
  {| cli_args.url := cli_args.url o;
     cli_args.language := cli_args.language o;
     cli_args.outputFormat := cli_args.outputFormat o;
     cli_args.outputPath := v;
     cli_args.includeRawText := cli_args.includeRawText o;
     cli_args.headless := cli_args.headless o;
     cli_args.detectIncomplete := cli_args.detectIncomplete o |}.

Definition cli_set_includeRawText (o : cli_args.t) (v : bool) : cli_args.t :=
  {| cli_args.url := cli_args.url o;
     cli_args.language := cli_args.language o;
     cli_args.outputFormat := cli_args.outputFormat o;
     cli_args.outputPath := cli_args.outputPath o;
     cli_args.includeRawText := Some v;
     cli_args.headless := cli_args.headless o;
     cli_args.detectIncomplete := cli_args.detectIncomplete o |}.

Definition cli_set_headless (o : cli_args.t) (v : bool) : cli_args.t :=
  {| cli_args.url := cli_args.url o;
     cli_args.language := cli_args.language o;
     cli_args.outputFormat := cli_args.outputFormat o;
     cli_args.outputPath := cli_args.outputPath o;
     cli_args.includeRawText := cli_args.includeRawText o;
     cli_args.headless := Some v;
     cli_args.detectIncomplete := cli_args.detectIncomplete o |}.

Definition cli_set_detectIncomplete (o : cli_args.t) (v : bool) : cli_args.t :=
  {| cli_args.url := cli_args.url o;
     cli_args.language := cli_args.language o;
     cli_args.outputFormat := cli_args.outputFormat o;
     cli_args.outputPath := cli_args.outputPath o;
     cli_args.includeRawText := cli_args.includeRawText o;
     cli_args.headless := cli_args.headless o;
     cli_args.detectIncomplete := Some v |}.

(** What [parseArgs] of [cli.ts] ends with: the options, or [process.exit(0)]
    after [showHelp()]. *)
Inductive parsed : Type :=
| Parsed (options : cli_args.t)
| HelpShown.

(** The loop of [parseArgs] from index [i]: [args] are the arguments from
    [args[i]] on.  [args[++i]] takes the next argument, [undefined] when
    there is none, and the loop goes on after it. *)
Fixpoint parseArgs_loop (args : list string) (options : cli_args.t) : parsed :=
  match args with
  | [] => Parsed options
  | arg :: rest =>
      if is_one_of arg "--language" "-l" then
        match rest with
        | [] => Parsed (cli_set_language options None)
        | next :: after => parseArgs_loop after (cli_set_language options (Some next))
        end
      else if is_one_of arg "--output-format" "-f" then
        match rest with
        | [] => Parsed (cli_set_outputFormat options None)
        | next :: after => parseArgs_loop after (cli_set_outputFormat options (Some next))
        end
      else if is_one_of arg "--output-path" "-o" then
        match rest with
        | [] => Parsed (cli_set_outputPath options None)
        | next :: after => parseArgs_loop after (cli_set_outputPath options (Some next))
        end
      else if is_one_of arg "--include-raw-text" "-r" then
        parseArgs_loop rest (cli_set_includeRawText options true)
      else if string_eqb arg "--no-headless" then
        parseArgs_loop rest (cli_set_headless options false)
      else if string_eqb arg "--no-incomplete" then
        parseArgs_loop rest (cli_set_detectIncomplete options false)
      else if is_one_of arg "--help" "-h" then HelpShown
      else parseArgs_loop rest options
  end.

(** [parseArgs] on [process.argv.slice(2)]: the first argument is the URL,
    the loop starts at the second. *)
Definition parseArgs (args : list string) : parsed :=
  parseArgs_loop (tail args)
    {| cli_args.url := head args;
       cli_args.language := None;
       cli_args.outputFormat := None;
       cli_args.outputPath := None;
       cli_args.includeRawText := None;
       cli_args.headless := None;
       cli_args.detectIncomplete := None |}.

(** Assignments to the properties of the [CheckerOptions] object that the
    entry of [index.ts] fills. *)
Definition set_language (o : checker_options.t) (v : option string) : checker_options.t :=
  {| checker_options.url := checker_options.url o;
     checker_options.language := v;
     checker_options.motherTongue := checker_options.motherTongue o;
     checker_options.disabledRules := checker_options.disabledRules o;
     checker_options.outputFormat := checker_options.outputFormat o;
     checker_options.outputPath := checker_options.outputPath o;
     checker_options.includeRawText := checker_options.includeRawText o;
     checker_options.headless := checker_options.headless o;
     checker_options.detectIncomplete := checker_options.detectIncomplete o |}.

Definition set_outputFormat (o : checker_options.t) (v : option string) : checker_options.t :=
  {| checker_options.url := checker_options.url o;
     checker_options.language := checker_options.language o;
     checker_options.motherTongue := checker_options.motherTongue o;
     checker_options.disabledRules := checker_options.disabledRules o;
     checker_options.outputFormat := v;
     checker_options.outputPath := checker_options.outputPath o;
     checker_options.includeRawText := checker_options.includeRawText o;
     checker_options.headless := checker_options.headless o;
     checker_options.detectIncomplete := checker_options.detectIncomplete o |}.

Definition set_outputPath (o : checker_options.t) (v : option string) : checker_options.t :=
  {| checker_options.url := checker_options.url o;
     checker_options.language := checker_options.language o;
     checker_options.motherTongue := checker_options.motherTongue o;
     checker_options.disabledRules := checker_options.disabledRules o;
     checker_options.outputFormat := checker_options.outputFormat o;
     checker_options.outputPath := v;
     checker_options.includeRawText := checker_options.includeRawText o;
     checker_options.headless := checker_options.headless o;
     checker_options.detectIncomplete := checker_options.detectIncomplete o |}.

Definition set_includeRawText (o : checker_options.t) (v : bool) : checker_options.t :=
  {| checker_options.url := checker_options.url o;
     checker_options.language := checker_options.language o;
     checker_options.motherTongue := checker_options.motherTongue o;
     checker_options.disabledRules := checker_options.disabledRules o;
     checker_options.outputFormat := checker_options.outputFormat o;
     checker_options.outputPath := checker_options.outputPath o;
     checker_options.includeRawText := Some v;
     checker_options.headless := checker_options.headless o;
     checker_options.detectIncomplete := checker_options.detectIncomplete o |}.

Definition set_headless (o : checker_options.t) (v : bool) : checker_options.t :=
  {| checker_options.url := checker_options.url o;
     checker_options.language := checker_options.language o;
     checker_options.motherTongue := checker_options.motherTongue o;
     checker_options.disabledRules := checker_options.disabledRules o;
     checker_options.outputFormat := checker_options.outputFormat o;
     checker_options.outputPath := checker_options.outputPath o;
     checker_options.includeRawText := checker_options.includeRawText o;
     checker_options.headless := Some v;
     checker_options.detectIncomplete := checker_options.detectIncomplete o |}.

Definition set_detectIncomplete (o : checker_options.t) (v : bool) : checker_options.t :=
  {| checker_options.url := checker_options.url o;
     checker_options.language := checker_options.language o;
     checker_options.motherTongue := checker_options.motherTongue o;
     checker_options.disabledRules := checker_options.disabledRules o;
     checker_options.outputFormat := checker_options.outputFormat o;
     checker_options.outputPath := checker_options.outputPath o;
     checker_options.includeRawText := checker_options.includeRawText o;
     checker_options.headless := checker_options.headless o;
     checker_options.detectIncomplete := Some v |}.

(** The loop at the end of [index.ts], over the arguments after the URL;
    it knows no help flag. *)
Fixpoint index_loop (args : list string) (options : checker_options.t)
  : checker_options.t :=
  match args with
  | [] => options
  | arg :: rest =>
      if is_one_of arg "--language" "-l" then
        match rest with
        | [] => set_language options None
        | next :: after => index_loop after (set_language options (Some next))
        end
      else if is_one_of arg "--output-format" "-f" then
        match rest with
        | [] => set_outputFormat options None
        | next :: after => index_loop after (set_outputFormat options (Some next))
        end
      else if is_one_of arg "--output-path" "-o" then
        match rest with
        | [] => set_outputPath options None
        | next :: after => index_loop after (set_outputPath options (Some next))
        end
      else if is_one_of arg "--include-raw-text" "-r" then
        index_loop rest (set_includeRawText options true)
      else if string_eqb arg "--no-headless" then
        index_loop rest (set_headless options false)
      else if string_eqb arg "--no-incomplete" then
        index_loop rest (set_detectIncomplete options false)
      else index_loop rest options
  end.

(** [!s] for a string that may be [undefined]: true for [undefined] and for
    the empty string. *)
Definition falsy (s : option string) : bool :=
  match s with
  | None => true
  | Some s => is_empty s
  end.

(** What an entry point does with its arguments: [process.exit] with a
    code, or the call of [checkWebsiteGrammar] with the options. *)
Inductive outcome : Type :=
| Exit (code : nat)
| Check (options : checker_options.t).

(** [main] of [cli.ts], up to the call of [checkWebsiteGrammar]. *)
Definition cli_main (args : list string) : outcome :=
  match parseArgs args with
  | HelpShown => Exit 0
  | Parsed options =>
      if falsy (cli_args.url options) then Exit 1
      else if negb (falsy (cli_args.outputFormat options))
              && negb (if cli_args.outputFormat options is Some f
                       then string_eqb f "console" else false)
              && falsy (cli_args.outputPath options)
      then Exit 1
      else Check (as_checker_options options)
  end.

(** The entry of [index.ts] ([require.main === module]), up to the call of
    [checkWebsiteGrammar]. *)
Definition index_main (args : list string) : outcome :=
  if falsy (head args) then Exit 1
  else Check (index_loop (tail args)
                {| checker_options.url := head args;
                   checker_options.language := None;
                   checker_options.motherTongue := None;
                   checker_options.disabledRules := None;
                   checker_options.outputFormat := None;
                   checker_options.outputPath := None;
                   checker_options.includeRawText := None;
                   checker_options.headless := None;
                   checker_options.detectIncomplete := None |}).

(** The options that [checkWebsiteGrammar] hands to the constructor of
    [GrammarChecker]: the defaults of its destructuring stand in for the
    properties that are [undefined]. *)
Definition constructor_options (o : checker_options.t) : Options :=
  {| language := Some (default "en-US" (checker_options.language o));
     motherTongue := checker_options.motherTongue o;
     disabledRules := Some (default [] (checker_options.disabledRules o));
     detectIncomplete := Some (default true (checker_options.detectIncomplete o)) |}.

(** The checker that [checkWebsiteGrammar] builds. *)
Definition checker_of (o : checker_options.t) : GrammarChecker :=
  new_GrammarChecker (constructor_options o).

(** What [outputResults] of [index.ts] does with a result: the function its
    switch calls and, for the three file formats, whether that function
    passes its guard on the path and goes on to write.  The text that is
    written is not part of the model. *)
Inductive output : Type :=
| ToConsole (includeRawText : bool)
| ToFile (format outputPath : string) (includeRawText : bool)
| PathRequired (format : string).

(** The guard shared by [outputJsonResults], [outputHtmlResults] and
    [outputMarkdownResults]. *)
Definition to_file (format : string) (outputPath : option string)
    (includeRawText : bool) : output :=
  match outputPath with
  | Some path =>
      if is_empty path then PathRequired format
      else ToFile format path includeRawText
  | None => PathRequired format
  end.

Definition outputResults (format : string) (outputPath : option string)
    (includeRawText : bool) : output :=
  if string_eqb format "json" then to_file "json" outputPath includeRawText
  else if string_eqb format "html" then to_file "html" outputPath includeRawText
  else if string_eqb format "markdown" then to_file "markdown" outputPath includeRawText
  else ToConsole includeRawText.

(** The call of [outputResults] in [checkWebsiteGrammar], with the defaults
    of the destructuring. *)
Definition output_of (o : checker_options.t) : output :=
  outputResults (default "console" (checker_options.outputFormat o))
    (checker_options.outputPath o)
    (default false (checker_options.includeRawText o)).

(** * The vocabulary of the statements *)

(** ** What the matcher accepts *)

(** [matches fl r p q]: the pattern [r] can consume the subject from [p] to
    [q].  The matcher only ever hands such positions to its continuation
    ([run_sound]); preferences among them play no role here. *)
Inductive matches (fl : flags) : regex -> pos -> pos -> Prop :=
| m_eps p : matches fl Eps p p
| m_atom r c bef rest :
    atom fl r c = true ->
    matches fl r {| before := bef; ahead := c :: rest |}
                 {| before := c :: bef; ahead := rest |}
| m_seq a b p q s : matches fl a p q -> matches fl b q s -> matches fl (Seq a b) p s
| m_alt_l a b p q : matches fl a p q -> matches fl (Alt a b) p q
| m_alt_r a b p q : matches fl b p q -> matches fl (Alt a b) p q
| m_rep_stop lo hi a p :
    lo = 0 \/ hi = Some 0 -> matches fl (Rep lo hi a) p p
| m_rep_more lo hi a p q s :
    hi <> Some 0 ->
    matches fl a p q ->
    matches fl (Rep (pred lo) (pred <$> hi) a) q s ->
    matches fl (Rep lo hi a) p s
| m_bol p : at_bol fl p = true -> matches fl Bol p p
| m_eol p : at_eol fl p = true -> matches fl Eol p p
| m_wordb p : at_wordb p = true -> matches fl WordB p p.

(** A matcher is local when it hands to its continuation only positions
    that lie no further back than the one it started from. *)
Definition local {A} (body : (pos -> option A) -> pos -> option A) : Prop :=
  forall k k' p,
    (forall p', length (ahead p') <= length (ahead p) -> k p' = k' p') ->
    body k p = body k' p.

(** [span p q w]: [q] is [p] moved over the characters [w]. *)
Definition span (p q : pos) (w : list ascii) : Prop :=
  before q = rev w ++ before p /\ ahead p = w ++ ahead q.

Definition all_codes : list ascii := map ascii_of_nat (seq 0 256).

(** [needs fl P r]: every text consumed by [r] has a character in [P]. *)
Fixpoint needs (fl : flags) (P : ascii -> bool) (r : regex) : bool :=
  match r with
  | Eps | Bol | Eol | WordB => false
  | Lit _ | Dot | Class _ _ =>
      forallb (fun c => implb (atom fl r c) (P c)) all_codes
  | Seq a b => needs fl P a || needs fl P b
  | Alt a b => needs fl P a && needs fl P b
  | Rep lo hi a =>
      (0 <? lo) && (if hi is Some 0 then false else true) && needs fl P a
  end.

(** Two sets of characters for [needs]: any character, and the characters
    that are no white space. *)
Definition any_char (c : ascii) : bool := true.
Definition not_space (c : ascii) : bool := negb (Char.is_space c).

(** ** Loops guarded by the set of processed fragments *)

(** Both detector loops have this shape: a candidate whose key (its trimmed
    text) is in the set is skipped; otherwise the key is added and the
    candidate reports what [out] says, whatever the set holds. *)
Definition guarded {X : Type} (key : X -> string) (out : X -> list GrammarError)
    (x : X) (seen : gset string) : list GrammarError * gset string :=
  if decide (key x ∈ seen) then ([], seen) else (out x, {[key x]} ∪ seen).

(** ** The candidates of a run *)

(** A sentence is looked at only when its trimmed text has ten characters
    or more. *)
Definition too_short (sentenceText : string) : bool :=
  is_empty (trim sentenceText) || (String.length (trim sentenceText) <? 10).

(** What a sentence that passed the fragment set reports. *)
Definition sentence_out (text sentenceText : string) : list GrammarError :=
  if shouldSkipText sentenceText then []
  else if isHeadingOrTitle (trim sentenceText) then []
  else if negb (ends_with_punctuation (trim sentenceText))
          && isContentSentence sentenceText
  then [missing_punctuation_error text sentenceText]
  else [].

(** What a match that passed the fragment set reports. *)
Definition match_out (pat : pattern.t) (m : nat * string) : list GrammarError :=
  let context := trim (snd m) in
  if isHeadingOrTitle context then []
  else if string_eqb (pattern.ruleId pat) HANGING_PREPOSITION
          && isPrepositionInHeading context then []
  else [ {| message := pattern.message pat;
            context := context;
            suggestions := [pattern.suggestion pat; "Add proper punctuation"];
            ruleId := pattern.ruleId pat;
            position := {| position.offset := Z.of_nat (fst m);
                           position.length := String.length (snd m) |} |} ].

Inductive candidate : Type :=
| FromSentence (text sentenceText : string)
| FromMatch (pm : pattern.t * (nat * string)).

Definition fragment (c : candidate) : string :=
  match c with
  | FromSentence _ sentenceText => trim sentenceText
  | FromMatch pm => trim (snd (snd pm))
  end.

Definition report (c : candidate) : list GrammarError :=
  match c with
  | FromSentence text sentenceText => sentence_out text sentenceText
  | FromMatch pm => match_out (fst pm) (snd pm)
  end.

Definition known_rules : list string :=
  [MISSING_END_PUNCTUATION; INCOMPLETE_TRANSITIVE_VERB; HANGING_PREPOSITION;
   INCOMPLETE_BROWSER_INITIATED].

(** A candidate of the sentence pass, or a match of one of the three
    patterns. *)
Definition of_run (c : candidate) : Prop :=
  match c with
  | FromSentence _ _ => True
  | FromMatch pm => fst pm ∈ patterns
  end.

(** The candidates of one run, in the order in which the run meets them:
    the sentences of ten characters or more when the sentence pass is on,
    then the matches of the three patterns. *)
Definition sentence_candidates (sentences : string -> list string)
    (this : GrammarChecker) (text : string) : list candidate :=
  if detecting (options this)
  then FromSentence text <$> filter (fun s => too_short s = false) (sentences text)
  else [].

Definition candidates (sentences : string -> list string)
    (this : GrammarChecker) (text : string) (ms : list (pattern.t * (nat * string)))
  : list candidate :=
  sentence_candidates sentences this text ++ (FromMatch <$> ms).

(** ** The final pass: [deduplicateErrors] *)

(** The pair behind the key of [deduplicateErrors]. *)
Definition key_pair (error : GrammarError) : string * string :=
  (trim (context error), ruleId error).

Definition bar : ascii := "|".

Definition bar_free (s : string) : Prop := bar ∉ chars s.

Definition pattern_rules : list string :=
  [INCOMPLETE_TRANSITIVE_VERB; HANGING_PREPOSITION; INCOMPLETE_BROWSER_INITIATED].

(** The trimmed sentences that the sentence pass puts into the fragment
    set. *)
Definition sentence_fragments (sentences : string -> list string) (text : string)
  : gset string :=
  list_to_set (trim <$> filter (fun s => too_short s = false) (sentences text)).

(** ** The two end-anchored tests, in words *)

(** The last character is none of the full stop, the exclamation mark and
    the question mark (an empty text has none). *)
Definition lacks_terminal_punctuation (s : string) : bool :=
  match rev (chars s) with
  | c :: _ => negb (is_terminator c)
  | [] => true
  end.

(** The text ends in a colon, or in a colon followed by one character
    other than the full stop. *)
Definition colon_at_end (s : string) : bool :=
  match rev (chars s) with
  | c :: rest =>
      Char.eqb c ":"
      || (negb (Char.eqb c ".") && (if rest is b :: _ then Char.eqb b ":" else false))
  | [] => false
  end.

Definition colon_tail (a2 : list ascii) : bool :=
  match a2 with
  | [c0] => Char.eqb c0 ":"
  | [c0; c1] => Char.eqb c0 ":" && negb (Char.eqb c1 ".")
  | _ => false
  end.

(** ** The completeness branch, unit by unit *)

(** A unit reaches the punctuation test when it is not too short, has not
    been processed, and is rejected by none of the noise filters. *)
Definition survives (seen : gset string) (unit : string) : Prop :=
  too_short unit = false /\ (trim unit ∉ seen) /\
  shouldSkipText unit = false /\ isHeadingOrTitle (trim unit) = false.

(** The content test in words: at least 15 characters, at least 4 tokens,
    no colon at the end (alone or followed by one character other than the
    full stop), and either the subject/auxiliary pattern or at least 7
    tokens, no code word and a density of special characters below 5%. *)
Definition content_test (unit : string) : bool :=
  (15 <=? String.length unit) && (4 <=? token_count unit)
  && negb (colon_at_end (trim unit))
  && (hasSubjectVerb unit
      || ((7 <=? token_count unit)
          && density_below_5_percent (count_special unit) (String.length unit)
          && negb (hasCodeWords unit))).

(** The same test with the colon condition as the claim words it: the
    unit does not end in a colon. *)
Definition ends_in_colon (s : string) : bool :=
  match rev (chars s) with
  | c :: _ => Char.eqb c ":"
  | [] => false
  end.

Definition content_test_as_stated (unit : string) : bool :=
  (15 <=? String.length unit) && (4 <=? token_count unit)
  && negb (ends_in_colon (trim unit))
  && (hasSubjectVerb unit
      || ((7 <=? token_count unit)
          && density_below_5_percent (count_special unit) (String.length unit)
          && negb (hasCodeWords unit))).

(** ** The containment law of [analyzeText] *)

(** Neither text contains the other. *)
Definition apart (a b : string) : Prop :=
  includes a b = false /\ includes b a = false.

(** A loop body that adds to the set exactly the contexts it reports, and
    reports only what is apart from everything in the set. *)
Definition tracks {X : Type}
    (body : X -> gset string -> list GrammarError * gset string) : Prop :=
  forall x reported,
    (body x reported).2 = list_to_set (context <$> (body x reported).1) ∪ reported /\
    (forall e f, e ∈ (body x reported).1 -> f ∈ reported -> apart (context e) f) /\
    ForallOrdPairs (fun a b => apart (context a) (context b)) (body x reported).1.

(** ** Options and texts of the examples *)

Definition with_disabledRules (o : Options) (rules : option (list string)) : Options :=
  {| language := language o; motherTongue := motherTongue o;
     disabledRules := rules; detectIncomplete := detectIncomplete o |}.

Definition with_detectIncomplete (o : Options) (flag : bool) : Options :=
  {| language := language o; motherTongue := motherTongue o;
     disabledRules := disabledRules o; detectIncomplete := Some flag |}.

Definition policy_sentence : string := "This policy explains how we collect data".
Definition hanging_sentence : string := "Please visit our site to".

Definition smiley_sentence : string := "We are so happy to see you here :)".

Definition blank_text : string := " " +:+ nl +:+ nl +:+ "  ".

(** Two paragraphs, the second a part of the first. *)
Definition longer_fragment : string := "We collect data about you and your friends".
Definition shorter_fragment : string := "We collect data about you".

(** [only fl P r]: every character consumed by [r] is in [P]. *)
Fixpoint only (fl : flags) (P : ascii -> bool) (r : regex) : bool :=
  match r with
  | Eps | Bol | Eol | WordB => true
  | Lit _ | Dot | Class _ _ =>
      forallb (fun c => implb (atom fl r c) (P c)) all_codes
  | Seq a b => only fl P a && only fl P b
  | Alt a b => only fl P a && only fl P b
  | Rep _ _ a => only fl P a
  end.

Definition not_terminator (c : ascii) : bool := negb (is_terminator c).

(** [text.substr(offset, length)] *)
Definition substr (text : string) (offset len : nat) : string :=
  text_of (take len (drop offset (chars text))).

(** [located T fl r im]: the pair [im] of an index and a text is a match of
    [r] in the subject [T], found at that index. *)
Definition located (T : list ascii) (fl : flags) (r : regex) (im : nat * string) : Prop :=
  exists p q,
    matches fl r p q /\ rev (before p) ++ ahead p = T /\
    fst im = index p /\ snd im = text_of (matched p q).

(** The error that [checkRegexPatterns] pushes for a match. *)
Definition pattern_error (pat : pattern.t) (m : nat * string) : GrammarError :=
  {| message := pattern.message pat;
     context := trim (snd m);
     suggestions := [pattern.suggestion pat; "Add proper punctuation"];
     ruleId := pattern.ruleId pat;
     position := {| position.offset := Z.of_nat (fst m);
                    position.length := String.length (snd m) |} |}.

Definition shouted_title : string := "  Privacy POLICY ".

(** What holds of every error that [analyzeText] returns, for given
    predicates and patterns of the class. *)
Definition passed_every_gate
    (isCookieConsent looksLikeCodeOrCSS looksLikeNavigation
     isLikelyUIElement isLikelySentence : string -> bool)
    (ignorePatterns incompletePatterns : list (string -> bool))
    (e : GrammarError) : Prop :=
  trim (context e) = context e /\
  10 <= String.length (context e) /\
  isCookieConsent (context e) = false /\
  some_pattern ignorePatterns (context e) = false /\
  looksLikeCodeOrCSS (context e) = false /\
  looksLikeNavigation (context e) = false /\
  isLikelyUIElement (context e) = false /\
  isLikelySentence (context e) = true /\
  ((ruleId e = MISSING_END_PUNCTUATION /\
    lacks_terminal_punctuation (context e) = true /\
    length (suggestions e) = 1)
   \/ (ruleId e = POSSIBLE_INCOMPLETE_SENTENCE /\
       some_pattern incompletePatterns (context e) = true /\
       suggestions e = [choose_suggestion (context e); "Add proper punctuation"])).

(** [v] is the argument after an occurrence of the option [long] or
    [short] in [args]. *)
Definition follows (long short v : string) (args : list string) : Prop :=
  exists i arg,
    args !! i = Some arg /\ is_one_of arg long short = true /\ args !! S i = Some v.

Definition has_flag (long short : string) (args : list string) : Prop :=
  exists arg, arg ∈ args /\ is_one_of arg long short = true.

(** How the options after the loop of [parseArgs] over [args] relate to the
    options before it. *)
Definition parsed_from (args : list string) (before after : cli_args.t) : Prop :=
  cli_args.url after = cli_args.url before /\
  (forall v, cli_args.language after = Some v ->
     cli_args.language before = Some v \/ follows "--language" "-l" v args) /\
  (forall v, cli_args.outputFormat after = Some v ->
     cli_args.outputFormat before = Some v \/ follows "--output-format" "-f" v args) /\
  (forall v, cli_args.outputPath after = Some v ->
     cli_args.outputPath before = Some v \/ follows "--output-path" "-o" v args) /\
  (cli_args.includeRawText after = cli_args.includeRawText before \/
   cli_args.includeRawText after = Some true /\ has_flag "--include-raw-text" "-r" args) /\
  (cli_args.headless after = cli_args.headless before \/
   cli_args.headless after = Some false /\ "--no-headless" ∈ args) /\
  (cli_args.detectIncomplete after = cli_args.detectIncomplete before \/
   cli_args.detectIncomplete after = Some false /\ "--no-incomplete" ∈ args).

(** Command lines for the examples. *)
Definition plain_args : list string :=
  ["https://example.com"; "-l"; "de-DE"; "--no-headless"].

Definition report_args : list string :=
  ["https://example.com"; "-f"; "html"; "-o"; "report.html"; "--no-incomplete"].

(** * Properties *)

(** ** The examples in the comments of the source *)

Example headings_of_the_source :
  forallb isHeadingOrTitle
    ["1. Introduction"; "A. Information We Collect"; "I. Introduction";
     "IV. Terms of Service"; "Collection of Personal Information";
     "The Right to Deletion"; "How to Exercise Access and Deletion Rights";
     "Contact Us"; "  privacy policy  "] = true.
Proof. by vm_compute. Qed.

Example sentences_are_no_headings :
  existsb isHeadingOrTitle
    ["We appreciate your business."; "Please visit our site to";
     "This policy explains how we collect data"] = false.
Proof. by vm_compute. Qed.

Example heading_with_preposition :
  forallb isPrepositionInHeading
    ["Collection of Personal Information"; "The Right to Deletion";
     "How to Exercise Access"] = true.
Proof. by vm_compute. Qed.

(** Scenario 2 of the specification: a complete sentence gives no error. *)
Example scenario2 :
  fst <$> checkPage segmenter (new_GrammarChecker default_options) "page"
            "This is a complete sentence."
  = Some {| url := "page"; totalErrors := 0; errors := [];
            rawText := "This is a complete sentence." |}.
Proof. by vm_compute. Qed.

(** ** The fuel of the matcher is never used up *)

Lemma repeat_local {A} (body : (pos -> option A) -> pos -> option A) :
  local body ->
  forall fuel lo hi, local (fun k p => repeat body k fuel lo hi p).
Proof.
  intros Hbody. induction fuel as [|fuel IH]; intros lo hi k k' p Hk; simpl; [done|].
  rewrite (Hk p) by done.
  rewrite (Hbody _ (fun p' =>
             if (lo =? 0) && (length (ahead p) <=? length (ahead p'))
             then None
             else repeat body k' fuel (pred lo) (pred <$> hi) p') p); [done|].
  intros p' Hp'. destruct (_ && _); [done|].
  apply IH. intros p'' Hp''. apply Hk. lia.
Qed.

Lemma run_local {A} fl r : local (run (A := A) fl r).
Proof.
  induction r as [| c | | neg items | a IHa b IHb | a IHa b IHb | lo hi a IHa | | |];
    intros k k' p Hk; simpl.
  - by apply Hk.
  - destruct p as [bef [|c' rest]]; simpl; [done|].
    destruct (class_has _ _ _); [|done]. apply Hk. simpl. lia.
  - destruct p as [bef [|c' rest]]; simpl; [done|].
    destruct (negb _); [|done]. apply Hk. simpl. lia.
  - destruct p as [bef [|c' rest]]; simpl; [done|].
    destruct (xorb _ _); [|done]. apply Hk. simpl. lia.
  - apply IHa. intros p' Hp'. apply IHb. intros p'' Hp''. apply Hk. lia.
  - rewrite (IHa k k' p Hk), (IHb k k' p Hk). done.
  - exact (repeat_local (run fl a) IHa (S (lo + length (ahead p))) lo hi k k' p Hk).
  - rewrite (Hk p) by done. done.
  - rewrite (Hk p) by done. done.
  - rewrite (Hk p) by done. done.
Qed.

(** With the fuel that [run] gives, or more, [repeat] never reaches its
    last branch: any two such amounts give the same result. *)
Lemma repeat_fuel_enough {A} (body : (pos -> option A) -> pos -> option A) k :
  local body ->
  forall fuel1 fuel2 lo hi p,
    lo + length (ahead p) < fuel1 -> lo + length (ahead p) < fuel2 ->
    repeat body k fuel1 lo hi p = repeat body k fuel2 lo hi p.
Proof.
  intros Hbody. induction fuel1 as [|fuel1 IH]; intros fuel2 lo hi p H1 H2; [lia|].
  destruct fuel2 as [|fuel2]; [lia|]. simpl.
  rewrite (Hbody _ (fun p' =>
             if (lo =? 0) && (length (ahead p) <=? length (ahead p'))
             then None
             else repeat body k fuel2 (pred lo) (pred <$> hi) p') p); [done|].
  intros p' Hp'.
  destruct (lo =? 0) eqn:Hlo; simpl.
  - destruct (length (ahead p) <=? length (ahead p')) eqn:Hle; [done|].
    apply Nat.leb_gt in Hle. apply Nat.eqb_eq in Hlo. subst lo. apply IH; simpl; lia.
  - apply Nat.eqb_neq in Hlo. apply IH; lia.
Qed.

(** ** The matcher *)

Lemma repeat_sound {A} fl a (body : (pos -> option A) -> pos -> option A) k :
  (forall k' p x, body k' p = Some x ->
     exists q, matches fl a p q /\ k' q = Some x) ->
  forall fuel lo hi p x,
    repeat body k fuel lo hi p = Some x ->
    exists q, matches fl (Rep lo hi a) p q /\ k q = Some x.
Proof.
  intros Hbody. induction fuel as [|fuel IH]; intros lo hi p x H; [done|].
  simpl in H.
  destruct (decide (hi = Some 0)) as [->|Hhi].
  { exists p. split; [apply m_rep_stop; by right | done]. }
  assert (match body (fun p' =>
              if (lo =? 0) && (length (ahead p) <=? length (ahead p'))
              then None
              else repeat body k fuel (pred lo) (pred <$> hi) p') p with
          | Some x => Some x
          | None => if lo is 0 then k p else None
          end = Some x) as H'.
  { destruct hi as [[|h]|]; done. }
  clear H. destruct (body _ p) eqn:E.
  - inversion H'; subst. apply Hbody in E as (q & Hq & E).
    destruct (_ && _) in E; [done|]. apply IH in E as (s & Hs & E).
    exists s. split; [|done]. by eapply m_rep_more.
  - destruct lo; [|done]. exists p. split; [apply m_rep_stop; by left | done].
Qed.

Lemma run_sound {A} fl r : forall (k : pos -> option A) p x,
  run fl r k p = Some x -> exists q, matches fl r p q /\ k q = Some x.
Proof.
  induction r as [| c | | neg items | a IHa b IHb | a IHa b IHb | lo hi a IHa | | |];
    intros k p x H; simpl in H.
  - eauto using matches.
  - destruct p as [bef [|c' rest]]; simpl in H; [done|].
    destruct (class_has fl [COne c] c') eqn:E; [|done].
    eexists; split; [|exact H]. by apply m_atom.
  - destruct p as [bef [|c' rest]]; simpl in H; [done|].
    destruct (negb (Char.is_newline c')) eqn:E; [|done].
    eexists; split; [|exact H]. by apply m_atom.
  - destruct p as [bef [|c' rest]]; simpl in H; [done|].
    destruct (xorb neg (class_has fl items c')) eqn:E; [|done].
    eexists; split; [|exact H]. by apply m_atom.
  - apply IHa in H as (q & Hq & H). apply IHb in H as (s & Hs & H).
    eauto using matches.
  - destruct (run fl a k p) eqn:E.
    + inversion H; subst. apply IHa in E as (q & ? & ?). eauto using matches.
    + apply IHb in H as (q & ? & ?). eauto using matches.
  - exact (repeat_sound fl a (run fl a) k IHa (S (lo + length (ahead p))) lo hi p x H).
  - destruct (at_bol fl p) eqn:E; [|done]. eauto using matches.
  - destruct (at_eol fl p) eqn:E; [|done]. eauto using matches.
  - destruct (at_wordb p) eqn:E; [|done]. eauto using matches.
Qed.

Lemma in_all_codes c : In c all_codes.
Proof.
  unfold all_codes. rewrite <- (ascii_nat_embedding c).
  apply in_map, in_seq. pose proof (nat_ascii_bounded c). lia.
Qed.

Lemma atom_needs fl P r c :
  needs fl P r = true -> atom fl r c = true -> P c = true.
Proof.
  intros Hn Ha.
  assert (forallb (fun c => implb (atom fl r c) (P c)) all_codes = true) as Hall.
  { destruct r; simpl in Ha; try discriminate; exact Hn. }
  rewrite forallb_forall in Hall. specialize (Hall c (in_all_codes c)).
  rewrite Ha in Hall. exact Hall.
Qed.

(** A match consumes a stretch of the subject, and that stretch holds
    every kind of character the pattern cannot do without. *)
Lemma matches_span fl P r p q :
  matches fl r p q ->
  exists w, span p q w /\
            (needs fl P r = true -> Exists (fun c => P c = true) w).
Proof.
  induction 1 as [p | r c bef rest Ha | a b p q s _ [w1 [[B1 A1] N1]] _ [w2 [[B2 A2] N2]]
                 | a b p q _ [w [S N]] | a b p q _ [w [S N]]
                 | lo hi a p Hstop
                 | lo hi a p q s Hhi _ [w1 [[B1 A1] N1]] _ [w2 [[B2 A2] _]]
                 | p | p | p].
  - exists []. split; [by split | done].
  - exists [c]. split; [by split|]. intros Hn. constructor. by eapply atom_needs.
  - exists (w1 ++ w2). split.
    + split; [by rewrite B2, B1, rev_app_distr, <- app_assoc
             | by rewrite A1, A2, <- app_assoc].
    + simpl. intros [Hn|Hn]%orb_true_iff; apply Exists_app; auto.
  - exists w. split; [done|]. simpl. intros [Hn _]%andb_true_iff. auto.
  - exists w. split; [done|]. simpl. intros [_ Hn]%andb_true_iff. auto.
  - exists []. split; [by split|]. simpl.
    destruct Hstop as [-> | ->]; [done|]. by rewrite andb_false_r.
  - exists (w1 ++ w2). split.
    + split; [by rewrite B2, B1, rev_app_distr, <- app_assoc
             | by rewrite A1, A2, <- app_assoc].
    + simpl. intros [_ Hn]%andb_true_iff. apply Exists_app. auto.
  - exists []. split; [by split | done].
  - exists []. split; [by split | done].
  - exists []. split; [by split | done].
Qed.

(** [search_from] only moves forward, and what it returns is a match. *)
Lemma search_from_sound fl r : forall ah bef p q,
  search_from fl r bef ah = Some (p, q) ->
  matches fl r p q /\
  exists skipped, before p = rev skipped ++ bef /\ ah = skipped ++ ahead p.
Proof.
  induction ah as [|c rest IH]; intros bef p q H; simpl in H.
  - destruct (run fl r Some _) eqn:E; [|done]. inversion H; subst.
    apply run_sound in E as (q' & Hm & [= ->]).
    split; [done|]. by exists [].
  - destruct (run fl r Some _) eqn:E.
    + inversion H; subst. apply run_sound in E as (q' & Hm & [= ->]).
      split; [done|]. by exists [].
    + apply IH in H as [Hm (sk & Hb & Ha)]. split; [done|].
      exists (c :: sk). simpl. rewrite Hb, Ha, <- app_assoc. done.
Qed.

(** ** Strings *)

Lemma chars_text_of l : chars (text_of l) = l.
Proof. apply list_ascii_of_string_of_list_ascii. Qed.

Lemma text_of_chars s : text_of (chars s) = s.
Proof. apply string_of_list_ascii_of_string. Qed.

Lemma trim_start_split l :
  exists gap, l = gap ++ trim_start l /\ Forall (fun c => Char.is_space c = true) gap.
Proof.
  induction l as [|c l (gap & E & F)]; simpl.
  - by exists [].
  - destruct (Char.is_space c) eqn:Hc.
    + exists (c :: gap). split; [by rewrite E at 1 | by constructor].
    + by exists [].
Qed.

Lemma trim_start_fixed l :
  (if l is c :: _ then Char.is_space c = false else True) -> trim_start l = l.
Proof. destruct l as [|c l]; simpl; [done|]. by intros ->. Qed.

Lemma trim_start_head l :
  if trim_start l is c :: _ then Char.is_space c = false else True.
Proof.
  induction l as [|c l IH]; simpl; [done|].
  destruct (Char.is_space c) eqn:Hc; [done|]. simpl. done.
Qed.

Lemma trim_chars_idemp l : trim_chars (trim_chars l) = trim_chars l.
Proof.
  unfold trim_chars.
  destruct (trim_start_split (rev (trim_start l))) as (gap & E & _).
  set (u := trim_start (rev (trim_start l))) in *.
  assert (trim_start (rev u) = rev u) as ->.
  { apply trim_start_fixed.
    assert (trim_start l = rev u ++ rev gap) as E'.
    { by rewrite <- (rev_involutive (trim_start l)), E, rev_app_distr. }
    pose proof (trim_start_head l) as Hh. rewrite E' in Hh.
    destruct (rev u); [done|]. exact Hh. }
  rewrite rev_involutive. f_equal. apply trim_start_fixed, trim_start_head.
Qed.

Lemma trim_idemp s : trim (trim s) = trim s.
Proof. unfold trim. by rewrite chars_text_of, trim_chars_idemp. Qed.

Lemma isHeadingOrTitle_trim s : isHeadingOrTitle (trim s) = isHeadingOrTitle s.
Proof. unfold isHeadingOrTitle. by rewrite trim_idemp. Qed.

(** A text that trims to the empty string holds white space only. *)
Lemma blank_all_space s :
  trim s = EmptyString -> Forall (fun c => Char.is_space c = true) (chars s).
Proof.
  unfold trim. intros H.
  assert (trim_chars (chars s) = []) as H'.
  { by rewrite <- (chars_text_of (trim_chars _)), H. }
  unfold trim_chars in H'.
  destruct (trim_start_split (chars s)) as (g1 & E1 & F1).
  destruct (trim_start_split (rev (trim_start (chars s)))) as (g2 & E2 & F2).
  apply (f_equal (@rev ascii)) in H'. rewrite rev_involutive in H'. simpl in H'.
  rewrite H', app_nil_r in E2.
  rewrite E1. apply Forall_app. split; [done|].
  rewrite <- (rev_involutive (trim_start (chars s))), E2.
  by apply Forall_rev.
Qed.

Lemma search_from_progress fl r bef ah p q :
  needs fl any_char r = true ->
  search_from fl r bef ah = Some (p, q) ->
  index p < index q /\ length (ahead q) < length ah.
Proof.
  intros Hn [Hm (sk & Hb & Ha)]%search_from_sound.
  destruct (matches_span fl any_char r p q Hm) as (w & [Bq Ap] & Hw).
  specialize (Hw Hn). destruct w as [|c w]; [by apply Exists_nil in Hw|].
  unfold index. rewrite Bq, Ha, Ap, !length_app, length_rev. simpl. lia.
Qed.

Lemma exec_loop_total fl r :
  needs fl any_char r = true ->
  forall fuel bef ah, length ah < fuel -> is_Some (exec_loop fl r fuel bef ah).
Proof.
  intros Hn. induction fuel as [|fuel IH]; intros bef ah Hlt; [lia|].
  simpl. destruct (search_from fl r bef ah) as [[p q]|] eqn:E; [|done].
  destruct (search_from_progress fl r bef ah p q Hn E) as [Hi Hl].
  destruct (index q <=? index p) eqn:Hle; [apply Nat.leb_le in Hle; lia|].
  destruct (IH (before q) (ahead q)) as [ms ->]; [lia|]. done.
Qed.

Lemma exec_all_total fl r text :
  needs fl any_char r = true -> is_Some (exec_all fl r text).
Proof.
  intros Hn. apply exec_loop_total; [done|].
  unfold chars. rewrite <- (string_of_list_ascii_of_string text) at 2.
  generalize (list_ascii_of_string text) as l.
  induction l as [|c l IH]; simpl; lia.
Qed.

Lemma patterns_consume :
  Forall (fun pat => needs (pattern.flags pat) any_char (pattern.regex pat) = true)
         patterns.
Proof. repeat constructor. Qed.

Lemma all_matches_total ps text :
  Forall (fun pat => needs (pattern.flags pat) any_char (pattern.regex pat) = true) ps ->
  is_Some (all_matches ps text).
Proof.
  induction 1 as [|pat ps Hn _ [later IH]]; simpl; [done|].
  destruct (exec_all_total _ _ text Hn) as [ms ->]. simpl. rewrite IH. done.
Qed.

(** ** No pattern matches inside white space *)

Lemma search_from_blank fl r bef ah :
  needs fl not_space r = true ->
  Forall (fun c => Char.is_space c = true) ah ->
  search_from fl r bef ah = None.
Proof.
  intros Hn Hsp. destruct (search_from fl r bef ah) as [[p q]|] eqn:E; [|done].
  apply search_from_sound in E as [Hm (sk & _ & Ha)].
  destruct (matches_span fl not_space r p q Hm) as (w & [_ Ap] & Hw).
  specialize (Hw Hn). rewrite Ha, Ap in Hsp.
  apply Forall_app in Hsp as [_ [Hsp _]%Forall_app].
  apply Exists_exists in Hw as (c & Hc & Hns).
  rewrite Forall_forall in Hsp. apply Hsp in Hc.
  unfold not_space in Hns. by rewrite Hc in Hns.
Qed.

Lemma patterns_need_text :
  Forall (fun pat => needs (pattern.flags pat) not_space (pattern.regex pat) = true)
         patterns.
Proof. repeat constructor. Qed.

Lemma all_matches_blank ps text :
  Forall (fun pat => needs (pattern.flags pat) not_space (pattern.regex pat) = true) ps ->
  trim text = EmptyString ->
  all_matches ps text = Some [].
Proof.
  intros Hps Hblank. apply blank_all_space in Hblank.
  induction Hps as [|pat ps Hn _ IH]; simpl; [done|].
  unfold exec_all. simpl. rewrite search_from_blank by done. simpl.
  by rewrite IH.
Qed.

(** ** Loops guarded by the set of processed fragments *)

Lemma filter_everything {A} (P : A -> Prop) `{!forall x, Decision (P x)} (l : list A) :
  (forall x, x ∈ l -> P x) -> filter P l = l.
Proof.
  induction l as [|a l IH]; intros HP; [done|].
  rewrite filter_cons_True by (apply HP; left).
  f_equal. apply IH. intros x Hx. apply HP. by right.
Qed.

Lemma filter_nothing {A} (P : A -> Prop) `{!forall x, Decision (P x)} (l : list A) :
  (forall x, x ∈ l -> ~ P x) -> filter P l = [].
Proof.
  induction l as [|a l IH]; intros HP; [done|].
  rewrite filter_cons_False by (apply HP; left).
  apply IH. intros x Hx. apply HP. by right.
Qed.

Section Guarded.
Context {X : Type} (key : X -> string) (out : X -> list GrammarError).
Hypothesis out_context : forall x e, e ∈ out x -> context e = key x.
Hypothesis out_single : forall x, length (out x) <= 1.

Lemma guarded_seen xs : forall seen,
  (for_each (guarded key out) xs seen).2 = list_to_set (key <$> xs) ∪ seen.
Proof using Type.
clear out_context out_single.
  induction xs as [|x xs IH]; intros seen; simpl; [set_solver|].
  unfold guarded at 1. case_decide.
  - specialize (IH seen). destruct (for_each _ xs seen). simpl in *.
    subst. set_solver.
  - specialize (IH ({[key x]} ∪ seen)). destruct (for_each _ xs _). simpl in *.
    subst. set_solver.
Qed.

Lemma guarded_all_seen xs seen :
  Forall (fun x => key x ∈ seen) xs ->
  for_each (guarded key out) xs seen = ([], seen).
Proof using Type.
clear out_context out_single.
  induction 1 as [|x xs Hx _ IH]; simpl; [done|].
  unfold guarded at 1. rewrite decide_True by done. by rewrite IH.
Qed.

Lemma guarded_filter xs : forall S T : gset string,
  (for_each (guarded key out) xs (S ∪ T)).1
  = filter (fun e => context e ∉ S) (for_each (guarded key out) xs T).1.
Proof using out_context.
clear out_single.
  induction xs as [|x xs IH]; intros S T; simpl; [done|].
  unfold guarded at 1 3.
  destruct (decide (key x ∈ T)) as [HT|HT].
  - rewrite decide_True by set_solver.
    specialize (IH S T).
    destruct (for_each _ xs (S ∪ T)), (for_each _ xs T). done.
  - destruct (decide (key x ∈ S)) as [HS|HS].
    + rewrite decide_True by set_solver.
      specialize (IH S ({[key x]} ∪ T)).
      replace (S ∪ ({[key x]} ∪ T)) with (S ∪ T) in IH by set_solver.
      destruct (for_each _ xs (S ∪ T)), (for_each _ xs ({[key x]} ∪ T)).
      simpl in *. rewrite filter_app, filter_nothing, IH; [done|].
      intros e He. rewrite (out_context x e He). tauto.
    + rewrite decide_False by set_solver.
      specialize (IH S ({[key x]} ∪ T)).
      replace (S ∪ ({[key x]} ∪ T)) with ({[key x]} ∪ (S ∪ T)) in IH by set_solver.
      destruct (for_each _ xs ({[key x]} ∪ (S ∪ T))), (for_each _ xs ({[key x]} ∪ T)).
      simpl in *. rewrite filter_app, filter_everything, IH; [done|].
      intros e He. by rewrite (out_context x e He).
Qed.

Lemma guarded_reported xs : forall seen e,
  e ∈ (for_each (guarded key out) xs seen).1 ->
  (context e ∉ seen) /\ exists x, x ∈ xs /\ e ∈ out x.
Proof using out_context.
clear out_single.
  induction xs as [|x xs IH]; intros seen e; simpl; [by intros ?%elem_of_nil|].
  unfold guarded at 1. case_decide as Hk.
  - specialize (IH seen e). destruct (for_each _ xs seen). simpl in *.
    intros [Hs (y & Hy & He)]%IH. split; [done|]. exists y. split; [by right|done].
  - specialize (IH ({[key x]} ∪ seen) e). destruct (for_each _ xs _). simpl in *.
    intros [He|He]%elem_of_app.
    + split; [by rewrite (out_context x e He)|]. exists x. split; [by left|done].
    + apply IH in He as [Hs (y & Hy & He)]. split; [set_solver|].
      exists y. split; [by right|done].
Qed.

Lemma guarded_NoDup xs : forall seen,
  NoDup (context <$> (for_each (guarded key out) xs seen).1).
Proof using out_context out_single.
  induction xs as [|x xs IH]; intros seen; simpl; [constructor|].
  unfold guarded at 1. case_decide as Hk.
  - specialize (IH seen). by destruct (for_each _ xs seen).
  - pose proof (guarded_reported xs ({[key x]} ∪ seen)) as Hrep.
    specialize (IH ({[key x]} ∪ seen)). destruct (for_each _ xs _) as [later s2].
    simpl in *. rewrite fmap_app. apply NoDup_app. split; [|split; [|done]].
    + specialize (out_single x). destruct (out x) as [|e [|e' l]]; simpl in *;
        [constructor | apply NoDup_singleton | lia].
    + intros c (e & -> & He)%list_elem_of_fmap (e' & Hc & He')%list_elem_of_fmap.
      apply Hrep in He' as [Hs _]. rewrite <- Hc, (out_context x e He) in Hs.
      set_solver.
Qed.
End Guarded.

(** ** The detector loops are guarded loops *)

Lemma for_each_ext {X} (f g : X -> gset string -> list GrammarError * gset string) xs :
  (forall x seen, f x seen = g x seen) ->
  forall seen, for_each f xs seen = for_each g xs seen.
Proof.
  intros Hfg. induction xs as [|x xs IH]; intros seen; simpl; [done|].
  rewrite Hfg. destruct (g x seen) as [pushed seen1]. by rewrite IH.
Qed.

Lemma for_each_app {X} (f : X -> gset string -> list GrammarError * gset string) xs ys :
  forall seen,
    for_each f (xs ++ ys) seen
    = let '(first, seen1) := for_each f xs seen in
      let '(second, seen2) := for_each f ys seen1 in
      (first ++ second, seen2).
Proof.
  induction xs as [|x xs IH]; intros seen; simpl.
  - by destruct (for_each f ys seen).
  - destruct (f x seen) as [pushed seen1]. rewrite IH.
    destruct (for_each f xs seen1) as [first seen2].
    destruct (for_each f ys seen2) as [second seen3].
    by rewrite app_assoc.
Qed.

Lemma for_each_fmap {X Y} (h : X -> Y)
    (f : Y -> gset string -> list GrammarError * gset string) xs :
  forall seen, for_each f (h <$> xs) seen = for_each (fun x => f (h x)) xs seen.
Proof.
  induction xs as [|x xs IH]; intros seen; simpl; [done|].
  destruct (f (h x) seen) as [pushed seen1]. by rewrite IH.
Qed.

Lemma check_sentence_guarded text sentenceText seen :
  check_sentence text sentenceText seen
  = if too_short sentenceText then ([], seen)
    else guarded fragment report (FromSentence text sentenceText) seen.
Proof.
  unfold check_sentence, too_short, guarded. simpl.
  destruct (_ || _); [done|]. case_decide; [done|].
  unfold sentence_out.
  destruct (shouldSkipText _); [done|]. destruct (isHeadingOrTitle _); [done|].
  by destruct (_ && _).
Qed.

Lemma check_match_guarded pm seen :
  check_match (fst pm) (snd pm) seen = guarded fragment report (FromMatch pm) seen.
Proof.
  unfold check_match, guarded. simpl. case_decide; [done|].
  unfold match_out.
  destruct (isHeadingOrTitle _); [done|]. by destruct (_ && _).
Qed.

Lemma sentences_guarded text ss : forall seen,
  for_each (check_sentence text) ss seen
  = for_each (guarded fragment report)
      (FromSentence text <$> filter (fun s => too_short s = false) ss) seen.
Proof.
  induction ss as [|s ss IH]; intros seen; simpl; [done|].
  rewrite check_sentence_guarded, filter_cons.
  destruct (decide (too_short s = false)) as [Hs|Hs].
  - rewrite Hs. simpl.
    destruct (guarded _ _ _ seen) as [pushed seen1]. by rewrite IH.
  - apply not_false_is_true in Hs. rewrite Hs, IH.
    by destruct (for_each _ _ seen).
Qed.

Lemma matches_guarded ms seen :
  for_each (fun pm => check_match (fst pm) (snd pm)) ms seen
  = for_each (guarded fragment report) (FromMatch <$> ms) seen.
Proof.
  rewrite for_each_fmap. apply for_each_ext. intros pm s. apply check_match_guarded.
Qed.

Lemma report_context c e : e ∈ report c -> context e = fragment c.
Proof.
  destruct c as [text s|[pat m]]; simpl.
  - unfold sentence_out. repeat case_match; try by intros ?%elem_of_nil.
    by intros ->%list_elem_of_singleton.
  - unfold match_out. repeat case_match; try by intros ?%elem_of_nil.
    by intros ->%list_elem_of_singleton.
Qed.

Lemma report_single c : length (report c) <= 1.
Proof.
  destruct c as [text s|[pat m]]; simpl.
  - unfold sentence_out. repeat case_match; simpl; lia.
  - unfold match_out. repeat case_match; simpl; lia.
Qed.

Lemma report_no_heading c e : e ∈ report c -> isHeadingOrTitle (context e) = false.
Proof.
  destruct c as [text s|[pat m]]; simpl.
  - unfold sentence_out. repeat case_match; try by intros ?%elem_of_nil.
    by intros ->%list_elem_of_singleton.
  - unfold match_out. repeat case_match; try by intros ?%elem_of_nil.
    by intros ->%list_elem_of_singleton.
Qed.

Lemma report_rule c e : of_run c -> e ∈ report c -> ruleId e ∈ known_rules.
Proof.
  destruct c as [text s|[pat m]]; simpl.
  - intros _. unfold sentence_out. repeat case_match; try by intros ?%elem_of_nil.
    intros ->%list_elem_of_singleton. simpl. set_solver.
  - intros Hpat. unfold match_out. repeat case_match; try by intros ?%elem_of_nil.
    intros ->%list_elem_of_singleton. simpl.
    unfold patterns in Hpat.
    repeat (apply elem_of_cons in Hpat as [-> | Hpat]; [simpl; unfold known_rules; set_solver|]).
    by apply elem_of_nil in Hpat.
Qed.

Lemma all_matches_from ps text : forall ms,
  all_matches ps text = Some ms -> forall pm, pm ∈ ms -> fst pm ∈ ps.
Proof.
  induction ps as [|pat ps IH]; intros ms H pm Hpm; simpl in H.
  - inversion H; subst. by apply elem_of_nil in Hpm.
  - destruct (exec_all _ _ text) as [found|]; [|done]. simpl in H.
    destruct (all_matches ps text) as [later|]; [|done]. simpl in H.
    inversion H; subst. apply elem_of_app in Hpm as [Hpm|Hpm].
    + apply list_elem_of_fmap in Hpm as (m & -> & _). by left.
    + right. by eapply IH.
Qed.

Arguments all_matches : simpl never.

Lemma candidates_of_run sentences this text ms :
  all_matches patterns text = Some ms ->
  Forall of_run (candidates sentences this text ms).
Proof.
  intros Hms. apply Forall_app. split.
  - unfold sentence_candidates. destruct (detecting _); [|constructor].
    apply Forall_fmap, Forall_forall. done.
  - apply Forall_fmap, Forall_forall. intros pm Hpm. simpl.
    by eapply all_matches_from.
Qed.

(** One run, as two guarded loops over its candidates. *)
Lemma pipeline_run sentences this text :
  exists ms nlpErrors this1 regexErrors this2,
    all_matches patterns text = Some ms /\
    detectIncompleteWithCompromise sentences this text = (nlpErrors, this1) /\
    checkRegexPatterns this1 text = Some (regexErrors, this2) /\
    for_each (guarded fragment report) (sentence_candidates sentences this text)
      (processedFragments this) = (nlpErrors, processedFragments this1) /\
    for_each (guarded fragment report) (FromMatch <$> ms)
      (processedFragments this1) = (regexErrors, processedFragments this2) /\
    options this1 = options this /\ options this2 = options this /\
    forall url,
      checkPage sentences this url text
      = Some ({| url := url;
                 totalErrors := length (deduplicateErrors (nlpErrors ++ regexErrors));
                 errors := deduplicateErrors (nlpErrors ++ regexErrors);
                 rawText := text |}, this2).
Proof.
  destruct (all_matches_total patterns text patterns_consume) as [ms Hms].
  exists ms.
  unfold checkPage, checkRegexPatterns, detectIncompleteWithCompromise, sentence_candidates.
  rewrite Hms. simpl.
  destruct (detecting (options this)) eqn:Hd; simpl.
  - rewrite sentences_guarded.
    destruct (for_each _ (FromSentence text <$> _) _) as [nlpErrors seen1] eqn:E1.
    simpl. rewrite matches_guarded.
    destruct (for_each _ (FromMatch <$> ms) seen1) as [regexErrors seen2] eqn:E2.
    exists nlpErrors, (with_processed this seen1), regexErrors,
      (with_processed (with_processed this seen1) seen2).
    simpl. rewrite matches_guarded, E2. done.
  - rewrite matches_guarded.
    destruct (for_each _ (FromMatch <$> ms) _) as [regexErrors seen2] eqn:E2.
    exists [], this, regexErrors, (with_processed this seen2).
    simpl. rewrite matches_guarded, E2. destruct this. done.
Qed.

Lemma pipeline_combined sentences this text ms nlpErrors this1 regexErrors this2 :
  for_each (guarded fragment report) (sentence_candidates sentences this text)
    (processedFragments this) = (nlpErrors, processedFragments this1) ->
  for_each (guarded fragment report) (FromMatch <$> ms)
    (processedFragments this1) = (regexErrors, processedFragments this2) ->
  for_each (guarded fragment report) (candidates sentences this text ms)
    (processedFragments this) = (nlpErrors ++ regexErrors, processedFragments this2).
Proof.
  intros E1 E2. unfold candidates. by rewrite for_each_app, E1, E2.
Qed.

(** ** The final pass keeps one entry for every pair *)

Lemma chars_append a b : chars (a +:+ b) = chars a ++ chars b.
Proof. unfold chars. induction a as [|c a IH]; simpl; [done|]. by rewrite IH. Qed.

Lemma chars_inj a b : chars a = chars b -> a = b.
Proof. intros H. by rewrite <- (text_of_chars a), H, text_of_chars. Qed.

Lemma split_at_last_bar (l1 l2 r1 r2 : list ascii) :
  bar ∉ r1 -> bar ∉ r2 ->
  l1 ++ bar :: r1 = l2 ++ bar :: r2 -> l1 = l2 /\ r1 = r2.
Proof.
  revert l2. induction l1 as [|a l1 IH]; intros [|b l2] H1 H2 H; simpl in H.
  - by inversion H.
  - inversion H; subst. exfalso. apply H1. set_solver.
  - inversion H; subst. exfalso. apply H2. set_solver.
  - inversion H; subst. destruct (IH l2 H1 H2) as [-> ->]; done.
Qed.

(** Two errors with rule identifiers free of the separator have the same
    key exactly when they have the same trimmed context and the same rule. *)
Lemma dedup_key_inj e1 e2 :
  bar_free (ruleId e1) -> bar_free (ruleId e2) ->
  dedup_key e1 = dedup_key e2 -> key_pair e1 = key_pair e2.
Proof.
  intros H1 H2 H. apply (f_equal chars) in H. unfold dedup_key in H.
  rewrite !chars_append in H. simpl in H.
  destruct (split_at_last_bar _ _ _ _ H1 H2 H) as [Hc Hr].
  unfold key_pair. by rewrite (chars_inj _ _ Hc), (chars_inj _ _ Hr).
Qed.

Lemma key_pair_key e1 e2 : key_pair e1 = key_pair e2 -> dedup_key e1 = dedup_key e2.
Proof. unfold key_pair, dedup_key. by intros [= -> ->]. Qed.

Lemma known_rules_bar_free r : r ∈ known_rules -> bar_free r.
Proof.
  unfold known_rules. intros H.
  repeat (apply elem_of_cons in H as [-> | H];
          [unfold bar_free; vm_compute; intros Hin;
           repeat (apply elem_of_cons in Hin as [Hin|Hin]; [discriminate|]);
           by apply elem_of_nil in Hin|]).
  by apply elem_of_nil in H.
Qed.

Lemma dedup_loop_elem errors : forall seen e,
  e ∈ dedup_loop errors seen -> e ∈ errors /\ dedup_key e ∉ seen.
Proof.
  induction errors as [|x l IH]; intros seen e; simpl; [by intros ?%elem_of_nil|].
  case_decide as Hk.
  - intros [? ?]%IH. split; [by right|done].
  - intros [->|[? ?]%IH]%elem_of_cons; [split; [by left|done]|].
    split; [by right|set_solver].
Qed.

Lemma dedup_loop_NoDup errors : forall seen,
  NoDup (dedup_key <$> dedup_loop errors seen).
Proof.
  induction errors as [|x l IH]; intros seen; simpl; [constructor|].
  case_decide as Hk; [apply IH|].
  rewrite fmap_cons. constructor; [|apply IH].
  intros (e & He & [_ Hn]%dedup_loop_elem)%list_elem_of_fmap. set_solver.
Qed.

Lemma dedup_loop_covers errors : forall seen e,
  e ∈ errors ->
  dedup_key e ∈ seen \/ exists e', e' ∈ dedup_loop errors seen /\ dedup_key e' = dedup_key e.
Proof.
  induction errors as [|x l IH]; intros seen e; simpl; [by intros ?%elem_of_nil|].
  intros [->|He]%elem_of_cons.
  - case_decide as Hk; [by left|]. right. exists x. split; [by left|done].
  - case_decide as Hk.
    + destruct (IH seen e He) as [?|(e' & ? & ?)]; [by left|]. right. by exists e'.
    + destruct (IH ({[dedup_key x]} ∪ seen) e He) as [Hs|(e' & ? & ?)].
      * apply elem_of_union in Hs as [->%elem_of_singleton|Hs]; [|by left].
        right. exists x. split; [by left|done].
      * right. exists e'. split; [by right|done].
Qed.

Lemma dedup_loop_id errors : forall seen,
  NoDup (dedup_key <$> errors) ->
  (forall e, e ∈ errors -> dedup_key e ∉ seen) ->
  dedup_loop errors seen = errors.
Proof.
  induction errors as [|x l IH]; intros seen Hnd Hs; simpl; [done|].
  rewrite fmap_cons in Hnd. apply NoDup_cons in Hnd as [Hx Hnd].
  rewrite decide_False by (apply Hs; by left). f_equal.
  apply IH; [done|]. intros e He.
  apply not_elem_of_union. split; [|apply Hs; by right].
  intros Heq%elem_of_singleton. apply Hx. rewrite <- Heq.
  by apply list_elem_of_fmap_2.
Qed.

(** On errors whose rules are free of the separator, the final pass keeps
    one entry for every distinct pair of trimmed context and rule. *)
Lemma deduplicateErrors_pairs errors :
  (forall e, e ∈ errors -> bar_free (ruleId e)) ->
  NoDup (key_pair <$> deduplicateErrors errors) /\
  length (deduplicateErrors errors)
  = size (list_to_set (key_pair <$> errors) : gset (string * string)).
Proof.
  intros Hfree. unfold deduplicateErrors.
  assert (NoDup (key_pair <$> dedup_loop errors ∅)) as Hnd.
  { pose proof (dedup_loop_NoDup errors ∅) as Hk.
    assert (forall l : list GrammarError,
              NoDup (dedup_key <$> l) -> NoDup (key_pair <$> l)) as Hgo.
    { induction l as [|e l IHl]; [constructor|].
      rewrite !fmap_cons. intros [Hx Hl]%NoDup_cons. constructor; [|by apply IHl].
      intros (e' & He' & Hin)%list_elem_of_fmap. apply Hx.
      apply list_elem_of_fmap. exists e'. split; [by apply key_pair_key|done]. }
    by apply Hgo. }
  split; [done|].
  rewrite <- (length_fmap key_pair), <- (size_list_to_set (C := gset (string * string))) by done.
  f_equal. apply set_eq. intros p. rewrite !elem_of_list_to_set, !list_elem_of_fmap.
  split.
  - intros (e & -> & [He _]%dedup_loop_elem). by exists e.
  - intros (e & -> & He).
    destruct (dedup_loop_covers errors ∅ e He) as [?|(e' & He' & Hk)]; [set_solver|].
    exists e'. split; [|done]. symmetry. apply dedup_key_inj; [| |done].
    + apply Hfree. by apply dedup_loop_elem in He' as [? _].
    + by apply Hfree.
Qed.

(** ** What one run reports *)

Lemma NoDup_fmap_transfer {A B C} (f : A -> B) (g : A -> C) (l : list A) :
  (forall x y, x ∈ l -> y ∈ l -> g x = g y -> f x = f y) ->
  NoDup (f <$> l) -> NoDup (g <$> l).
Proof.
  induction l as [|a l IH]; intros Hfg; [constructor|].
  rewrite !fmap_cons. intros [Ha Hl]%NoDup_cons. constructor.
  - intros (b & Hb & Hin)%list_elem_of_fmap. apply Ha.
    apply list_elem_of_fmap. exists b. split; [|done].
    apply Hfg; [by left|by right|done].
  - apply IH; [|done]. intros x y Hx Hy. apply Hfg; by right.
Qed.

Section Run.
Variables (cands : list candidate) (seen : gset string).
Hypothesis cands_of_run : Forall of_run cands.

Let detected : list GrammarError := (for_each (guarded fragment report) cands seen).1.

Lemma detected_from e :
  e ∈ detected -> (context e ∉ seen) /\ exists c, c ∈ cands /\ e ∈ report c.
Proof. intros H. exact (guarded_reported fragment report report_context cands seen e H). Qed.

Lemma detected_rule e : e ∈ detected -> ruleId e ∈ known_rules.
Proof.
  intros [_ (c & Hc & He)]%detected_from. eapply report_rule; [|done].
  rewrite Forall_forall in cands_of_run. by apply cands_of_run.
Qed.

Lemma detected_trimmed e : e ∈ detected -> trim (context e) = context e.
Proof.
  intros [_ (c & Hc & He)]%detected_from. rewrite (report_context c e He).
  destruct c; apply trim_idemp.
Qed.

Lemma detected_no_heading e : e ∈ detected -> isHeadingOrTitle (context e) = false.
Proof. intros [_ (c & Hc & He)]%detected_from. by eapply report_no_heading. Qed.

Lemma detected_NoDup : NoDup (context <$> detected).
Proof. apply guarded_NoDup; [apply report_context | apply report_single]. Qed.

(** The final pass has nothing left to remove. *)
Lemma detected_unique : deduplicateErrors detected = detected.
Proof.
  apply dedup_loop_id; [|set_solver].
  apply (NoDup_fmap_transfer context); [|apply detected_NoDup].
  intros x y Hx Hy Hk.
  apply dedup_key_inj in Hk;
    [| by apply known_rules_bar_free, detected_rule
     | by apply known_rules_bar_free, detected_rule].
  unfold key_pair in Hk. inversion Hk as [[Hc Hr]].
  by rewrite !detected_trimmed in Hc.
Qed.
End Run.

(** ** Runs of one instance, and the options *)

Lemma fragment_of_sentences text (ss : list string) :
  fragment <$> (FromSentence text <$> ss) = trim <$> ss.
Proof. induction ss as [|s ss IH]; [done|]. rewrite !fmap_cons. by rewrite IH. Qed.

Lemma checker_eq (a b : GrammarChecker) :
  options a = options b -> processedFragments a = processedFragments b -> a = b.
Proof. destruct a, b. simpl. by intros -> ->. Qed.

(** The set after a run: what it held before, and the fragment of every
    candidate of the run. *)
Lemma pipeline_seen sentences this text ms nlpErrors this1 regexErrors this2 :
  for_each (guarded fragment report) (sentence_candidates sentences this text)
    (processedFragments this) = (nlpErrors, processedFragments this1) ->
  for_each (guarded fragment report) (FromMatch <$> ms)
    (processedFragments this1) = (regexErrors, processedFragments this2) ->
  processedFragments this2
  = list_to_set (fragment <$> candidates sentences this text ms) ∪ processedFragments this.
Proof.
  intros E1 E2.
  pose proof (pipeline_combined _ _ _ _ _ _ _ _ E1 E2) as E.
  pose proof (guarded_seen fragment report (candidates sentences this text ms)
                (processedFragments this)) as Hs.
  by rewrite E in Hs.
Qed.

(** The result of a run depends on the instance only through the flag
    [detectIncomplete] and the fragment set. *)
Lemma checkPage_reads sentences (a b : GrammarChecker) url text :
  detecting (options a) = detecting (options b) ->
  processedFragments a = processedFragments b ->
  fst <$> checkPage sentences a url text = fst <$> checkPage sentences b url text.
Proof.
  intros Hd Hp.
  unfold checkPage, checkRegexPatterns, detectIncompleteWithCompromise.
  rewrite Hd, Hp. generalize (all_matches patterns text). intros found.
  destruct (negb (detecting (options b))).
  - destruct found as [ms|]; [|done]. simpl. rewrite Hp.
    by destruct (for_each _ ms _).
  - destruct (for_each (check_sentence text) _ _) as [nlpErrors seen1].
    destruct found as [ms|]; [|done]. simpl.
    by destruct (for_each _ ms _).
Qed.

Lemma report_sentence_rule text s e :
  e ∈ report (FromSentence text s) -> ruleId e = MISSING_END_PUNCTUATION.
Proof.
  simpl. unfold sentence_out. repeat case_match; try by intros ?%elem_of_nil.
  by intros ->%list_elem_of_singleton.
Qed.

Lemma report_match_rule pm e :
  fst pm ∈ patterns -> e ∈ report (FromMatch pm) -> ruleId e ∈ pattern_rules.
Proof.
  destruct pm as [pat m]. simpl. intros Hpat. unfold match_out.
  repeat case_match; try by intros ?%elem_of_nil.
  intros ->%list_elem_of_singleton. simpl. unfold patterns in Hpat.
  repeat (apply elem_of_cons in Hpat as [-> | Hpat];
          [simpl; unfold pattern_rules; set_solver|]).
  by apply elem_of_nil in Hpat.
Qed.

Lemma missing_is_no_pattern_rule : MISSING_END_PUNCTUATION ∉ pattern_rules.
Proof.
  unfold pattern_rules. intros H.
  repeat (apply elem_of_cons in H as [H|H]; [discriminate|]).
  by apply elem_of_nil in H.
Qed.

(** ** The two end-anchored tests of the sentence pass *)

Lemma search_from_finds fl r : forall ah bef,
  is_Some (search_from fl r bef ah) <->
  exists a1 a2, ah = a1 ++ a2 /\
                is_Some (run fl r Some {| before := rev a1 ++ bef; ahead := a2 |}).
Proof.
  induction ah as [|c rest IH]; intros bef; simpl.
  - destruct (run fl r Some {| before := bef; ahead := [] |}) eqn:E.
    + split; [|done]. intros _. exists [], []. simpl. by rewrite E.
    + split; [by intros [? ?]|].
      intros (a1 & a2 & Ha & Hr). symmetry in Ha.
      apply app_eq_nil in Ha as [-> ->]. simpl in Hr. rewrite E in Hr.
      by destruct Hr.
  - destruct (run fl r Some {| before := bef; ahead := c :: rest |}) eqn:E.
    + split; [|done]. intros _. exists [], (c :: rest). simpl. by rewrite E.
    + rewrite IH. split.
      * intros (a1 & a2 & -> & Hr). exists (c :: a1), a2. split; [done|].
        simpl. by rewrite <- app_assoc.
      * intros ([|c' a1] & a2 & Ha & Hr); simpl in *.
        -- subst a2. rewrite E in Hr. by destruct Hr.
        -- inversion Ha; subst. exists a1, a2. split; [done|].
           by rewrite <- app_assoc in Hr.
Qed.

Lemma test_finds fl r s :
  test fl r s = true <->
  exists a1 a2, chars s = a1 ++ a2 /\
                is_Some (run fl r Some {| before := rev a1 ++ []; ahead := a2 |}).
Proof.
  rewrite <- search_from_finds. unfold test.
  destruct (search_from fl r [] (chars s)); split; done.
Qed.

Lemma run_end_punctuation bef a2 :
  is_Some (run no_flags re_end_punctuation Some {| before := bef; ahead := a2 |})
  <-> exists c, a2 = [c] /\ is_terminator c = true.
Proof.
  destruct a2 as [|c [|c' rest]]; simpl.
  - split; [by intros [? ?]|by intros (? & ? & ?)].
  - change (class_has no_flags _ c) with (is_terminator c).
    destruct (is_terminator c) eqn:E; simpl.
    + split; [|done]. intros _. by exists c.
    + split; [by intros [? ?]|]. intros (c0 & [= <-] & H). congruence.
  - destruct (class_has _ _ c); simpl;
      (split; [by intros [? ?]|by intros (? & ? & ?)]).
Qed.

Lemma ends_with_punctuation_spec s :
  ends_with_punctuation s = negb (lacks_terminal_punctuation s).
Proof.
  unfold ends_with_punctuation, lacks_terminal_punctuation.
  destruct (test no_flags re_end_punctuation s) eqn:E.
  - apply test_finds in E as (a1 & a2 & Hs & (c & -> & Hc)%run_end_punctuation).
    rewrite Hs, rev_app_distr. simpl. by rewrite Hc.
  - destruct (rev (chars s)) as [|c rest] eqn:Hr; [done|].
    destruct (is_terminator c) eqn:Hc; [|done]. exfalso.
    assert (test no_flags re_end_punctuation s = true) as Ht; [|congruence].
    apply test_finds. exists (rev rest), [c]. split.
    + by rewrite <- (rev_involutive (chars s)), Hr.
    + apply run_end_punctuation. by exists c.
Qed.

Lemma run_colon_end bef a2 :
  is_Some (run no_flags re_colon_end Some {| before := bef; ahead := a2 |})
  <-> colon_tail a2 = true.
Proof.
  assert (forall c a, class_has no_flags [COne a] c = Ascii.eqb c a) as Hone.
  { intros c a. unfold class_has. simpl. unfold Char.eqb.
    by rewrite orb_false_r, Ascii.eqb_sym. }
  destruct a2 as [|c0 [|c1 [|c2 rest]]]; simpl; rewrite ?Hone; unfold Char.eqb.
  - split; [by intros [? ?]|done].
  - destruct (Ascii.eqb c0 ":"); simpl; split; try done; by intros [? ?].
  - destruct (Ascii.eqb c0 ":"); simpl; [|split; try done; by intros [? ?]].
    destruct (Ascii.eqb c1 "."); simpl; split; try done; by intros [? ?].
  - destruct (Ascii.eqb c0 ":"); simpl; [|split; try done; by intros [? ?]].
    destruct (Ascii.eqb c1 "."); simpl; [split; try done; by intros [? ?]|].
    destruct (match length rest with 0 => false | S m' => length rest <=? m' end);
      split; try done; by intros [? ?].
Qed.

Lemma colon_end_spec s : test no_flags re_colon_end s = colon_at_end s.
Proof.
  unfold colon_at_end.
  destruct (test no_flags re_colon_end s) eqn:E.
  - apply test_finds in E as (a1 & a2 & Hs & Ht%run_colon_end).
    rewrite Hs, rev_app_distr.
    destruct a2 as [|c0 [|c1 [|c2 rest]]]; simpl in Ht; try discriminate.
    + simpl. by rewrite Ht.
    + apply andb_true_iff in Ht as [H0 H1]. simpl. rewrite H0.
      apply negb_true_iff in H1. rewrite H1. simpl. by rewrite orb_true_r.
  - destruct (rev (chars s)) as [|c rest] eqn:Hr; [done|].
    assert (chars s = rev rest ++ [c]) as Hs.
    { by rewrite <- (rev_involutive (chars s)), Hr. }
    destruct (Char.eqb c ":") eqn:Hc; simpl.
    { exfalso. assert (test no_flags re_colon_end s = true) as Ht; [|congruence].
      apply test_finds. exists (rev rest), [c]. split; [done|].
      apply run_colon_end. done. }
    destruct (Char.eqb c ".") eqn:Hd; simpl; [done|].
    destruct rest as [|b rest']; [done|].
    destruct (Char.eqb b ":") eqn:Hb; [|done].
    exfalso. assert (test no_flags re_colon_end s = true) as Ht; [|congruence].
    apply test_finds. exists (rev rest'), [b; c]. split.
    + rewrite Hs. simpl. by rewrite <- app_assoc.
    + apply run_colon_end. simpl. by rewrite Hb, Hd.
Qed.

(** ** The content test, in words *)

Lemma isContentSentence_spec unit : isContentSentence unit = content_test unit.
Proof.
  unfold isContentSentence, content_test, MIN_LENGTH, MIN_WORDS, MIN_WORDS_PLAIN.
  rewrite colon_end_spec, !Nat.ltb_antisym.
  by destruct (15 <=? String.length unit), (4 <=? token_count unit),
       (colon_at_end (trim unit)), (hasSubjectVerb unit),
       (7 <=? token_count unit), (hasCodeWords unit),
       (density_below_5_percent _ _).
Qed.

(** ** [analyzeText] reports no two overlapping fragments *)

Lemma ForallOrdPairs_app {A} (R : A -> A -> Prop) (l1 l2 : list A) :
  ForallOrdPairs R l1 -> ForallOrdPairs R l2 ->
  (forall a b, a ∈ l1 -> b ∈ l2 -> R a b) ->
  ForallOrdPairs R (l1 ++ l2).
Proof.
  induction 1 as [|a l1 Ha H1 IH]; intros H2 Hx; simpl; [done|].
  constructor.
  - apply Forall_app. split; [done|].
    apply Forall_forall. intros b Hb. apply Hx; [by left|done].
  - apply IH; [done|]. intros x y Hx1 Hy. apply Hx; [by right|done].
Qed.

Lemma tracks_skip (reported : gset string) :
  reported = list_to_set (context <$> []) ∪ reported /\
  (forall (e : GrammarError) (f : string), e ∈ [] -> f ∈ reported -> apart (context e) f) /\
  ForallOrdPairs (fun a b => apart (context a) (context b)) [].
Proof.
  split; [set_solver|]. split; [by intros e f ?%elem_of_nil|constructor].
Qed.

Lemma tracks_for_each {X} (body : X -> gset string -> list GrammarError * gset string) :
  tracks body -> tracks (for_each body).
Proof.
  intros Hbody xs. induction xs as [|x xs IH]; intros reported; simpl.
  { apply tracks_skip. }
  destruct (Hbody x reported) as (H1 & H2 & H3).
  destruct (body x reported) as [pushed seen1]. simpl in *.
  destruct (IH seen1) as (I1 & I2 & I3).
  destruct (for_each body xs seen1) as [later seen2]. simpl in *.
  split; [|split].
  - rewrite I1, H1, fmap_app. set_solver.
  - intros e f [He|He]%elem_of_app Hf; [by apply H2|].
    apply I2; [done|]. rewrite H1. set_solver.
  - apply ForallOrdPairs_app; [done|done|].
    intros a b Ha Hb.
    destruct (I2 b (context a) Hb) as [Hba Hab].
    + rewrite H1. apply elem_of_union_l, elem_of_list_to_set.
      by apply list_elem_of_fmap_2.
    + by split.
Qed.

Lemma overlaps_reported_false reported t :
  overlaps_reported reported t = false -> forall f, f ∈ reported -> apart t f.
Proof.
  unfold overlaps_reported. intros Hno f Hf.
  destruct (includes t f || includes f t) eqn:E.
  - assert (existsb (fun fragment => includes t fragment || includes fragment t)
              (elements reported) = true) as Hyes; [|congruence].
    apply existsb_exists. exists f. split; [|done].
    by apply list_elem_of_In, elem_of_elements.
  - by apply orb_false_iff in E.
Qed.

Section ContainmentLaw.

Variables isCookieConsent looksLikeCodeOrCSS looksLikeNavigation
          isLikelyUIElement isLikelySentence : string -> bool.
Variables ignorePatterns incompletePatterns : list (string -> bool).
Variable extractSentences : string -> list string.

Let sentence_body :=
  analyze_sentence isCookieConsent looksLikeCodeOrCSS looksLikeNavigation
    isLikelyUIElement isLikelySentence ignorePatterns incompletePatterns.

Let paragraph_body :=
  analyze_paragraph isCookieConsent looksLikeCodeOrCSS looksLikeNavigation
    isLikelyUIElement isLikelySentence ignorePatterns incompletePatterns extractSentences.

Lemma reports_one (e : GrammarError) (reported : gset string) :
  overlaps_reported reported (context e) = false ->
  {[context e]} ∪ reported = list_to_set (context <$> [e]) ∪ reported /\
  (forall e' f, e' ∈ [e] -> f ∈ reported -> apart (context e') f) /\
  ForallOrdPairs (fun a b => apart (context a) (context b)) [e].
Proof.
  intros Hno. split; [set_solver|]. split.
  - intros e' f ->%list_elem_of_singleton Hf. by eapply overlaps_reported_false.
  - repeat constructor.
Qed.

Lemma analyze_sentence_tracks paragraph : tracks (sentence_body paragraph).
Proof.
  intros sentence reported. unfold sentence_body, analyze_sentence.
  destruct (_ || _); [apply tracks_skip|].
  destruct (isCookieConsent _); [apply tracks_skip|].
  destruct (some_pattern ignorePatterns _); [apply tracks_skip|].
  destruct (looksLikeCodeOrCSS _); [apply tracks_skip|].
  destruct (looksLikeNavigation _); [apply tracks_skip|].
  destruct (isLikelyUIElement _); [apply tracks_skip|].
  destruct (overlaps_reported _ _) eqn:Hno; [apply tracks_skip|].
  destruct (_ && _).
  - destruct (isLikelySentence _); [|apply tracks_skip].
    by apply (reports_one (analyzer_error paragraph (trim sentence) _ _ _)).
  - destruct (some_pattern incompletePatterns _); [|apply tracks_skip].
    destruct (isLikelySentence _); [|apply tracks_skip].
    by apply (reports_one (analyzer_error paragraph (trim sentence) _ _ _)).
Qed.

Lemma analyze_paragraph_tracks : tracks paragraph_body.
Proof.
  intros paragraph reported. unfold paragraph_body, analyze_paragraph.
  destruct (is_empty _); [apply tracks_skip|].
  destruct (isCookieConsent _); [apply tracks_skip|].
  destruct (some_pattern ignorePatterns _); [apply tracks_skip|].
  destruct (looksLikeCodeOrCSS _); [apply tracks_skip|].
  destruct (looksLikeNavigation _); [apply tracks_skip|].
  destruct (contains_reported _ _); [apply tracks_skip|].
  apply (tracks_for_each _ (analyze_sentence_tracks paragraph)).
Qed.

Lemma analyzeText_apart text :
  ForallOrdPairs (fun a b => apart (context a) (context b))
    (analyzeText isCookieConsent looksLikeCodeOrCSS looksLikeNavigation
       isLikelyUIElement isLikelySentence ignorePatterns incompletePatterns
       extractSentences text).
Proof.
  unfold analyzeText.
  apply (tracks_for_each _ analyze_paragraph_tracks (paragraphs_of text) ∅).
Qed.

End ContainmentLaw.

(** A run of [analyzeText] in which the second paragraph is a part of the
    fragment reported for the first: only the first is reported. *)
Example analyzeText_suppresses_contained_fragment :
  context <$> analyzeText (fun _ => false) (fun _ => false) (fun _ => false)
                (fun _ => false) (fun _ => true) [] []
                (fun paragraph => spans (chars paragraph) [])
                (longer_fragment +:+ nl +:+ nl +:+ shorter_fragment)
  = [longer_fragment].
Proof. by vm_compute. Qed.

(** ** Which candidates are reported *)

(** An error comes out of a guarded loop exactly when it is reported by an
    element whose key is not in the set at the start and is not the key of
    an earlier element. *)
Lemma guarded_member {X : Type} (key : X -> string) (out : X -> list GrammarError)
    (xs : list X) :
  forall seen e,
    e ∈ (for_each (guarded key out) xs seen).1 <->
    exists earlier x later,
      xs = earlier ++ x :: later /\
      (key x ∉ seen) /\
      (forall y, y ∈ earlier -> key y <> key x) /\
      e ∈ out x.
Proof.
  induction xs as [|x xs IH]; intros seen e; simpl.
  { split; [by intros ?%elem_of_nil|].
    intros (earlier & y & later & Heq & _). by destruct earlier. }
  unfold guarded at 1. destruct (decide (key x ∈ seen)) as [Hin|Hout].
  - specialize (IH seen e). destruct (for_each _ xs seen) as [errs seen']. simpl in *.
    rewrite IH. split.
    + intros (earlier & y & later & -> & Hy & Hearlier & He).
      exists (x :: earlier), y, later. split; [done|]. split; [done|]. split; [|done].
      intros z [->|Hz]%elem_of_cons; [|by apply Hearlier].
      intros Heq. apply Hy. by rewrite <- Heq.
    + intros (earlier & y & later & Heq & Hy & Hearlier & He).
      destruct earlier as [|z earlier]; simpl in Heq.
      * injection Heq as -> ->. done.
      * injection Heq as -> ->. exists earlier, y, later.
        split; [done|]. split; [done|]. split; [|done].
        intros w Hw. apply Hearlier. by right.
  - specialize (IH ({[key x]} ∪ seen) e).
    destruct (for_each _ xs _) as [errs seen']. simpl in *.
    rewrite elem_of_app, IH. split.
    + intros [He|(earlier & y & later & -> & Hy & Hearlier & He)].
      * exists [], x, xs. split; [done|]. split; [done|]. split; [|done].
        by intros z ?%elem_of_nil.
      * exists (x :: earlier), y, later. split; [done|].
        split; [set_solver|]. split; [|done].
        intros z [->|Hz]%elem_of_cons; [set_solver|by apply Hearlier].
    + intros (earlier & y & later & Heq & Hy & Hearlier & He).
      destruct earlier as [|z earlier]; simpl in Heq.
      * injection Heq as -> ->. by left.
      * injection Heq as -> ->. right. exists earlier, y, later.
        split; [done|]. split.
        { assert (key z <> key y) by (apply Hearlier; left). set_solver. }
        split; [|done]. intros w Hw. apply Hearlier. by right.
Qed.

(** What a run reports, candidate by candidate. *)
Lemma run_members sentences this url text :
  exists ms result this',
    all_matches patterns text = Some ms /\
    checkPage sentences this url text = Some (result, this') /\
    forall e,
      e ∈ errors result <->
      exists earlier c later,
        candidates sentences this text ms = earlier ++ c :: later /\
        (fragment c ∉ processedFragments this) /\
        (forall c', c' ∈ earlier -> fragment c' <> fragment c) /\
        e ∈ report c.
Proof.
  destruct (pipeline_run sentences this text)
    as (ms & nlpErrors & this1 & regexErrors & this2 & Hms & _ & _ & E1 & E2 & _ & _ & Hpage).
  pose proof (pipeline_combined _ _ _ _ _ _ _ _ E1 E2) as E.
  pose proof (candidates_of_run sentences this text ms Hms) as Hrun.
  pose proof (detected_unique _ (processedFragments this) Hrun) as Hu.
  rewrite E in Hu. simpl in Hu.
  eexists ms, _, this2. split; [done|]. split; [apply Hpage|]. simpl.
  intros e. rewrite Hu.
  rewrite <- (guarded_member fragment report (candidates sentences this text ms)
                (processedFragments this) e).
  by rewrite E.
Qed.

(** The errors of a run are those of the run of an instance with the same
    flag and an empty set, without the contexts that the set holds. *)
Lemma run_from_empty sentences this fresh url text :
  processedFragments fresh = ∅ ->
  detecting (options fresh) = detecting (options this) ->
  exists first this1 result fresh1,
    checkPage sentences this url text = Some (first, this1) /\
    checkPage sentences fresh url text = Some (result, fresh1) /\
    errors first
    = filter (fun e => context e ∉ processedFragments this) (errors result).
Proof.
  intros Hempty Hflag.
  destruct (pipeline_run sentences this text)
    as (ms & nlpErrors & this1 & regexErrors & this2 & Hms & _ & _ & E1 & E2 & _ & _ & Hpage).
  destruct (pipeline_run sentences fresh text)
    as (ms' & nlp' & f1 & regex' & f2 & Hms' & _ & _ & F1 & F2 & _ & _ & Hpage').
  rewrite Hms in Hms'. injection Hms' as <-.
  pose proof (pipeline_combined _ _ _ _ _ _ _ _ E1 E2) as E.
  pose proof (pipeline_combined _ _ _ _ _ _ _ _ F1 F2) as F.
  assert (candidates sentences fresh text ms = candidates sentences this text ms) as Hc.
  { unfold candidates, sentence_candidates. by rewrite Hflag. }
  rewrite Hc, Hempty in F.
  pose proof (candidates_of_run sentences this text ms Hms) as Hrun.
  pose proof (detected_unique _ (processedFragments this) Hrun) as Hu.
  pose proof (detected_unique _ ∅ Hrun) as Hu'.
  rewrite E in Hu. rewrite F in Hu'. simpl in Hu, Hu'.
  eexists _, this2, _, f2. split; [apply Hpage|]. split; [apply Hpage'|]. simpl.
  rewrite Hu, Hu'.
  pose proof (guarded_filter fragment report report_context
                (candidates sentences this text ms) (processedFragments this) ∅) as Hf.
  rewrite union_empty_r_L, E, F in Hf. exact Hf.
Qed.

(** * The claims *)

(** C1. For every text (and every state of the checker), the result of
    [checkPage] has [totalErrors] equal to the length of [errors], no two
    entries of [errors] agree on both trimmed context and rule, and the
    length of [errors] is the number of distinct (trimmed context, rule)
    pairs among the errors the two detectors found. *)
Theorem C1_total_is_number_of_distinct_pairs
    (sentences : string -> list string) (this : GrammarChecker) (url text : string) :
  exists nlpErrors this1 regexErrors this2 result,
    detectIncompleteWithCompromise sentences this text = (nlpErrors, this1) /\
    checkRegexPatterns this1 text = Some (regexErrors, this2) /\
    checkPage sentences this url text = Some (result, this2) /\
    totalErrors result = length (errors result) /\
    NoDup (key_pair <$> errors result) /\
    length (errors result)
    = size (list_to_set (key_pair <$> (nlpErrors ++ regexErrors)) : gset (string * string)).
Proof.
  destruct (pipeline_run sentences this text)
    as (ms & nlpErrors & this1 & regexErrors & this2 & Hms & Hnlp & Hre & E1 & E2 & _ & _ & Hpage).
  exists nlpErrors, this1, regexErrors, this2. eexists.
  split; [done|]. split; [done|]. split; [apply Hpage|]. simpl.
  split; [done|].
  apply deduplicateErrors_pairs. intros e He.
  apply known_rules_bar_free.
  pose proof (pipeline_combined _ _ _ _ _ _ _ _ E1 E2) as E.
  apply (detected_rule (candidates sentences this text ms) (processedFragments this)).
  - by apply candidates_of_run.
  - by rewrite E.
Qed.

(** C2, as stated, fails: in the run over the text of scenario 3 the
    sentence pass reports the fragment "This policy explains how we collect
    data", and the pattern matcher afterwards reports a fragment that
    contains it. *)
Lemma C2_superstring_is_reported :
  exists result this' A B,
    checkPage segmenter (new_GrammarChecker default_options) "page" scenario3
    = Some (result, this') /\
    errors result = [A; B] /\
    ruleId A = MISSING_END_PUNCTUATION /\ ruleId B = HANGING_PREPOSITION /\
    includes (trim (context B)) (trim (context A)) = true.
Proof.
  eexists _, _, _, _. split; [vm_compute; reflexivity|].
  split; [reflexivity|]. split; [reflexivity|]. split; [reflexivity|].
  by vm_compute.
Qed.

(** C2, amended.  In [GrammarChecker] a candidate of either detector is
    suppressed exactly when its trimmed text is equal to a fragment in the
    set of processed fragments.  If it is in the set, the candidate reports
    nothing.  If it is not, the candidate reports what it reports with an
    empty set, whatever the set holds: a fragment that contains the
    candidate, or is contained in it, suppresses nothing.  Over a run, an
    error is in the result exactly when a candidate reports it whose
    trimmed text is neither in the set at the start of the run nor the
    trimmed text of an earlier candidate.  Suppression by containment, in
    both directions, exists in [analyzeText] of [sentenceAnalyzer.ts] alone:
    of two errors it returns, neither context contains the other. *)
Theorem C2_suppression_by_equality_and_by_containment :
  (forall text sentenceText seen,
     check_sentence text sentenceText ({[trim sentenceText]} ∪ seen)
     = ([], {[trim sentenceText]} ∪ seen)) /\
  (forall pat m seen,
     check_match pat m ({[trim (snd m)]} ∪ seen) = ([], {[trim (snd m)]} ∪ seen)) /\
  (forall text sentenceText seen,
     trim sentenceText ∉ seen ->
     (check_sentence text sentenceText seen).1 = (check_sentence text sentenceText ∅).1) /\
  (forall pat m seen,
     trim (snd m) ∉ seen ->
     (check_match pat m seen).1 = (check_match pat m ∅).1) /\
  (forall sentences this url text,
     exists ms result this',
       all_matches patterns text = Some ms /\
       checkPage sentences this url text = Some (result, this') /\
       forall e,
         e ∈ errors result <->
         exists earlier c later,
           candidates sentences this text ms = earlier ++ c :: later /\
           (fragment c ∉ processedFragments this) /\
           (forall c', c' ∈ earlier -> fragment c' <> fragment c) /\
           e ∈ report c) /\
  (forall isCookieConsent looksLikeCodeOrCSS looksLikeNavigation
          isLikelyUIElement isLikelySentence ignorePatterns incompletePatterns
          extractSentences text,
     ForallOrdPairs
       (fun A B => includes (context A) (context B) = false /\
                   includes (context B) (context A) = false)
       (analyzeText isCookieConsent looksLikeCodeOrCSS looksLikeNavigation
          isLikelyUIElement isLikelySentence ignorePatterns incompletePatterns
          extractSentences text)).
Proof.
  split; [|split; [|split; [|split; [|split]]]].
  - intros text s seen. unfold check_sentence.
    destruct (_ || _); [done|]. by rewrite decide_True by set_solver.
  - intros pat m seen. unfold check_match. by rewrite decide_True by set_solver.
  - intros text s seen Hout. rewrite !check_sentence_guarded.
    destruct (too_short s); [done|]. unfold guarded.
    rewrite decide_False by done. by rewrite decide_False by apply not_elem_of_empty.
  - intros pat m seen Hout.
    pose proof (check_match_guarded (pat, m) seen) as Hseen.
    pose proof (check_match_guarded (pat, m) ∅) as Hempty.
    simpl in Hseen, Hempty. rewrite Hseen, Hempty. unfold guarded. simpl. rewrite decide_False by done.
    by rewrite decide_False by apply not_elem_of_empty.
  - intros. apply run_members.
  - intros. apply analyzeText_apart.
Qed.

(** C3, as stated, fails: with MISSING_END_PUNCTUATION listed in
    [disabledRules], the run over a sentence without final punctuation
    still reports an error of that rule. *)
Lemma C3_disabled_rule_is_reported :
  exists result this' e rules,
    checkPage segmenter
      (new_GrammarChecker (with_disabledRules default_options (Some [MISSING_END_PUNCTUATION])))
      "page" policy_sentence = Some (result, this') /\
    disabledRules (options this') = Some rules /\
    e ∈ errors result /\ ruleId e ∈ rules.
Proof.
  eexists _, _, _, _. split; [vm_compute; reflexivity|].
  split; [reflexivity|]. split; [left|left].
Qed.

(** C3, amended. [disabledRules] is stored by the constructor and never
    read: every detector runs, nothing is filtered by rule, and the result
    of a run is the same for every value of [disabledRules]. *)
Theorem C3_disabledRules_is_never_read
    (sentences : string -> list string) (o : Options) (rules : option (list string))
    (url text : string) :
  disabledRules (options (new_GrammarChecker (with_disabledRules o rules))) = rules /\
  fst <$> checkPage sentences (new_GrammarChecker (with_disabledRules o rules)) url text
  = fst <$> checkPage sentences (new_GrammarChecker o) url text.
Proof. split; [done|]. by apply checkPage_reads. Qed.

(** C4, as stated, fails in its second half: over a text that is one
    sentence with a hanging preposition, the pattern matcher reports it
    when the sentence pass is off and reports nothing when it is on. *)
Lemma C4_pattern_output_differs :
  exists off this_off on this_on,
    checkPage segmenter (new_GrammarChecker (with_detectIncomplete default_options false))
      "page" hanging_sentence = Some (off, this_off) /\
    checkPage segmenter (new_GrammarChecker (with_detectIncomplete default_options true))
      "page" hanging_sentence = Some (on, this_on) /\
    filter (fun e => ruleId e ∈ pattern_rules) (errors off)
    <> filter (fun e => ruleId e ∈ pattern_rules) (errors on).
Proof.
  eexists _, _, _, _. split; [vm_compute; reflexivity|].
  split; [vm_compute; reflexivity|]. vm_compute. discriminate.
Qed.

(** C4, amended.  On a fresh instance, [detectIncomplete: false] gives no
    MISSING_END_PUNCTUATION error: the result is the pattern-matcher output
    alone.  With [detectIncomplete: true] the pattern-matcher errors are, in
    the same order, those of the run with [false] whose context is not the
    trimmed text of a sentence (of ten characters or more) that the sentence
    pass processed first. *)
Theorem C4_detectIncomplete_and_the_pattern_matcher
    (sentences : string -> list string) (o : Options) (url text : string) :
  exists off this_off on this_on,
    checkPage sentences (new_GrammarChecker (with_detectIncomplete o false)) url text
    = Some (off, this_off) /\
    checkPage sentences (new_GrammarChecker (with_detectIncomplete o true)) url text
    = Some (on, this_on) /\
    (forall e, e ∈ errors off -> ruleId e <> MISSING_END_PUNCTUATION) /\
    filter (fun e => ruleId e ∈ pattern_rules) (errors off) = errors off /\
    filter (fun e => ruleId e ∈ pattern_rules) (errors on)
    = filter (fun e => context e ∉ sentence_fragments sentences text) (errors off).
Proof.
  set (this_f := new_GrammarChecker (with_detectIncomplete o false)).
  set (this_t := new_GrammarChecker (with_detectIncomplete o true)).
  destruct (pipeline_run sentences this_f text)
    as (ms & nlpF & f1 & regexF & f2 & Hms & _ & _ & F1 & F2 & _ & _ & HpageF).
  destruct (pipeline_run sentences this_t text)
    as (ms' & nlpT & t1 & regexT & t2 & Hms' & _ & _ & T1 & T2 & _ & _ & HpageT).
  rewrite Hms in Hms'. inversion Hms'; subst ms'. clear Hms'.
  pose proof (candidates_of_run sentences this_f text ms Hms) as HrunF.
  pose proof (candidates_of_run sentences this_t text ms Hms) as HrunT.
  pose proof (detected_unique _ (processedFragments this_f) HrunF) as HuF.
  pose proof (detected_unique _ (processedFragments this_t) HrunT) as HuT.
  rewrite (pipeline_combined _ _ _ _ _ _ _ _ F1 F2) in HuF.
  rewrite (pipeline_combined _ _ _ _ _ _ _ _ T1 T2) in HuT.
  simpl in HuF, HuT.
  (* the run without the sentence pass *)
  change (sentence_candidates sentences this_f text) with (@nil candidate) in F1.
  simpl in F1. inversion F1 as [[HnF HpF]]. subst nlpF. rewrite <- HpF in F2.
  simpl in HuF.
  (* the run with it *)
  pose proof (guarded_seen fragment report (sentence_candidates sentences this_t text)
                (processedFragments this_t)) as HseenT.
  rewrite T1 in HseenT. simpl in HseenT.
  change (sentence_candidates sentences this_t text)
    with (FromSentence text <$> filter (fun s => too_short s = false) (sentences text))
    in HseenT, T1.
  rewrite fragment_of_sentences, union_empty_r_L in HseenT.
  fold (sentence_fragments sentences text) in HseenT.
  pose proof (guarded_filter fragment report report_context (FromMatch <$> ms)
                (sentence_fragments sentences text) ∅) as Hfilter.
  rewrite HseenT in T2.
  rewrite union_empty_r_L, T2, F2 in Hfilter. simpl in Hfilter.
  (* the rules of the two lists *)
  assert (forall e, e ∈ nlpT -> ruleId e = MISSING_END_PUNCTUATION) as HruleN.
  { intros e He.
    pose proof (guarded_reported fragment report report_context
                  (FromSentence text <$> filter (fun s => too_short s = false) (sentences text))
                  (processedFragments this_t) e) as Hr.
    rewrite T1 in Hr. destruct (Hr He) as [_ (c & Hc & Hec)].
    apply list_elem_of_fmap in Hc as (s & -> & _). by eapply report_sentence_rule. }
  assert (forall seen e, e ∈ (for_each (guarded fragment report) (FromMatch <$> ms) seen).1 ->
                         ruleId e ∈ pattern_rules) as HruleM.
  { intros seen e He.
    destruct (guarded_reported fragment report report_context _ seen e He) as [_ (c & Hc & Hec)].
    apply list_elem_of_fmap in Hc as (pm & -> & Hpm).
    eapply report_match_rule; [|done]. by eapply all_matches_from. }
  pose proof (HruleM ∅) as HruleF. rewrite F2 in HruleF.
  pose proof (HruleM (sentence_fragments sentences text)) as HruleT. rewrite T2 in HruleT.
  simpl in HruleF, HruleT.
  eexists _, f2, _, t2. split; [apply HpageF|]. split; [apply HpageT|].
  simpl. rewrite HuF, HuT. split; [|split].
  - intros e He%HruleF Heq. rewrite Heq in He. by apply missing_is_no_pattern_rule.
  - by apply filter_everything.
  - rewrite filter_app, filter_nothing, filter_everything; [done|done|].
    intros e He%HruleN. rewrite He. apply missing_is_no_pattern_rule.
Qed.

(** C5, as stated, fails: a unit that ends in a colon followed by one
    more character passes every condition of the claim (it does not end in a
    colon) and is not reported. *)
Lemma C5_colon_before_last_character :
  survives ∅ smiley_sentence /\
  lacks_terminal_punctuation (trim smiley_sentence) = true /\
  content_test_as_stated smiley_sentence = true /\
  check_sentence smiley_sentence smiley_sentence ∅ = ([], {[trim smiley_sentence]}).
Proof.
  split; [|split; [|split]].
  - split; [by vm_compute|]. split; [apply not_elem_of_empty|].
    split; by vm_compute.
  - by vm_compute.
  - by vm_compute.
  - unfold check_sentence.
    assert (is_empty (trim smiley_sentence)
            || (String.length (trim smiley_sentence) <? 10) = false) as -> by by vm_compute.
    rewrite decide_False by apply not_elem_of_empty.
    assert (shouldSkipText smiley_sentence = false) as -> by by vm_compute.
    assert (isHeadingOrTitle (trim smiley_sentence) = false) as -> by by vm_compute.
    assert (negb (ends_with_punctuation (trim smiley_sentence))
            && isContentSentence smiley_sentence = false) as -> by by vm_compute.
    by rewrite union_empty_r_L.
Qed.

(** C5, amended.  A unit reaches the punctuation test when its trimmed
    text has ten characters or more and has not been processed before, and
    neither [shouldSkipText] nor [isHeadingOrTitle] rejects it; a unit that
    fails one of these four conditions reports nothing.  For a unit that
    reaches the test, the sentence pass reports exactly one error,
    MISSING_END_PUNCTUATION with its one fixed suggestion and the trimmed
    unit as context, when the trimmed unit has no final full stop,
    exclamation or question mark and the content test passes; otherwise it
    reports nothing.  The content test asks for 15 characters, 4 tokens, a
    trimmed unit that ends neither in a colon nor in a colon followed by one
    character other than the full stop, and either the subject/auxiliary
    pattern or 7 tokens with no code word and a density of special
    characters below 5%. *)
Theorem C5_missing_end_punctuation
    (text unit : string) (seen : gset string) :
  (survives seen unit ->
   (check_sentence text unit seen).1
   = (if lacks_terminal_punctuation (trim unit) && content_test unit
      then [missing_punctuation_error text unit] else [])) /\
  (~ survives seen unit -> (check_sentence text unit seen).1 = []) /\
  ruleId (missing_punctuation_error text unit) = MISSING_END_PUNCTUATION /\
  context (missing_punctuation_error text unit) = trim unit /\
  suggestions (missing_punctuation_error text unit)
  = ["Add appropriate ending punctuation (period, exclamation mark, or question mark)"].
Proof.
  split; [|split; [|done]].
  - intros (Hshort & Hseen & Hskip & Hhead).
    unfold check_sentence. unfold too_short in Hshort. rewrite Hshort.
    rewrite decide_False by done. rewrite Hskip, Hhead.
    rewrite ends_with_punctuation_spec, negb_involutive, isContentSentence_spec.
    by destruct (_ && _).
  - intros Hnot. unfold check_sentence.
    destruct (is_empty (trim unit) || (String.length (trim unit) <? 10)) eqn:Hshort;
      [done|].
    destruct (decide (trim unit ∈ seen)) as [Hin|Hout]; [done|].
    destruct (shouldSkipText unit) eqn:Hskip; [done|].
    destruct (isHeadingOrTitle (trim unit)) eqn:Hhead; [done|].
    exfalso. apply Hnot. by repeat split.
Qed.

(** A unit of seven words without final punctuation is reported. *)
Lemma C5_missing_end_punctuation_witness :
  survives ∅ policy_sentence /\
  (check_sentence policy_sentence policy_sentence ∅).1
  = [missing_punctuation_error policy_sentence policy_sentence].
Proof.
  assert (survives ∅ policy_sentence) as Hs.
  { split; [by vm_compute|]. split; [apply not_elem_of_empty|].
    split; by vm_compute. }
  split; [exact Hs|].
  destruct (C5_missing_end_punctuation policy_sentence policy_sentence ∅) as [Hreach _].
  rewrite (Hreach Hs).
  assert (lacks_terminal_punctuation (trim policy_sentence)
          && content_test policy_sentence = true) as -> by by vm_compute.
  reflexivity.
Defined.

(** C6. Heading exemption: a text whose trimmed form has a heading or
    title shape ([isHeadingOrTitle]) is never the context of an error of the
    result, neither as it stands nor trimmed.  Both detectors check the
    predicate on the trimmed fragment before they report it. *)
Theorem C6_headings_are_never_reported
    (sentences : string -> list string) (this : GrammarChecker) (url text : string)
    (heading : string) :
  isHeadingOrTitle (trim heading) = true ->
  exists result this',
    checkPage sentences this url text = Some (result, this') /\
    forall e, e ∈ errors result -> context e <> heading /\ context e <> trim heading.
Proof.
  intros Hh.
  destruct (pipeline_run sentences this text)
    as (ms & nlpErrors & this1 & regexErrors & this2 & Hms & Hnlp & Hre & E1 & E2 & _ & _ & Hpage).
  pose proof (pipeline_combined _ _ _ _ _ _ _ _ E1 E2) as E.
  pose proof (candidates_of_run sentences this text ms Hms) as Hrun.
  pose proof (detected_unique _ (processedFragments this) Hrun) as Hu.
  pose proof (detected_no_heading (candidates sentences this text ms) (processedFragments this)) as Hno.
  rewrite E in Hu, Hno. simpl in *.
  eexists _, this2. split; [apply Hpage|]. simpl. rewrite Hu.
  intros e He. apply Hno in He. split; intros Heq; rewrite Heq in He.
  - rewrite <- isHeadingOrTitle_trim in He. congruence.
  - congruence.
Qed.

(** The heading of scenario 3 and the run over its text. *)
Lemma C6_headings_are_never_reported_witness :
  isHeadingOrTitle (trim "1. Introduction") = true /\
  exists result this',
    checkPage segmenter (new_GrammarChecker default_options) "page" scenario3
    = Some (result, this') /\
    forall e, e ∈ errors result ->
      context e <> "1. Introduction" /\ context e <> trim "1. Introduction".
Proof.
  assert (isHeadingOrTitle (trim "1. Introduction") = true) as Hh by by vm_compute.
  split; [exact Hh|].
  exact (C6_headings_are_never_reported segmenter (new_GrammarChecker default_options)
           "page" scenario3 "1. Introduction" Hh).
Defined.

(** C7, as stated, fails: the same instance, run twice over the same
    text, reports an error the first time and nothing the second time. *)
Lemma C7_second_run_differs :
  exists first this1 second this2,
    checkPage segmenter (new_GrammarChecker default_options) "page" policy_sentence
    = Some (first, this1) /\
    checkPage segmenter this1 "page" policy_sentence = Some (second, this2) /\
    errors first <> errors second.
Proof.
  eexists _, _, _, _. split; [vm_compute; reflexivity|].
  split; [vm_compute; reflexivity|]. simpl. discriminate.
Qed.

(** C7, amended. The fragment set is created empty by the constructor and
    belongs to the instance, not to the run.  A run keeps what the set held
    and adds the trimmed text of every candidate it looks at: every
    sentence of the splitter with ten trimmed characters or more when the
    sentence pass is on, and every match of the three patterns; the context
    of every error it reports is among them.  A second run of the same
    instance over the same text therefore reports nothing and leaves the
    instance as it is.  In general the errors of a run are those that an
    instance with the same flag and an empty set reports for the text,
    without the errors whose context the set holds already: earlier runs
    leave a run as it is exactly when the set holds none of these
    contexts. *)
Theorem C7_fragment_set_belongs_to_the_instance
    (sentences : string -> list string) (this : GrammarChecker) (url text : string) :
  processedFragments (new_GrammarChecker (options this)) = ∅ /\
  exists ms first this1,
    all_matches patterns text = Some ms /\
    checkPage sentences this url text = Some (first, this1) /\
    processedFragments this ⊆ processedFragments this1 /\
    processedFragments this1
    = list_to_set (fragment <$> candidates sentences this text ms)
      ∪ processedFragments this /\
    (forall e, e ∈ errors first -> context e ∈ processedFragments this1) /\
    checkPage sentences this1 url text
    = Some ({| url := url; totalErrors := 0; errors := []; rawText := text |}, this1) /\
    (forall fresh,
       processedFragments fresh = ∅ ->
       detecting (options fresh) = detecting (options this) ->
       exists result fresh1,
         checkPage sentences fresh url text = Some (result, fresh1) /\
         errors first
         = filter (fun e => context e ∉ processedFragments this) (errors result) /\
         (errors first = errors result <->
          forall e, e ∈ errors result -> context e ∉ processedFragments this)).
Proof.
  split; [done|].
  destruct (pipeline_run sentences this text)
    as (ms & nlpErrors & this1 & regexErrors & this2 & Hms & Hnlp & Hre & E1 & E2 & Ho1 & Ho2 & Hpage).
  pose proof (pipeline_seen _ _ _ _ _ _ _ _ E1 E2) as Hseen.
  pose proof (pipeline_combined _ _ _ _ _ _ _ _ E1 E2) as E.
  pose proof (candidates_of_run sentences this text ms Hms) as Hrun.
  pose proof (detected_unique _ (processedFragments this) Hrun) as Hu.
  pose proof (detected_from (candidates sentences this text ms) (processedFragments this)) as Hfrom.
  rewrite E in Hu, Hfrom. simpl in *.
  eexists ms, _, this2. split; [done|]. split; [apply Hpage|]. simpl. rewrite Hu.
  split; [rewrite Hseen; set_solver|]. split; [done|]. split; [|split].
  - intros e [_ (c & Hc & He)]%Hfrom. rewrite (report_context c e He), Hseen.
    apply elem_of_union_l, elem_of_list_to_set, list_elem_of_fmap. by exists c.
  - destruct (pipeline_run sentences this2 text)
      as (ms' & nlp' & this1' & regex' & this2' & Hms' & _ & _ & E1' & E2' & Ho1' & Ho2' & Hpage').
    rewrite Hms in Hms'. inversion Hms'; subst ms'.
    assert (sentence_candidates sentences this2 text = sentence_candidates sentences this text) as Hsc.
    { unfold sentence_candidates. by rewrite Ho2. }
    assert (Forall (fun c => fragment c ∈ processedFragments this2)
              (candidates sentences this text ms)) as Hall.
    { apply Forall_forall. intros c Hc. rewrite Hseen.
      apply elem_of_union_l, elem_of_list_to_set, list_elem_of_fmap. by exists c. }
    apply Forall_app in Hall as [Hall1 Hall2].
    rewrite Hsc, (guarded_all_seen fragment report _ _ Hall1) in E1'.
    inversion E1' as [[Hn Hp1]]. rewrite <- Hp1 in E2'.
    rewrite (guarded_all_seen fragment report _ _ Hall2) in E2'.
    inversion E2' as [[Hr Hp2]].
    rewrite Hpage', <- Hn, <- Hr. simpl.
    by rewrite (checker_eq this2' this2 Ho2' (eq_sym Hp2)).
  - intros fresh Hempty Hflag.
    destruct (run_from_empty sentences this fresh url text Hempty Hflag)
      as (first & this1' & result & fresh1 & Hfirst & Hfresh & Hfilter).
    rewrite Hpage in Hfirst. injection Hfirst as <- _. simpl in Hfilter.
    rewrite Hu in Hfilter.
    exists result, fresh1. split; [done|]. split; [done|].
    rewrite Hfilter. split.
    + intros Heq e He. rewrite <- Heq in He.
      by apply list_elem_of_filter in He as [? _].
    + intros Hall. by apply filter_everything.
Qed.

(** C8, as stated, fails: under the default configuration the run over
    the text of scenario 1 reports no error at all. *)
Lemma C8_scenario1_reports_nothing :
  exists result this',
    checkPage segmenter (new_GrammarChecker default_options) "page" scenario1
    = Some (result, this') /\
    length (errors result) <> 1.
Proof. eexists _, _. split; [vm_compute; reflexivity|]. simpl. discriminate. Qed.

(** C8, amended.  Over the text of scenario 1 the default configuration
    reports nothing: the sentence pass processes the fragment "Please visit
    our site to" without reporting it, and the pattern matcher then skips
    it as processed.  With [detectIncomplete: false] the run reports exactly
    one error, of rule HANGING_PREPOSITION, whose context is that fragment
    and contains "to".  Neither run reports "Contact Us". *)
Theorem C8_scenario1 (url : string) :
  (exists this',
     checkPage segmenter (new_GrammarChecker default_options) url scenario1
     = Some ({| url := url; totalErrors := 0; errors := []; rawText := scenario1 |},
            this')) /\
  (forall sentences : string -> list string,
   exists e this',
     checkPage sentences
       (new_GrammarChecker (with_detectIncomplete default_options false)) url scenario1
     = Some ({| url := url; totalErrors := 1; errors := [e]; rawText := scenario1 |},
            this') /\
     ruleId e = HANGING_PREPOSITION /\
     context e = hanging_sentence /\
     includes (context e) "to" = true /\
     context e <> "Contact Us").
Proof.
  split.
  - eexists. vm_compute. reflexivity.
  - intros sentences. eexists _, _. split; [vm_compute; reflexivity|].
    simpl. repeat split; discriminate.
Qed.

(** C9. A text that is empty or holds white space only gives a result
    with no error and [totalErrors] 0; the run ends without a fault.  The
    sentence splitter is assumed to return only blank units for such a
    text. *)
Theorem C9_blank_text_gives_no_error
    (sentences : string -> list string) (this : GrammarChecker) (url text : string) :
  trim text = EmptyString ->
  Forall (fun unit => trim unit = EmptyString) (sentences text) ->
  checkPage sentences this url text
  = Some ({| url := url; totalErrors := 0; errors := []; rawText := text |}, this).
Proof.
  intros Hblank Hunits.
  unfold checkPage, checkRegexPatterns, detectIncompleteWithCompromise.
  assert (for_each (check_sentence text) (sentences text) (processedFragments this)
          = ([], processedFragments this)) as Hs.
  { induction Hunits as [|unit units Hu _ IH]; simpl; [done|].
    unfold check_sentence at 1. rewrite Hu. simpl. by rewrite IH. }
  rewrite Hs.
  assert (with_processed this (processedFragments this) = this) as Hthis by by destruct this.
  rewrite Hthis, (all_matches_blank patterns text patterns_need_text Hblank).
  destruct (negb (detecting (options this))); simpl; by rewrite Hthis.
Qed.

(** A text of blanks and line feeds, for which the Segmenter returns no
    unit at all. *)
Lemma C9_blank_text_gives_no_error_witness :
  trim blank_text = EmptyString /\
  Forall (fun unit => trim unit = EmptyString) (segmenter blank_text) /\
  checkPage segmenter (new_GrammarChecker default_options) "page" blank_text
  = Some ({| url := "page"; totalErrors := 0; errors := []; rawText := blank_text |},
         new_GrammarChecker default_options).
Proof.
  assert (trim blank_text = EmptyString) as Hblank by by vm_compute.
  assert (Forall (fun unit => trim unit = EmptyString) (segmenter blank_text)) as Hunits.
  { vm_compute. constructor. }
  split; [exact Hblank|]. split; [exact Hunits|].
  exact (C9_blank_text_gives_no_error segmenter (new_GrammarChecker default_options)
           "page" blank_text Hblank Hunits).
Defined.

(** C10. In the result of one run no two errors have the same trimmed
    context, whatever their rules: a fragment that a detector has processed
    is never reported again, by either detector. *)
Theorem C10_contexts_are_distinct
    (sentences : string -> list string) (this : GrammarChecker) (url text : string) :
  exists result this', 
    checkPage sentences this url text = Some (result, this') /\
    NoDup ((fun e => trim (context e)) <$> errors result) /\
    forall e, e ∈ errors result -> context e ∉ processedFragments this.
Proof.
  destruct (pipeline_run sentences this text)
    as (ms & nlpErrors & this1 & regexErrors & this2 & Hms & Hnlp & Hre & E1 & E2 & _ & _ & Hpage).
  pose proof (pipeline_combined _ _ _ _ _ _ _ _ E1 E2) as E.
  pose proof (candidates_of_run sentences this text ms Hms) as Hrun.
  pose proof (detected_unique _ (processedFragments this) Hrun) as Hu.
  pose proof (detected_NoDup (candidates sentences this text ms) (processedFragments this)) as Hnd.
  pose proof (detected_trimmed (candidates sentences this text ms) (processedFragments this)) as Htr.
  pose proof (detected_from (candidates sentences this text ms) (processedFragments this)) as Hfrom.
  rewrite E in Hu, Hnd, Htr, Hfrom. simpl in *.
  eexists _, this2. split; [apply Hpage|]. simpl. rewrite Hu. split.
  - apply (NoDup_fmap_transfer context); [|done].
    intros x y Hx Hy. by rewrite !Htr.
  - intros e He. by apply Hfrom.
Qed.

(** * Further properties of the code *)

(** ** The text of a match *)

Lemma atom_only fl P r c :
  only fl P r = true -> atom fl r c = true -> P c = true.
Proof.
  intros Hn Ha.
  assert (forallb (fun c => implb (atom fl r c) (P c)) all_codes = true) as Hall.
  { destruct r; simpl in Ha; try discriminate; exact Hn. }
  rewrite forallb_forall in Hall. specialize (Hall c (in_all_codes c)).
  rewrite Ha in Hall. exact Hall.
Qed.

Lemma span_matched p q w : span p q w -> matched p q = w.
Proof.
  intros [Hb _]. unfold matched, index. rewrite Hb, length_app, length_rev.
  replace (length w + length (before p) - length (before p)) with (length (rev w))
    by (rewrite length_rev; lia).
  by rewrite take_app_length, rev_involutive.
Qed.

Lemma matches_matched fl r p q :
  matches fl r p q -> span p q (matched p q).
Proof.
  intros Hm. destruct (matches_span fl any_char r p q Hm) as (w & Hs & _).
  by rewrite (span_matched p q w Hs).
Qed.

Lemma matches_only fl P r p q :
  matches fl r p q -> only fl P r = true ->
  Forall (fun c => P c = true) (matched p q).
Proof.
  intros Hm.
  induction Hm as [p | r c bef rest Ha | a b p q s H1 IH1 H2 IH2
                  | a b p q _ IH | a b p q _ IH
                  | lo hi a p Hstop
                  | lo hi a p q s Hhi H1 IH1 H2 IH2
                  | p | p | p]; intros Ho.
  - by rewrite (span_matched p p []).
  - rewrite (span_matched _ _ [c]) by done. constructor; [|done]. by eapply atom_only.
  - simpl in Ho. apply andb_true_iff in Ho as [Ha Hb].
    pose proof (matches_matched _ _ _ _ H1) as [B1 A1].
    pose proof (matches_matched _ _ _ _ H2) as [B2 A2].
    rewrite (span_matched p s (matched p q ++ matched q s)).
    + apply Forall_app. split; auto.
    + split; [by rewrite B2, B1, rev_app_distr, <- app_assoc
             | by rewrite A1, A2, <- app_assoc].
  - simpl in Ho. apply andb_true_iff in Ho as [Ha Hb]. auto.
  - simpl in Ho. apply andb_true_iff in Ho as [Ha Hb]. auto.
  - by rewrite (span_matched p p []).
  - simpl in Ho.
    pose proof (matches_matched _ _ _ _ H1) as [B1 A1].
    pose proof (matches_matched _ _ _ _ H2) as [B2 A2].
    rewrite (span_matched p s (matched p q ++ matched q s)).
    + apply Forall_app. split; auto.
    + split; [by rewrite B2, B1, rev_app_distr, <- app_assoc
             | by rewrite A1, A2, <- app_assoc].
  - by rewrite (span_matched p p []).
  - by rewrite (span_matched p p []).
  - by rewrite (span_matched p p []).
Qed.

Lemma length_text_of l : String.length (text_of l) = length l.
Proof. induction l as [|c l IH]; simpl; [done|]. by rewrite IH. Qed.

Lemma length_chars s : length (chars s) = String.length s.
Proof. by rewrite <- (text_of_chars s) at 2; rewrite length_text_of. Qed.

Lemma exec_loop_sound fl r T : forall fuel bef ah ms,
  rev bef ++ ah = T ->
  exec_loop fl r fuel bef ah = Some ms ->
  Forall (located T fl r) ms /\
  Forall (fun im => length bef <= fst im) ms /\
  ForallOrdPairs (fun a b => fst a + String.length (snd a) <= fst b) ms.
Proof.
  induction fuel as [|fuel IH]; intros bef ah ms HT H; simpl in H; [done|].
  destruct (search_from fl r bef ah) as [[p q]|] eqn:E.
  2:{ inversion H; subst. repeat constructor. }
  destruct (index q <=? index p); [done|].
  destruct (exec_loop fl r fuel (before q) (ahead q)) as [later|] eqn:El; [|done].
  simpl in H. inversion H; subst ms. clear H.
  apply search_from_sound in E as [Hm (sk & Hb & Ha)].
  pose proof (matches_matched fl r p q Hm) as [Bq Ap].
  assert (rev (before p) ++ ahead p = T) as Hp.
  { rewrite Hb, rev_app_distr, rev_involutive, <- app_assoc, <- Ha. done. }
  assert (rev (before q) ++ ahead q = T) as Hq.
  { rewrite Bq, rev_app_distr, rev_involutive, <- app_assoc, <- Ap. done. }
  destruct (IH (before q) (ahead q) later Hq El) as (L1 & L2 & L3).
  assert (index q = index p + length (matched p q)) as Hiq.
  { unfold index. rewrite Bq, length_app, length_rev. lia. }
  assert (length bef <= index p) as Hip.
  { unfold index. rewrite Hb, length_app. lia. }
  split; [|split].
  - constructor; [|done]. exists p, q. done.
  - constructor; [done|]. eapply Forall_impl; [exact L2|].
    intros im Him. simpl in *. unfold index in *. lia.
  - constructor; [|done]. eapply Forall_impl; [exact L2|].
    intros im Him. simpl. rewrite length_text_of. unfold index in *. lia.
Qed.

Lemma exec_all_sound fl r text ms :
  exec_all fl r text = Some ms ->
  Forall (located (chars text) fl r) ms /\
  ForallOrdPairs (fun a b => fst a + String.length (snd a) <= fst b) ms.
Proof.
  intros H. by destruct (exec_loop_sound fl r (chars text) _ [] (chars text) ms eq_refl H)
    as (? & _ & ?).
Qed.

(** A located match is the text at its index, and lies inside the
    subject. *)
Lemma located_substr fl r text im :
  located (chars text) fl r im ->
  substr text (fst im) (String.length (snd im)) = snd im /\
  fst im + String.length (snd im) <= String.length text.
Proof.
  intros (p & q & Hm & HT & Hi & Ht).
  pose proof (matches_matched fl r p q Hm) as [Bq Ap].
  unfold substr. rewrite Hi, Ht, length_text_of, <- HT, Ap.
  unfold index. rewrite <- (length_rev (before p)), drop_app_length, take_app_length.
  split; [done|].
  rewrite <- length_chars, <- HT, Ap, !length_app. lia.
Qed.

(** ** Where the errors of a run come from *)

Lemma all_matches_located ps text : forall ms,
  all_matches ps text = Some ms ->
  forall pm, pm ∈ ms ->
    fst pm ∈ ps /\
    located (chars text) (pattern.flags (fst pm)) (pattern.regex (fst pm)) (snd pm).
Proof.
  induction ps as [|pat ps IH]; intros ms H pm Hpm; unfold all_matches in H;
    fold all_matches in H.
  - inversion H; subst. by apply elem_of_nil in Hpm.
  - destruct (exec_all _ _ text) as [found|] eqn:E; [|done]. simpl in H.
    destruct (all_matches ps text) as [later|]; [|done]. simpl in H.
    inversion H; subst. apply elem_of_app in Hpm as [Hpm|Hpm].
    + apply list_elem_of_fmap in Hpm as (m & -> & Hm). split; [by left|].
      apply exec_all_sound in E as [Hl _]. rewrite Forall_forall in Hl.
      by apply Hl.
    + destruct (IH later eq_refl pm Hpm). split; [by right|done].
Qed.

Lemma report_sentence_inv text s e :
  e ∈ report (FromSentence text s) ->
  e = missing_punctuation_error text s /\
  shouldSkipText s = false /\
  ends_with_punctuation (trim s) = false /\
  isContentSentence s = true.
Proof.
  simpl. unfold sentence_out.
  destruct (shouldSkipText s); [by intros ?%elem_of_nil|].
  destruct (isHeadingOrTitle _); [by intros ?%elem_of_nil|].
  destruct (ends_with_punctuation _); simpl; [by intros ?%elem_of_nil|].
  destruct (isContentSentence s); [|by intros ?%elem_of_nil].
  by intros ->%list_elem_of_singleton.
Qed.

Lemma report_match_inv pm e :
  e ∈ report (FromMatch pm) ->
  e = pattern_error (fst pm) (snd pm) /\
  isHeadingOrTitle (trim (snd (snd pm))) = false.
Proof.
  simpl. unfold match_out.
  destruct (isHeadingOrTitle _); [by intros ?%elem_of_nil|].
  destruct (_ && _); [by intros ?%elem_of_nil|].
  by intros ->%list_elem_of_singleton.
Qed.

(** Every error of a result is the error of a sentence of the splitter or
    of a match of one of the patterns. *)
Lemma run_origin sentences this url text :
  exists result this' ms nlpErrors regexErrors,
    checkPage sentences this url text = Some (result, this') /\
    all_matches patterns text = Some ms /\
    errors result = nlpErrors ++ regexErrors /\
    (forall e, e ∈ nlpErrors ->
       exists s, s ∈ sentences text /\ too_short s = false /\
                 e ∈ report (FromSentence text s)) /\
    (forall e, e ∈ regexErrors -> exists pm, pm ∈ ms /\ e ∈ report (FromMatch pm)).
Proof.
  destruct (pipeline_run sentences this text)
    as (ms & nlpErrors & this1 & regexErrors & this2 & Hms & Hnlp & Hre & E1 & E2 & _ & _ & Hpage).
  pose proof (pipeline_combined _ _ _ _ _ _ _ _ E1 E2) as E.
  pose proof (candidates_of_run sentences this text ms Hms) as Hrun.
  pose proof (detected_unique _ (processedFragments this) Hrun) as Hu.
  rewrite E in Hu. simpl in Hu.
  eexists _, this2, ms, nlpErrors, regexErrors.
  split; [apply Hpage|]. split; [done|]. split; [done|]. split.
  - intros e He.
    pose proof (guarded_reported fragment report report_context
                  (sentence_candidates sentences this text) (processedFragments this) e) as Hr.
    rewrite E1 in Hr. destruct (Hr He) as [_ (c & Hc & Hec)].
    unfold sentence_candidates in Hc. destruct (detecting _); [|by apply elem_of_nil in Hc].
    apply list_elem_of_fmap in Hc as (s & -> & Hs).
    apply list_elem_of_filter in Hs as [Hshort Hs]. by exists s.
  - intros e He.
    pose proof (guarded_reported fragment report report_context
                  (FromMatch <$> ms) (processedFragments this1) e) as Hr.
    rewrite E2 in Hr. destruct (Hr He) as [_ (c & Hc & Hec)].
    apply list_elem_of_fmap in Hc as (pm & -> & Hpm). by exists pm.
Qed.

Lemma trim_start_Forall (P : ascii -> Prop) l : Forall P l -> Forall P (trim_start l).
Proof.
  induction 1 as [|c l Hc Hl IH]; simpl; [constructor|].
  destruct (Char.is_space c); [done|by constructor].
Qed.

Lemma trim_chars_Forall (P : ascii -> Prop) l : Forall P l -> Forall P (trim_chars l).
Proof.
  intros H. unfold trim_chars.
  by apply Forall_rev, trim_start_Forall, Forall_rev, trim_start_Forall.
Qed.

Lemma trim_Forall (P : ascii -> Prop) s :
  Forall P (chars s) -> Forall P (chars (trim s)).
Proof. intros H. unfold trim. rewrite chars_text_of. by apply trim_chars_Forall. Qed.

Lemma located_not_blank fl r text im :
  needs fl not_space r = true ->
  located (chars text) fl r im -> trim (snd im) <> EmptyString.
Proof.
  intros Hn (p & q & Hm & _ & _ & Ht) Hblank.
  apply blank_all_space in Hblank. rewrite Ht, chars_text_of in Hblank.
  destruct (matches_span fl not_space r p q Hm) as (w & Hs & Hw).
  rewrite (span_matched p q w Hs) in Hblank.
  specialize (Hw Hn). apply Exists_exists in Hw as (c & Hc & Hns).
  rewrite Forall_forall in Hblank. apply Hblank in Hc.
  unfold not_space in Hns. by rewrite Hc in Hns.
Qed.

Lemma patterns_need fl_r (P : pattern.t -> Prop) :
  Forall P patterns -> fl_r ∈ patterns -> P fl_r.
Proof. rewrite Forall_forall. auto. Qed.

(** X1. In [checkPage] the final pass [deduplicateErrors] removes nothing:
    the errors of the result are the errors of the sentence pass, in the
    order of the sentences, followed by the errors of the pattern matcher. *)
Theorem X1_final_pass_removes_nothing
    (sentences : string -> list string) (this : GrammarChecker) (url text : string) :
  exists nlpErrors this1 regexErrors this2 result,
    detectIncompleteWithCompromise sentences this text = (nlpErrors, this1) /\
    checkRegexPatterns this1 text = Some (regexErrors, this2) /\
    checkPage sentences this url text = Some (result, this2) /\
    deduplicateErrors (nlpErrors ++ regexErrors) = nlpErrors ++ regexErrors /\
    errors result = nlpErrors ++ regexErrors /\
    totalErrors result = length nlpErrors + length regexErrors.
Proof.
  destruct (pipeline_run sentences this text)
    as (ms & nlpErrors & this1 & regexErrors & this2 & Hms & Hnlp & Hre & E1 & E2 & _ & _ & Hpage).
  pose proof (pipeline_combined _ _ _ _ _ _ _ _ E1 E2) as E.
  pose proof (candidates_of_run sentences this text ms Hms) as Hrun.
  pose proof (detected_unique _ (processedFragments this) Hrun) as Hu.
  rewrite E in Hu. simpl in Hu.
  exists nlpErrors, this1, regexErrors, this2. eexists.
  split; [done|]. split; [done|]. split; [apply Hpage|]. simpl.
  rewrite Hu, length_app. done.
Qed.

(** X2. Every error of a result of [checkPage] has one of the four rule
    identifiers of [grammarChecker.ts]; the rule POSSIBLE_INCOMPLETE_SENTENCE
    of [sentenceAnalyzer.ts] is never reported.  The sentence pass reports
    MISSING_END_PUNCTUATION only, the pattern matcher the three pattern
    rules only. *)
Theorem X2_rules_of_a_result
    (sentences : string -> list string) (this : GrammarChecker) (url text : string) :
  exists nlpErrors this1 regexErrors this2 result,
    detectIncompleteWithCompromise sentences this text = (nlpErrors, this1) /\
    checkRegexPatterns this1 text = Some (regexErrors, this2) /\
    checkPage sentences this url text = Some (result, this2) /\
    (forall e, e ∈ nlpErrors -> ruleId e = MISSING_END_PUNCTUATION) /\
    (forall e, e ∈ regexErrors -> ruleId e ∈ pattern_rules) /\
    (forall e, e ∈ errors result ->
       ruleId e ∈ known_rules /\ ruleId e <> POSSIBLE_INCOMPLETE_SENTENCE).
Proof.
  destruct (pipeline_run sentences this text)
    as (ms & nlpErrors & this1 & regexErrors & this2 & Hms & Hnlp & Hre & E1 & E2 & _ & _ & Hpage).
  pose proof (pipeline_combined _ _ _ _ _ _ _ _ E1 E2) as E.
  pose proof (candidates_of_run sentences this text ms Hms) as Hrun.
  pose proof (detected_unique _ (processedFragments this) Hrun) as Hu.
  pose proof (detected_rule _ (processedFragments this) Hrun) as Hrule.
  rewrite E in Hu, Hrule. simpl in Hu, Hrule.
  exists nlpErrors, this1, regexErrors, this2. eexists.
  split; [done|]. split; [done|]. split; [apply Hpage|]. simpl. rewrite Hu.
  split; [|split].
  - intros e He.
    pose proof (guarded_reported fragment report report_context
                  (sentence_candidates sentences this text) (processedFragments this) e) as Hr.
    rewrite E1 in Hr. destruct (Hr He) as [_ (c & Hc & Hec)].
    unfold sentence_candidates in Hc. destruct (detecting _); [|by apply elem_of_nil in Hc].
    apply list_elem_of_fmap in Hc as (s & -> & Hs). by eapply report_sentence_rule.
  - intros e He.
    pose proof (guarded_reported fragment report report_context
                  (FromMatch <$> ms) (processedFragments this1) e) as Hr.
    rewrite E2 in Hr. destruct (Hr He) as [_ (c & Hc & Hec)].
    apply list_elem_of_fmap in Hc as (pm & -> & Hpm).
    eapply report_match_rule; [|done]. by eapply all_matches_from.
  - intros e He. split; [by apply Hrule|].
    intros Heq. apply Hrule in He. rewrite Heq in He. unfold known_rules in He.
    repeat (apply elem_of_cons in He as [He|He]; [discriminate|]).
    by apply elem_of_nil in He.
Qed.

(** X3. Every error of a result has a context that is trimmed and not
    empty, and a list of suggestions that is not empty.  For
    MISSING_END_PUNCTUATION it is the one fixed suggestion.  For a pattern
    rule the error carries the message and the suggestion of the pattern
    with that rule, and the suggestion is followed by "Add proper
    punctuation": the three lists are spelled out. *)
Theorem X3_shape_of_an_error
    (sentences : string -> list string) (this : GrammarChecker) (url text : string) :
  exists result this',
    checkPage sentences this url text = Some (result, this') /\
    forall e, e ∈ errors result ->
      context e <> EmptyString /\ trim (context e) = context e /\
      suggestions e <> [] /\
      (ruleId e = MISSING_END_PUNCTUATION ->
       suggestions e
       = ["Add appropriate ending punctuation (period, exclamation mark, or question mark)"]) /\
      (ruleId e ∈ pattern_rules ->
       exists pat, pat ∈ patterns /\ pattern.ruleId pat = ruleId e /\
                   message e = pattern.message pat /\
                   suggestions e = [pattern.suggestion pat; "Add proper punctuation"]) /\
      (ruleId e = INCOMPLETE_TRANSITIVE_VERB ->
       suggestions e
       = ["Complete the sentence by specifying what is recognized or responded to";
          "Add proper punctuation"]) /\
      (ruleId e = HANGING_PREPOSITION ->
       suggestions e
       = ["Complete the prepositional phrase with an object"; "Add proper punctuation"]) /\
      (ruleId e = INCOMPLETE_BROWSER_INITIATED ->
       suggestions e
       = ["Complete the sentence with what happens with browser-initiated requests/actions";
          "Add proper punctuation"]).
Proof.
  destruct (run_origin sentences this url text)
    as (result & this' & ms & nlpErrors & regexErrors & Hpage & Hms & Herr & Hn & Hr).
  exists result, this'. split; [done|]. rewrite Herr.
  intros e [He|He]%elem_of_app.
  - destruct (Hn e He) as (s & Hs & Hshort & Hrep).
    apply report_sentence_inv in Hrep as (-> & _). simpl.
    split; [|split; [apply trim_idemp|split; [done|split; [done|split]]]].
    + unfold too_short in Hshort. apply orb_false_iff in Hshort as [Hne _].
      intros Heq. by rewrite Heq in Hne.
    + intros Hin. by apply missing_is_no_pattern_rule in Hin.
    + repeat split; intros Heq; by vm_compute in Heq.
  - destruct (Hr e He) as (pm & Hpm & Hrep).
    apply report_match_inv in Hrep as (-> & _). simpl.
    destruct (all_matches_located patterns text ms Hms pm Hpm) as [Hpat Hloc].
    split; [|split; [apply trim_idemp|split; [done|split; [|split]]]].
    + eapply located_not_blank; [|exact Hloc].
      exact (patterns_need (fst pm) _ patterns_need_text Hpat).
    + intros Heq. exfalso.
      assert (pattern.ruleId (fst pm) ∈ pattern_rules) as Hin.
      { unfold patterns in Hpat.
        repeat (apply elem_of_cons in Hpat as [-> | Hpat];
                [simpl; unfold pattern_rules; set_solver|]).
        by apply elem_of_nil in Hpat. }
      rewrite Heq in Hin. by apply missing_is_no_pattern_rule in Hin.
    + intros _. by exists (fst pm).
    + unfold patterns in Hpat.
      repeat (apply elem_of_cons in Hpat as [-> | Hpat];
              [simpl; repeat split; intros Heq;
               first [reflexivity | by vm_compute in Heq]|]).
      by apply elem_of_nil in Hpat.
Qed.

(** X4. The position of an error of the pattern matcher locates its match
    in the text: the offset and the length stay inside the text, and the
    text cut out there, once trimmed, is the context of the error. *)
Theorem X4_position_of_a_pattern_error (this : GrammarChecker) (text : string) :
  exists regexErrors this',
    checkRegexPatterns this text = Some (regexErrors, this') /\
    forall e, e ∈ regexErrors ->
      exists offset,
        position.offset (position e) = Z.of_nat offset /\
        offset + position.length (position e) <= String.length text /\
        trim (substr text offset (position.length (position e))) = context e.
Proof.
  destruct (all_matches_total patterns text patterns_consume) as [ms Hms].
  unfold checkRegexPatterns. rewrite Hms. simpl. rewrite matches_guarded.
  destruct (for_each _ (FromMatch <$> ms) _) as [regexErrors seen] eqn:E.
  eexists _, _. split; [done|]. intros e He.
  pose proof (guarded_reported fragment report report_context
                (FromMatch <$> ms) (processedFragments this) e) as Hr.
  rewrite E in Hr. destruct (Hr He) as [_ (c & Hc & Hec)].
  apply list_elem_of_fmap in Hc as (pm & -> & Hpm).
  apply report_match_inv in Hec as (-> & _).
  destruct (all_matches_located patterns text ms Hms pm Hpm) as [_ Hloc].
  apply located_substr in Hloc as [Hsub Hle].
  exists (fst (snd pm)). simpl. by rewrite Hsub.
Qed.

Lemma patterns_without_terminator pat :
  pat ∈ patterns ->
  pattern.ruleId pat ∈ [HANGING_PREPOSITION; INCOMPLETE_BROWSER_INITIATED] ->
  only (pattern.flags pat) not_terminator (pattern.regex pat) = true.
Proof.
  unfold patterns. intros Hpat Hrule.
  repeat (apply elem_of_cons in Hpat as [-> | Hpat]; [try by vm_compute|]).
  - simpl in Hrule. exfalso.
    repeat (apply elem_of_cons in Hrule as [Hrule|Hrule]; [discriminate|]).
    by apply elem_of_nil in Hrule.
  - by apply elem_of_nil in Hpat.
Qed.

(** X5. The context of a HANGING_PREPOSITION or INCOMPLETE_BROWSER_INITIATED
    error holds no full stop, exclamation mark or question mark: such a
    match never runs across the end of a sentence. *)
Theorem X5_no_terminator_in_a_context
    (sentences : string -> list string) (this : GrammarChecker) (url text : string) :
  exists result this',
    checkPage sentences this url text = Some (result, this') /\
    forall e, e ∈ errors result ->
      ruleId e ∈ [HANGING_PREPOSITION; INCOMPLETE_BROWSER_INITIATED] ->
      Forall (fun c => c <> "."%char /\ c <> "!"%char /\ c <> "?"%char)
             (chars (context e)).
Proof.
  destruct (run_origin sentences this url text)
    as (result & this' & ms & nlpErrors & regexErrors & Hpage & Hms & Herr & Hn & Hr).
  exists result, this'. split; [done|]. rewrite Herr.
  intros e [He|He]%elem_of_app Hrule.
  - destruct (Hn e He) as (s & Hs & Hshort & Hrep).
    apply report_sentence_rule in Hrep. rewrite Hrep in Hrule. exfalso.
    repeat (apply elem_of_cons in Hrule as [Hrule|Hrule]; [discriminate|]).
    by apply elem_of_nil in Hrule.
  - destruct (Hr e He) as (pm & Hpm & Hrep).
    apply report_match_inv in Hrep as (-> & _). simpl in *.
    destruct (all_matches_located patterns text ms Hms pm Hpm)
      as [Hpat (p & q & Hm & _ & _ & Ht)].
    apply trim_Forall. rewrite Ht, chars_text_of.
    eapply Forall_impl;
      [exact (matches_only _ not_terminator _ p q Hm
                (patterns_without_terminator (fst pm) Hpat Hrule))|].
    intros c Hc. unfold not_terminator, is_terminator, class_mem in Hc. simpl in Hc.
    unfold Char.eqb in Hc.
    repeat split; intros ->; by vm_compute in Hc.
Qed.

(** X6. The context of a MISSING_END_PUNCTUATION error has at least ten
    characters and ends in none of the full stop, the exclamation mark, the
    question mark and the colon. *)
Theorem X6_context_of_a_missing_punctuation_error
    (sentences : string -> list string) (this : GrammarChecker) (url text : string) :
  exists result this',
    checkPage sentences this url text = Some (result, this') /\
    forall e, e ∈ errors result -> ruleId e = MISSING_END_PUNCTUATION ->
      10 <= String.length (context e) /\
      lacks_terminal_punctuation (context e) = true /\
      colon_at_end (context e) = false.
Proof.
  destruct (run_origin sentences this url text)
    as (result & this' & ms & nlpErrors & regexErrors & Hpage & Hms & Herr & Hn & Hr).
  exists result, this'. split; [done|]. rewrite Herr.
  intros e [He|He]%elem_of_app Hrule.
  - destruct (Hn e He) as (s & Hs & Hshort & Hrep).
    apply report_sentence_inv in Hrep as (-> & _ & Hend & Hcontent). simpl.
    rewrite ends_with_punctuation_spec in Hend. apply negb_false_iff in Hend.
    rewrite isContentSentence_spec in Hcontent. unfold content_test in Hcontent.
    apply andb_true_iff in Hcontent as [[[_ _]%andb_true_iff Hcolon%negb_true_iff]%andb_true_iff _].
    unfold too_short in Hshort. apply orb_false_iff in Hshort as [_ Hlen%Nat.ltb_ge].
    done.
  - destruct (Hr e He) as (pm & Hpm & Hrep). exfalso.
    destruct (all_matches_located patterns text ms Hms pm Hpm) as [Hpat _].
    apply (report_match_rule pm e Hpat) in Hrep. rewrite Hrule in Hrep.
    by apply missing_is_no_pattern_rule in Hrep.
Qed.

(** X7. The three [while] loops of [checkRegexPatterns] end for every
    text: no pattern matches the empty string, so every [exec] moves
    [lastIndex] forward.  The matches of one pattern are not empty, lie
    inside the text at their index, do not overlap and come in the order of
    the text. *)
Theorem X7_pattern_loops_end (this : GrammarChecker) (text : string) :
  is_Some (checkRegexPatterns this text) /\
  Forall (fun pat =>
            exists ms,
              exec_all (pattern.flags pat) (pattern.regex pat) text = Some ms /\
              Forall (fun im =>
                        snd im <> EmptyString /\
                        substr text (fst im) (String.length (snd im)) = snd im /\
                        fst im + String.length (snd im) <= String.length text) ms /\
              ForallOrdPairs
                (fun a b => fst a + String.length (snd a) <= fst b) ms)
         patterns.
Proof.
  split.
  - destruct (all_matches_total patterns text patterns_consume) as [ms Hms].
    unfold checkRegexPatterns. rewrite Hms. simpl. by destruct (for_each _ ms _).
  - pose proof patterns_consume as Hc. pose proof patterns_need_text as Hn.
    induction Hc as [|pat ps Hpat Hc IH]; [constructor|].
    apply Forall_cons in Hn as [Hnpat Hn].
    constructor; [|by apply IH].
    destruct (exec_all_total _ _ text Hpat) as [ms Hms]. exists ms.
    split; [done|]. apply exec_all_sound in Hms as [Hloc Hord].
    split; [|done]. eapply Forall_impl; [exact Hloc|].
    intros im Him. split; [|by eapply located_substr].
    intros Hempty. eapply located_not_blank; [exact Hnpat|exact Him|].
    by rewrite Hempty.
Qed.

(** X8. [deduplicateErrors] keeps a sub-list of its input, in the order of
    the input, with pairwise different keys; every error of the input has
    its key in the output, the first error with a given key is the one that
    is kept, and a second pass changes nothing. *)
Theorem X8_deduplicateErrors (errors : list GrammarError) :
  sublist (deduplicateErrors errors) errors /\
  NoDup (dedup_key <$> deduplicateErrors errors) /\
  (forall e, e ∈ errors ->
     exists e', e' ∈ deduplicateErrors errors /\ dedup_key e' = dedup_key e) /\
  (forall earlier e later,
     errors = earlier ++ e :: later ->
     (forall x, x ∈ earlier -> dedup_key x <> dedup_key e) ->
     e ∈ deduplicateErrors errors) /\
  deduplicateErrors (deduplicateErrors errors) = deduplicateErrors errors.
Proof.
  assert (forall l seen, sublist (dedup_loop l seen) l) as Hsub.
  { induction l as [|x l IH]; intros seen; simpl; [constructor|].
    case_decide; [by apply sublist_cons|by apply sublist_skip]. }
  assert (forall earlier seen e later,
            (forall x, x ∈ earlier -> dedup_key x <> dedup_key e) ->
            dedup_key e ∉ seen ->
            e ∈ dedup_loop (earlier ++ e :: later) seen) as Hfirst.
  { induction earlier as [|x l IH]; intros seen e later Hne Hs; simpl.
    - rewrite decide_False by done. by left.
    - case_decide.
      + apply IH; [|done]. intros y Hy. apply Hne. by right.
      + right. apply IH; [intros y Hy; apply Hne; by right|].
        apply not_elem_of_union. split; [|done].
        intros Heq%elem_of_singleton. apply (Hne x); [by left|done]. }
  unfold deduplicateErrors. split; [apply Hsub|]. split; [apply dedup_loop_NoDup|].
  split; [|split].
  - intros e He.
    destruct (dedup_loop_covers errors ∅ e He) as [?|?]; [set_solver|done].
  - intros earlier e later -> Hne. apply Hfirst; [done|set_solver].
  - apply dedup_loop_id; [apply dedup_loop_NoDup|set_solver].
Qed.

(** X9. A text that [shouldSkipText] lets through is not blank and is no
    heading, trimmed or not; and [shouldSkipText] gives the same answer for
    the trimmed text.  So the heading test that follows it in the sentence
    pass never rejects anything. *)
Theorem X9_shouldSkipText_covers_headings (text : string) :
  shouldSkipText text = false ->
  trim text <> EmptyString /\
  isHeadingOrTitle text = false /\
  isHeadingOrTitle (trim text) = false /\
  shouldSkipText (trim text) = false.
Proof.
  intros H.
  assert (shouldSkipText (trim text) = shouldSkipText text) as Htrim.
  { unfold shouldSkipText. by rewrite trim_idemp. }
  unfold shouldSkipText in H.
  destruct (is_empty (trim text)) eqn:He; [done|].
  destruct (isHeadingOrTitle (trim text)) eqn:Hh; [done|].
  split; [by intros Heq; rewrite Heq in He|].
  split; [by rewrite <- isHeadingOrTitle_trim|].
  split; [done|]. rewrite Htrim. unfold shouldSkipText. by rewrite He, Hh.
Qed.

(** A sentence is let through. *)
Lemma X9_shouldSkipText_covers_headings_witness :
  shouldSkipText policy_sentence = false /\
  trim policy_sentence <> EmptyString /\
  isHeadingOrTitle policy_sentence = false /\
  isHeadingOrTitle (trim policy_sentence) = false /\
  shouldSkipText (trim policy_sentence) = false.
Proof.
  assert (shouldSkipText policy_sentence = false) as H by by vm_compute.
  split; [exact H|]. exact (X9_shouldSkipText_covers_headings policy_sentence H).
Defined.

(** X10. The known section titles are recognised whatever their case and
    the white space around them: a text whose trimmed, lower-cased form is
    in the list is a heading. *)
Theorem X10_section_titles_in_any_case (text : string) :
  toLowerCase (trim text) ∈ commonTitles ->
  isHeadingOrTitle text = true.
Proof.
  intros Hin. unfold isHeadingOrTitle.
  destruct (is_empty (trim text)) eqn:He.
  { exfalso. destruct (trim text); [|done]. vm_compute in Hin.
    repeat (apply elem_of_cons in Hin as [Hin|Hin]; [discriminate|]).
    by apply elem_of_nil in Hin. }
  repeat (match goal with |- (if ?b then true else _) = true => destruct b; [done|] end).
  apply existsb_exists. exists (toLowerCase (trim text)).
  split; [by apply list_elem_of_In|]. unfold string_eqb. by apply String.eqb_eq.
Qed.

Lemma X10_section_titles_in_any_case_witness :
  toLowerCase (trim shouted_title) ∈ commonTitles /\
  isHeadingOrTitle shouted_title = true.
Proof.
  assert (toLowerCase (trim shouted_title) ∈ commonTitles) as H.
  { vm_compute. do 4 right. left. }
  split; [exact H|]. exact (X10_section_titles_in_any_case shouted_title H).
Defined.

(** ** [analyzeText]: what is reported *)

Lemma for_each_Forall {X} (Q : GrammarError -> Prop)
    (body : X -> gset string -> list GrammarError * gset string) :
  (forall x reported, Forall Q (body x reported).1) ->
  forall xs reported, Forall Q (for_each body xs reported).1.
Proof.
  intros Hbody. induction xs as [|x xs IH]; intros reported; simpl; [constructor|].
  specialize (Hbody x reported). destruct (body x reported) as [pushed seen1].
  specialize (IH seen1). destruct (for_each body xs seen1) as [later seen2].
  simpl in *. by apply Forall_app.
Qed.

Lemma all_space_trim l :
  Forall (fun c => Char.is_space c = true) l -> trim_chars l = [].
Proof.
  intros H. unfold trim_chars.
  assert (trim_start l = []) as ->.
  { induction H as [|c l Hc _ IH]; simpl; [done|]. by rewrite Hc. }
  done.
Qed.

Lemma split_blank_lines_blank l : forall piece in_gap,
  Forall (fun c => Char.is_space c = true) l ->
  Forall (fun c => Char.is_space c = true) piece ->
  Forall (fun paragraph => trim paragraph = EmptyString)
         (split_blank_lines l piece in_gap).
Proof.
  assert (forall piece, Forall (fun c => Char.is_space c = true) piece ->
                        trim (text_of (rev piece)) = EmptyString) as Hpiece.
  { intros piece Hp. unfold trim. rewrite chars_text_of, all_space_trim; [done|].
    by apply Forall_rev. }
  induction l as [|c l IH]; intros piece in_gap Hl Hp; simpl.
  - constructor; [by apply Hpiece|constructor].
  - apply Forall_cons in Hl as [Hc Hl].
    destruct (in_gap && is_lf c); [by apply IH|].
    destruct (is_lf c && _).
    + constructor; [by apply Hpiece|]. by apply IH.
    + apply IH; [done|by constructor].
Qed.

Section AnalyzeTextReports.

Variables isCookieConsent looksLikeCodeOrCSS looksLikeNavigation
          isLikelyUIElement isLikelySentence : string -> bool.
Variables ignorePatterns incompletePatterns : list (string -> bool).
Variable extractSentences : string -> list string.

Let analyze :=
  analyzeText isCookieConsent looksLikeCodeOrCSS looksLikeNavigation
    isLikelyUIElement isLikelySentence ignorePatterns incompletePatterns
    extractSentences.

Abbreviation gate :=
  (passed_every_gate isCookieConsent looksLikeCodeOrCSS looksLikeNavigation
     isLikelyUIElement isLikelySentence ignorePatterns incompletePatterns).

Lemma analyze_sentence_gates paragraph sentence reported :
  Forall gate
    (analyze_sentence isCookieConsent looksLikeCodeOrCSS looksLikeNavigation
       isLikelyUIElement isLikelySentence ignorePatterns incompletePatterns
       paragraph sentence reported).1.
Proof.
  unfold analyze_sentence.
  destruct (_ || _) eqn:Hshort; [constructor|].
  apply orb_false_iff in Hshort as [_ Hlen%Nat.ltb_ge].
  destruct (isCookieConsent _) eqn:H1; [constructor|].
  destruct (some_pattern ignorePatterns _) eqn:H2; [constructor|].
  destruct (looksLikeCodeOrCSS _) eqn:H3; [constructor|].
  destruct (looksLikeNavigation _) eqn:H4; [constructor|].
  destruct (isLikelyUIElement _) eqn:H5; [constructor|].
  destruct (overlaps_reported _ _); [constructor|].
  destruct (_ && _) eqn:Hmiss.
  - destruct (isLikelySentence _) eqn:H6; [|constructor].
    apply andb_true_iff in Hmiss as [Hend _].
    rewrite ends_with_punctuation_spec, negb_involutive in Hend.
    constructor; [|constructor]. unfold passed_every_gate. simpl.
    rewrite trim_idemp. repeat (split; [done|]). left. done.
  - destruct (some_pattern incompletePatterns _) eqn:H7; [|constructor].
    destruct (isLikelySentence _) eqn:H6; [|constructor].
    constructor; [|constructor]. unfold passed_every_gate. simpl.
    rewrite trim_idemp. repeat (split; [done|]). right. done.
Qed.


(** X12. For a text that is empty or holds white space only,
    [analyzeText] returns no error, whatever the predicates of the class
    answer. *)
Theorem X12_analyzeText_blank (text : string) :
  trim text = EmptyString -> analyze text = [].
Proof.
  intros Hblank. apply blank_all_space in Hblank.
  unfold analyze, analyzeText, paragraphs_of.
  pose proof (split_blank_lines_blank (chars text) [] false Hblank
                (List.Forall_nil _)) as Hp.
  generalize (∅ : gset string) as reported.
  induction Hp as [|paragraph ps Hpar _ IH]; intros reported; simpl; [done|].
  unfold analyze_paragraph at 1. rewrite Hpar. simpl.
  specialize (IH reported). by destruct (for_each _ ps reported).
Qed.

End AnalyzeTextReports.

(** A text of blanks and line feeds, with predicates that accept every
    sentence. *)
Lemma X12_analyzeText_blank_witness :
  trim blank_text = EmptyString /\
  analyzeText (fun _ => false) (fun _ => false) (fun _ => false)
    (fun _ => false) (fun _ => true) [] [fun _ => true]
    (fun paragraph => spans (chars paragraph) []) blank_text = [].
Proof.
  assert (trim blank_text = EmptyString) as H by by vm_compute.
  split; [exact H|].
  exact (X12_analyzeText_blank (fun _ => false) (fun _ => false) (fun _ => false)
           (fun _ => false) (fun _ => true) [] [fun _ => true]
           (fun paragraph => spans (chars paragraph) []) blank_text H).
Defined.

(** X13. One instance never reports a context twice, also across runs
    over different texts: the second of two consecutive runs reports no
    context that the first run reported, and (when the sentence pass is on)
    no sentence of ten characters or more of the first text, reported or
    not. *)
Theorem X13_no_context_twice_across_runs
    (sentences : string -> list string) (this : GrammarChecker)
    (url1 text1 url2 text2 : string) :
  exists first this1 second this2,
    checkPage sentences this url1 text1 = Some (first, this1) /\
    checkPage sentences this1 url2 text2 = Some (second, this2) /\
    (forall e1 e2, e1 ∈ errors first -> e2 ∈ errors second ->
                   context e1 <> context e2) /\
    (forall s e2, detecting (options this) = true ->
                  s ∈ sentences text1 -> too_short s = false ->
                  e2 ∈ errors second -> context e2 <> trim s).
Proof.
  destruct (pipeline_run sentences this text1)
    as (ms & nlpErrors & this1 & regexErrors & this2 & Hms & _ & _ & E1 & E2 & _ & _ & Hpage).
  pose proof (pipeline_seen _ _ _ _ _ _ _ _ E1 E2) as Hseen.
  pose proof (pipeline_combined _ _ _ _ _ _ _ _ E1 E2) as E.
  pose proof (candidates_of_run sentences this text1 ms Hms) as Hrun.
  pose proof (detected_unique _ (processedFragments this) Hrun) as Hu.
  pose proof (detected_from (candidates sentences this text1 ms) (processedFragments this)) as Hfrom.
  rewrite E in Hu, Hfrom. simpl in Hu, Hfrom.
  destruct (pipeline_run sentences this2 text2)
    as (ms' & nlp' & this1' & regex' & this2' & Hms' & _ & _ & E1' & E2' & _ & _ & Hpage').
  pose proof (pipeline_combined _ _ _ _ _ _ _ _ E1' E2') as E'.
  pose proof (candidates_of_run sentences this2 text2 ms' Hms') as Hrun'.
  pose proof (detected_unique _ (processedFragments this2) Hrun') as Hu'.
  pose proof (detected_from (candidates sentences this2 text2 ms') (processedFragments this2)) as Hfrom'.
  rewrite E' in Hu', Hfrom'. simpl in Hu', Hfrom'.
  eexists _, this2, _, this2'. split; [apply Hpage|]. split; [apply Hpage'|].
  simpl. rewrite Hu, Hu'. split.
  - intros e1 e2 [_ (c & Hc & He1)]%Hfrom [Hnew _]%Hfrom' Heq.
    apply Hnew. rewrite <- Heq, (report_context c e1 He1), Hseen.
    apply elem_of_union_l, elem_of_list_to_set, list_elem_of_fmap. by exists c.
  - intros s e2 Hd Hs Hshort [Hnew _]%Hfrom' Heq.
    apply Hnew. rewrite Heq, Hseen.
    apply elem_of_union_l, elem_of_list_to_set, list_elem_of_fmap.
    exists (FromSentence text1 s). split; [done|].
    unfold candidates, sentence_candidates. rewrite Hd.
    apply elem_of_app. left. apply list_elem_of_fmap. exists s. split; [done|].
    by apply list_elem_of_filter.
Qed.

(** ** The command line *)

Lemma args_ind (P : list string -> Prop) :
  P [] ->
  (forall arg rest, P rest -> P (tail rest) -> P (arg :: rest)) ->
  forall args, P args.
Proof.
  intros H0 Hs args. enough (P args /\ P (tail args)) by tauto.
  induction args as [|arg rest [IH1 IH2]]; simpl; [by split|].
  split; [by apply Hs|done].
Qed.

Lemma follows_cons long short v arg args :
  follows long short v args -> follows long short v (arg :: args).
Proof. intros (i & a & H1 & H2 & H3). by exists (S i), a. Qed.

Lemma follows_here long short v arg args :
  is_one_of arg long short = true -> follows long short v (arg :: v :: args).
Proof. intros H. by exists 0, arg. Qed.

Lemma has_flag_cons long short arg args :
  has_flag long short args -> has_flag long short (arg :: args).
Proof. intros (a & H1 & H2). exists a. split; [by right|done]. Qed.

Lemma has_flag_here long short arg args :
  is_one_of arg long short = true -> has_flag long short (arg :: args).
Proof. intros H. exists arg. split; [left|done]. Qed.

Lemma string_eqb_eq a b : string_eqb a b = true <-> a = b.
Proof. apply String.eqb_eq. Qed.

Lemma is_one_of_spec arg long short :
  is_one_of arg long short = true <-> arg = long \/ arg = short.
Proof.
  unfold is_one_of. rewrite orb_true_iff, !string_eqb_eq. tauto.
Qed.

Lemma parsed_from_refl args o : parsed_from args o o.
Proof. unfold parsed_from. repeat split; auto. Qed.

Ltac provenance_value H :=
  let v := fresh "v" in
  let Hv := fresh "Hv" in
  let E := fresh "E" in
  intros v Hv; destruct (H v Hv) as [E|E];
  [ first [ left; exact E
          | injection E as <-; right; solve [eauto using follows_here]
          | discriminate E ]
  | right; solve [eauto using follows_cons] ].

Ltac provenance_flag H :=
  let E := fresh "E" in
  let F := fresh "F" in
  destruct H as [E|[E F]];
  [ first [ left; exact E
          | right; split; [exact E|];
            first [ solve [eauto using has_flag_here] | set_solver ] ]
  | right; split; [exact E|];
    first [ solve [eauto using has_flag_cons] | set_solver ] ].

Ltac provenance :=
  match goal with
  | H : parsed_from _ _ _ |- _ =>
      destruct H as (Hu & Hl & Hf & Hp & Hr & Hh & Hd); simpl in Hu, Hl, Hf, Hp, Hr, Hh, Hd;
      unfold parsed_from;
      split; [exact Hu|];
      split; [provenance_value Hl|];
      split; [provenance_value Hf|];
      split; [provenance_value Hp|];
      split; [provenance_flag Hr|];
      split; [provenance_flag Hh|provenance_flag Hd]
  end.

Lemma parseArgs_loop_inv args :
  forall before after,
    parseArgs_loop args before = Parsed after -> parsed_from args before after.
Proof.
  induction args as [|arg rest IH1 IH2] using args_ind; intros o0 o H; simpl in H.
  { injection H as <-. apply parsed_from_refl. }
  destruct (is_one_of arg "--language" "-l") eqn:El.
  { destruct rest as [|next later].
    - injection H as <-. pose proof (parsed_from_refl [arg] o0) as H.
      unfold parsed_from in *. simpl. intuition discriminate.
    - apply IH2 in H. clear IH1 IH2. provenance. }
  destruct (is_one_of arg "--output-format" "-f") eqn:Ef.
  { destruct rest as [|next later].
    - injection H as <-. pose proof (parsed_from_refl [arg] o0) as H.
      unfold parsed_from in *. simpl. intuition discriminate.
    - apply IH2 in H. clear IH1 IH2. provenance. }
  destruct (is_one_of arg "--output-path" "-o") eqn:Ep.
  { destruct rest as [|next later].
    - injection H as <-. pose proof (parsed_from_refl [arg] o0) as H.
      unfold parsed_from in *. simpl. intuition discriminate.
    - apply IH2 in H. clear IH1 IH2. provenance. }
  destruct (is_one_of arg "--include-raw-text" "-r") eqn:Er.
  { apply IH1 in H. clear IH1 IH2. provenance. }
  destruct (string_eqb arg "--no-headless") eqn:Eh.
  { apply string_eqb_eq in Eh as ->. apply IH1 in H. clear IH1 IH2. provenance. }
  destruct (string_eqb arg "--no-incomplete") eqn:Ed.
  { apply string_eqb_eq in Ed as ->. apply IH1 in H. clear IH1 IH2. provenance. }
  destruct (is_one_of arg "--help" "-h") eqn:Ehelp; [discriminate|].
  apply IH1 in H. clear IH1 IH2. provenance.
Qed.

Lemma parseArgs_loop_help args :
  forall before, parseArgs_loop args before = HelpShown -> has_flag "--help" "-h" args.
Proof.
  induction args as [|arg rest IH1 IH2] using args_ind; intros o0 H; simpl in H.
  { discriminate. }
  repeat match type of H with
         | (if ?b then _ else _) = _ => destruct b eqn:?
         | match ?l with [] => _ | _ :: _ => _ end = _ => destruct l
         end;
    try discriminate;
    eauto using has_flag_cons, has_flag_here.
Qed.

Lemma parseArgs_loop_agrees args :
  forall before after,
    parseArgs_loop args before = Parsed after ->
    index_loop args (as_checker_options before) = as_checker_options after.
Proof.
  induction args as [|arg rest IH1 IH2] using args_ind; intros o0 o H; simpl in H |- *.
  { by injection H as <-. }
  repeat match type of H with
         | (if ?b then _ else _) = _ => destruct b eqn:?
         | match ?l with [] => _ | _ :: _ => _ end = _ => destruct l
         end;
    try discriminate;
    first [ by injection H as <- | by apply IH1 in H | by apply IH2 in H ].
Qed.

(** X14. What [parseArgs] of [cli.ts] returns, when it returns: the URL is
    the first argument, whatever it looks like; a value of [language],
    [outputFormat] or [outputPath] is the argument that follows an occurrence
    of its option after the URL; [includeRawText] is unset or true, and
    [headless] and [detectIncomplete] are unset or false, and they are set
    only if their flag occurs after the URL. *)
Theorem X14_parseArgs_provenance (args : list string) (o : cli_args.t) :
  parseArgs args = Parsed o ->
  cli_args.url o = head args /\
  (forall v, cli_args.language o = Some v -> follows "--language" "-l" v (tail args)) /\
  (forall v, cli_args.outputFormat o = Some v ->
     follows "--output-format" "-f" v (tail args)) /\
  (forall v, cli_args.outputPath o = Some v ->
     follows "--output-path" "-o" v (tail args)) /\
  (cli_args.includeRawText o = None \/
   cli_args.includeRawText o = Some true /\
   has_flag "--include-raw-text" "-r" (tail args)) /\
  (cli_args.headless o = None \/
   cli_args.headless o = Some false /\ "--no-headless" ∈ tail args) /\
  (cli_args.detectIncomplete o = None \/
   cli_args.detectIncomplete o = Some false /\ "--no-incomplete" ∈ tail args).
Proof.
  intros H. apply parseArgs_loop_inv in H.
  destruct H as (Hu & Hl & Hf & Hp & Hr & Hh & Hd). simpl in *.
  split; [done|].
  split; [by intros v [?|?]%Hl|].
  split; [by intros v [?|?]%Hf|].
  split; [by intros v [?|?]%Hp|].
  done.
Qed.

Lemma X14_parseArgs_provenance_witness :
  exists o,
    parseArgs plain_args = Parsed o /\
    cli_args.url o = head plain_args /\
    (forall v, cli_args.language o = Some v ->
       follows "--language" "-l" v (tail plain_args)) /\
    (forall v, cli_args.outputFormat o = Some v ->
       follows "--output-format" "-f" v (tail plain_args)) /\
    (forall v, cli_args.outputPath o = Some v ->
       follows "--output-path" "-o" v (tail plain_args)) /\
    (cli_args.includeRawText o = None \/
     cli_args.includeRawText o = Some true /\
     has_flag "--include-raw-text" "-r" (tail plain_args)) /\
    (cli_args.headless o = None \/
     cli_args.headless o = Some false /\ "--no-headless" ∈ tail plain_args) /\
    (cli_args.detectIncomplete o = None \/
     cli_args.detectIncomplete o = Some false /\ "--no-incomplete" ∈ tail plain_args).
Proof.
  eexists. split; [vm_compute; reflexivity|].
  apply X14_parseArgs_provenance. vm_compute. reflexivity.
Defined.

(** X15. The exit codes of [main] of [cli.ts] before a check starts.  It
    exits with 0 only for a help flag after the URL, and with 1 only when
    the URL is missing or empty, or when an output format other than
    console was given. *)
Theorem X15_cli_exit_codes (args : list string) (code : nat) :
  cli_main args = Exit code ->
  code = 0 /\ has_flag "--help" "-h" (tail args) \/
  code = 1 /\
  (falsy (head args) = true \/
   exists f, follows "--output-format" "-f" f (tail args) /\
             f <> EmptyString /\ f <> "console").
Proof.
  unfold cli_main. destruct (parseArgs args) as [o|] eqn:E.
  - apply parseArgs_loop_inv in E.
    destruct E as (Hu & _ & Hf & _). simpl in Hu, Hf.
    rewrite Hu. destruct (falsy (head args)) eqn:Hurl.
    { intros [= <-]. right. split; [done|by left]. }
    destruct (cli_args.outputFormat o) as [f|] eqn:Ef; [|done].
    simpl. destruct (is_empty f) eqn:Hempty; [done|]. simpl.
    destruct (string_eqb f "console") eqn:Hc; [done|]. simpl.
    destruct (falsy (cli_args.outputPath o)); [|done].
    intros [= <-]. right. split; [done|]. right. exists f.
    destruct (Hf f eq_refl) as [?|?]; [done|].
    split; [done|]. split.
    + intros ->. discriminate.
    + intros ->. discriminate.
  - intros [= <-]. left. split; [done|]. by eapply parseArgs_loop_help.
Qed.

Lemma X15_cli_exit_codes_witness :
  cli_main ["https://example.com"; "-f"; "json"] = Exit 1 /\
  (1 = 0 /\ has_flag "--help" "-h" (tail ["https://example.com"; "-f"; "json"]) \/
   1 = 1 /\
   (falsy (head ["https://example.com"; "-f"; "json"]) = true \/
    exists f, follows "--output-format" "-f" f (tail ["https://example.com"; "-f"; "json"]) /\
              f <> EmptyString /\ f <> "console")).
Proof.
  split; [vm_compute; reflexivity|].
  apply (X15_cli_exit_codes ["https://example.com"; "-f"; "json"] 1).
  vm_compute. reflexivity.
Defined.

(** X16. The two entry points agree: whenever [main] of [cli.ts] goes on
    to [checkWebsiteGrammar], the entry of [index.ts] run with the same
    arguments calls it with the same options. *)
Theorem X16_entry_points_agree (args : list string) (o : checker_options.t) :
  cli_main args = Check o -> index_main args = Check o.
Proof.
  unfold cli_main, index_main.
  destruct (parseArgs args) as [parsed|] eqn:E; [|done].
  pose proof (parseArgs_loop_inv _ _ _ E) as (Hu & _). simpl in Hu.
  apply parseArgs_loop_agrees in E. rewrite Hu.
  destruct (falsy (head args)); [done|].
  destruct (_ && _); [done|].
  intros [= <-]. by rewrite <- E.
Qed.

Lemma X16_entry_points_agree_witness :
  exists o, cli_main report_args = Check o /\ index_main report_args = Check o.
Proof.
  eexists. split; [vm_compute; reflexivity|].
  apply X16_entry_points_agree. vm_compute. reflexivity.
Defined.

(** X17. After the checks of [main] of [cli.ts], [outputResults] never
    ends on a missing path: the result goes to the console, or to a file
    under a path that is not empty and that was given after the option
    for it. *)
Theorem X17_cli_output_has_its_path (args : list string) (o : checker_options.t) :
  cli_main args = Check o ->
  (exists raw, output_of o = ToConsole raw) \/
  (exists format path raw,
     output_of o = ToFile format path raw /\
     format ∈ ["json"; "html"; "markdown"] /\
     path <> EmptyString /\
     follows "--output-format" "-f" format (tail args) /\
     follows "--output-path" "-o" path (tail args)).
Proof.
  unfold cli_main. destruct (parseArgs args) as [parsed|] eqn:E; [|done].
  apply parseArgs_loop_inv in E.
  destruct E as (_ & _ & Hf & Hp & _). simpl in Hf, Hp.
  destruct (falsy _); [done|].
  destruct (_ && _) eqn:Hguard; [done|].
  intros [= <-]. unfold output_of, outputResults. simpl.
  destruct (cli_args.outputFormat parsed) as [f|] eqn:Ef; simpl; [|left; eauto].
  destruct (Hf f eq_refl) as [?|Hfollows]; [done|].
  assert (f ∈ ["json"; "html"; "markdown"] ->
          exists path, cli_args.outputPath parsed = Some path /\ is_empty path = false)
    as Hpath.
  { intros Hin. simpl in Hguard.
    destruct (is_empty f) eqn:Hempty.
    { destruct f; [|done]. set_solver. }
    destruct (string_eqb f "console") eqn:Hc.
    { apply string_eqb_eq in Hc as ->. set_solver. }
    simpl in Hguard. destruct (cli_args.outputPath parsed) as [path|]; [|done].
    exists path. split; [done|]. simpl in Hguard. by destruct (is_empty path). }
  assert (f ∈ ["json"; "html"; "markdown"] ->
          exists format path raw,
            to_file f (cli_args.outputPath parsed)
              (default false (cli_args.includeRawText parsed))
            = ToFile format path raw /\
            format ∈ ["json"; "html"; "markdown"] /\
            path <> EmptyString /\
            follows "--output-format" "-f" format (tail args) /\
            follows "--output-path" "-o" path (tail args)) as Hfile.
  { intros Hin. destruct (Hpath Hin) as (path & Epath & Hne).
    exists f, path, (default false (cli_args.includeRawText parsed)).
    unfold to_file. rewrite Epath, Hne.
    split; [done|]. split; [done|]. split; [by intros ->|]. split; [done|].
    by destruct (Hp path Epath). }
  destruct (string_eqb f "json") eqn:E1.
  { apply string_eqb_eq in E1 as ->. right. apply Hfile. set_solver. }
  destruct (string_eqb f "html") eqn:E2.
  { apply string_eqb_eq in E2 as ->. right. apply Hfile. set_solver. }
  destruct (string_eqb f "markdown") eqn:E3.
  { apply string_eqb_eq in E3 as ->. right. apply Hfile. set_solver. }
  left; eauto.
Qed.

Lemma X17_cli_output_has_its_path_witness :
  exists o,
    cli_main report_args = Check o /\
    ((exists raw, output_of o = ToConsole raw) \/
     (exists format path raw,
        output_of o = ToFile format path raw /\
        format ∈ ["json"; "html"; "markdown"] /\
        path <> EmptyString /\
        follows "--output-format" "-f" format (tail report_args) /\
        follows "--output-path" "-o" path (tail report_args))).
Proof.
  eexists. split; [vm_compute; reflexivity|].
  apply X17_cli_output_has_its_path. vm_compute. reflexivity.
Defined.

Lemma follows_has_flag long short v args :
  follows long short v args -> has_flag long short args.
Proof.
  intros (i & arg & Hi & Hflag & _). exists arg. split; [|done].
  by eapply list_elem_of_lookup_2.
Qed.

(** X18. The checker that a run of [cli.ts] builds.  Its fragment set is
    empty, no rule is disabled, and its language is never empty: it is
    en-US unless it was given after the language option.  The arguments
    reach the analysis through one flag only: the result of [checkPage] is
    that of the default checker, or, and then the flag for it occurs after
    the URL, that of the default checker with the sentence pass off. *)
Theorem X18_checker_of_the_command_line
    (sentences : string -> list string) (args : list string) (o : checker_options.t) :
  cli_main args = Check o ->
  processedFragments (checker_of o) = ∅ /\
  disabledRules (options (checker_of o)) = Some [] /\
  (exists l, language (options (checker_of o)) = Some l /\
             l <> EmptyString /\
             (l = "en-US" \/ follows "--language" "-l" l (tail args))) /\
  ((forall url text,
      fst <$> checkPage sentences (checker_of o) url text
      = fst <$> checkPage sentences (new_GrammarChecker default_options) url text) \/
   ("--no-incomplete" ∈ tail args /\
    forall url text,
      fst <$> checkPage sentences (checker_of o) url text
      = fst <$> checkPage sentences
                  (new_GrammarChecker (with_detectIncomplete default_options false))
                  url text)).
Proof.
  unfold cli_main. destruct (parseArgs args) as [parsed|] eqn:E; [|done].
  apply parseArgs_loop_inv in E.
  destruct E as (_ & Hl & _ & _ & _ & _ & Hd). simpl in Hl, Hd.
  destruct (falsy _); [done|]. destruct (_ && _); [done|].
  intros [= <-]. split; [done|]. split; [done|]. split.
  - unfold checker_of, constructor_options. simpl.
    destruct (cli_args.language parsed) as [l|] eqn:El; simpl.
    + destruct (is_empty l) eqn:Hempty.
      * exists "en-US". split; [done|]. split; [done|by left].
      * exists l. split; [done|]. split; [by intros ->|].
        right. by destruct (Hl l eq_refl).
    + exists "en-US". split; [done|]. split; [done|by left].
  - destruct Hd as [Hd|[Hd Hin]].
    + left. intros url text. apply checkPage_reads; [|done].
      unfold checker_of, constructor_options, detecting. simpl. by rewrite Hd.
    + right. split; [done|]. intros url text. apply checkPage_reads; [|done].
      unfold checker_of, constructor_options, detecting. simpl. by rewrite Hd.
Qed.

Lemma X18_checker_of_the_command_line_witness :
  exists o,
    cli_main report_args = Check o /\
    processedFragments (checker_of o) = ∅ /\
    disabledRules (options (checker_of o)) = Some [] /\
    (exists l, language (options (checker_of o)) = Some l /\
               l <> EmptyString /\
               (l = "en-US" \/ follows "--language" "-l" l (tail report_args))) /\
    ((forall url text,
        fst <$> checkPage segmenter (checker_of o) url text
        = fst <$> checkPage segmenter (new_GrammarChecker default_options) url text) \/
     ("--no-incomplete" ∈ tail report_args /\
      forall url text,
        fst <$> checkPage segmenter (checker_of o) url text
        = fst <$> checkPage segmenter
                    (new_GrammarChecker (with_detectIncomplete default_options false))
                    url text)).
Proof.
  eexists. split; [vm_compute; reflexivity|].
  apply X18_checker_of_the_command_line. vm_compute. reflexivity.
Defined.

(** X19. A command line that starts with a URL and has no help flag and no
    format option after it passes both guards of [main] of [cli.ts]:
    [main] does not exit and calls [checkWebsiteGrammar] with options whose
    URL is the first argument and whose format is unset, the format that
    [outputResults] sends to the console function and not to a file.  What
    the call then does with the browser is not part of the statement. *)
Theorem X19_cli_passes_its_guards (args : list string) (u : string) :
  head args = Some u ->
  u <> EmptyString ->
  ~ has_flag "--help" "-h" (tail args) ->
  ~ has_flag "--output-format" "-f" (tail args) ->
  exists o raw,
    cli_main args = Check o /\
    checker_options.url o = Some u /\
    checker_options.outputFormat o = None /\
    output_of o = ToConsole raw.
Proof.
  intros Hu Hne Hhelp Hformat. unfold cli_main.
  destruct (parseArgs args) as [parsed|] eqn:E.
  2: { exfalso. apply Hhelp. by eapply parseArgs_loop_help. }
  apply parseArgs_loop_inv in E.
  destruct E as (Eu & _ & Hf & _). simpl in Eu, Hf.
  assert (cli_args.outputFormat parsed = None) as Ef.
  { destruct (cli_args.outputFormat parsed) as [f|]; [|done].
    exfalso. apply Hformat. destruct (Hf f eq_refl) as [?|?]; [done|].
    by eapply follows_has_flag. }
  rewrite Eu, Hu, Ef. simpl.
  destruct (is_empty u) eqn:Hempty; [by destruct u|].
  eexists _, _. split; [done|]. simpl. split; [by rewrite Eu|]. split; [done|].
  unfold output_of. simpl. by rewrite Ef.
Qed.

Lemma X19_cli_passes_its_guards_witness :
  head plain_args = Some "https://example.com" /\
  "https://example.com" <> EmptyString /\
  ~ has_flag "--help" "-h" (tail plain_args) /\
  ~ has_flag "--output-format" "-f" (tail plain_args) /\
  exists o raw,
    cli_main plain_args = Check o /\
    checker_options.url o = Some "https://example.com" /\
    checker_options.outputFormat o = None /\
    output_of o = ToConsole raw.
Proof.
  assert (forall long short,
            forallb (fun arg => negb (is_one_of arg long short)) (tail plain_args) = true ->
            ~ has_flag long short (tail plain_args)) as Hnone.
  { intros long short Hall (arg & Hin & Hflag).
    rewrite forallb_forall in Hall. apply list_elem_of_In, Hall in Hin.
    by rewrite Hflag in Hin. }
  assert (head plain_args = Some "https://example.com") as H1 by reflexivity.
  assert ("https://example.com" <> EmptyString) as H2 by discriminate.
  assert (~ has_flag "--help" "-h" (tail plain_args)) as H3
    by (apply Hnone; vm_compute; reflexivity).
  assert (~ has_flag "--output-format" "-f" (tail plain_args)) as H4
    by (apply Hnone; vm_compute; reflexivity).
  split; [exact H1|]. split; [exact H2|]. split; [exact H3|]. split; [exact H4|].
  exact (X19_cli_passes_its_guards plain_args "https://example.com" H1 H2 H3 H4).
Defined.

(** ** The gates of a run *)

Lemma report_match_gates pm e :
  e ∈ report (FromMatch pm) ->
  isHeadingOrTitle (context e) = false /\
  (ruleId e = HANGING_PREPOSITION -> isPrepositionInHeading (context e) = false).
Proof.
  destruct pm as [pat m]. simpl. unfold match_out.
  destruct (isHeadingOrTitle _) eqn:Hh; [by intros ?%elem_of_nil|].
  destruct (string_eqb (pattern.ruleId pat) HANGING_PREPOSITION) eqn:Hrule; simpl.
  - destruct (isPrepositionInHeading _) eqn:Hp; [by intros ?%elem_of_nil|].
    by intros ->%list_elem_of_singleton.
  - intros ->%list_elem_of_singleton. simpl. split; [done|].
    intros Heq. rewrite Heq in Hrule. by vm_compute in Hrule.
Qed.

(** X20. The gates behind every error of a result.  No context is a
    heading or title.  A MISSING_END_PUNCTUATION error is the trimmed form
    of a sentence of the splitter that [shouldSkipText] let through and that
    [isContentSentence] accepted.  A HANGING_PREPOSITION error has a context
    that [isPrepositionInHeading] rejects: a match that looks like a heading
    with a preposition is dropped, for this rule and for no other. *)
Theorem X20_gates_of_a_result
    (sentences : string -> list string) (this : GrammarChecker) (url text : string) :
  exists result this',
    checkPage sentences this url text = Some (result, this') /\
    forall e, e ∈ errors result ->
      isHeadingOrTitle (context e) = false /\
      (ruleId e = MISSING_END_PUNCTUATION ->
         exists s, s ∈ sentences text /\ context e = trim s /\
                   shouldSkipText s = false /\ isContentSentence s = true) /\
      (ruleId e = HANGING_PREPOSITION -> isPrepositionInHeading (context e) = false).
Proof.
  destruct (run_origin sentences this url text)
    as (result & this' & ms & nlpErrors & regexErrors & Hpage & Hms & Herr & Hn & Hr).
  exists result, this'. split; [done|]. rewrite Herr.
  intros e [He|He]%elem_of_app.
  - destruct (Hn e He) as (s & Hs & _ & Hrep).
    pose proof (report_no_heading _ _ Hrep) as Hh.
    apply report_sentence_inv in Hrep as (-> & Hskip & _ & Hcontent).
    split; [done|]. split; [intros _; by exists s|]. simpl. intros Hrule.
    by vm_compute in Hrule.
  - destruct (Hr e He) as (pm & Hpm & Hrep).
    destruct (all_matches_located patterns text ms Hms pm Hpm) as [Hpat _].
    pose proof (report_match_rule pm e Hpat Hrep) as Hrule.
    apply report_match_gates in Hrep as [Hh Hprep].
    split; [done|]. split; [|done].
    intros Heq. rewrite Heq in Hrule. by apply missing_is_no_pattern_rule in Hrule.
Qed.
